(** * FigmaQML: the node-to-markup transpiler of [figmaparser.h]

    A shallow embedding of the class [FigmaParser] and a verification of
    its documented behaviour.

    Conventions of the embedding.
    - A [QString] is a [string]; every character is one code unit in the
      Latin-1 range, so [toLatin1] and [toUtf8] of generated text are the
      identity on the strings handled here.  A [QByteArray] is a [string]
      as well.
    - A [double] is a primitive binary64 [float]; [int] and [unsigned] are
      [Z].  The text Qt prints for a [double] ([QString::number], [arg])
      is a parameter [number] of the development.
    - [QString::arg] on a template written in the source replaces the
      place markers of the template by the arguments.  A second [arg]
      reads its text again, place markers of the first argument included:
      where the first argument is a raw name of the document (the numbered
      names of [components]) the chain is modelled in full, by [arg_string]
      and [arg_int].  The other chains substitute numbers and identifiers
      made from node ids; the ids of a Figma document are digits, colons,
      semicolons and the letter I, and hold no percent sign.
    - [QHash] and [QSet] are [gmap] and [gset]; a [QJsonObject] is the list
      of its members in key order.
    - [Q_ASSERT] depends on the build: with [QT_DEBUG] a failed assertion
      ends the process ([Crash]), without it the macro expands to nothing.
    - Every function that can throw [FigmaParser::Exception] returns an
      [outcome]; the methods of a parser object also thread the two
      mutable members [m_componentIds] and [m_parent]. *)

From Stdlib Require Import ZArith Ascii Bool Lia.
From Stdlib Require String PrimFloat FloatOps SpecFloat Uint63 HexadecimalString.
Import (notations) PrimFloat.
From stdpp Require Import base list gmap strings pretty sorting.

Set Warnings "-register-all,-clear-no-such-hyp".
Local Open Scope Z_scope.

Abbreviation float := PrimFloat.float.

(** ** Outcomes: a value, a thrown [FigmaParser::Exception], or a crash *)

Inductive outcome (A : Type) : Type :=
| Ok (a : A)
| Throw (what : string)
| Crash.
Arguments Ok {A} a.
Arguments Throw {A} what.
Arguments Crash {A}.

Definition obind {A B : Type} (m : outcome A) (k : A → outcome B) : outcome B :=
  match m with
  | Ok a => k a
  | Throw w => Throw w
  | Crash => Crash
  end.

#[global] Instance outcome_ret : MRet outcome := @Ok.
#[global] Instance outcome_bind : MBind outcome := λ A B k m, obind m k.

(** [class Exception]: the constructor prefixes the issue; [what()] returns it. *)
Definition Exception (issue : string) : string :=
  "FigmaParser exception: " +:+ issue.

(** [toStr(first, rest...)]: the arguments streamed with one blank between. *)
Fixpoint toStr (args : list string) : string :=
  match args with
  | [] => ""
  | [last] => last
  | first :: rest => first +:+ " " +:+ toStr rest
  end.

(** [#define ERR(...) throw FigmaParser::Exception(toStr(__VA_ARGS__));] *)
Definition ERR {A : Type} (args : list string) : outcome A :=
  Throw (Exception (toStr args)).

(** [Q_ASSERT(cond)] under the build flag [dbg]. *)
Definition Q_ASSERT (dbg : bool) (cond : bool) : outcome unit :=
  if dbg && negb cond then Crash else Ok tt.

(** ** The parts of [QString] and [QChar] the parser uses *)

Definition FIGMA_SUFFIX : string := "_figma".

Definition isEmpty (s : string) : bool :=
  match s with EmptyString => true | _ => false end.

Definition code (c : ascii) : N := N_of_ascii c.

Definition isLower (c : ascii) : bool := ((97 <=? code c) && (code c <=? 122))%N.
Definition isUpper (c : ascii) : bool := ((65 <=? code c) && (code c <=? 90))%N.
Definition isDigit (c : ascii) : bool := ((48 <=? code c) && (code c <=? 57))%N.
Definition isLetter (c : ascii) : bool := isLower c || isUpper c.

(** [QChar::toUpper] and [QChar::toLower] on the ASCII letters. *)
Definition toUpper (c : ascii) : ascii :=
  if isLower c then ascii_of_N (code c - 32) else c.
Definition toLower (c : ascii) : ascii :=
  if isUpper c then ascii_of_N (code c + 32) else c.

Fixpoint smap (f : ascii → ascii) (s : string) : string :=
  match s with
  | EmptyString => EmptyString
  | String c r => String (f c) (smap f r)
  end.

(** [s.endsWith(suffix)] *)
Fixpoint endsWith (s suffix : string) : bool :=
  String.eqb s suffix ||
  match s with
  | EmptyString => false
  | String _ r => endsWith r suffix
  end.

(** [s.replace(QRegularExpression(class), after)] for a pattern that is one
    character class: every character of the class becomes [after]. *)
Fixpoint replace_class (class : ascii → bool) (after : string) (s : string) : string :=
  match s with
  | EmptyString => EmptyString
  | String c r =>
      (if class c then after else String c EmptyString) +:+ replace_class class after r
  end.

(** [s.repeated(times)]: empty when [times < 1]. *)
Definition repeated (s : string) (times : Z) : string :=
  Nat.iter (Z.to_nat times) (String.append s) "".

(** The class of the first pattern of [validFileName]: backslash, slash,
    colon, star, question mark, double quote, the angle brackets, the bar,
    and white space. *)
Definition re_reserved (c : ascii) : bool :=
  match code c with
  | 92 | 47 | 58 | 42 | 63 | 34 | 60 | 62 | 124 => true
  | 9 | 10 | 11 | 12 | 13 | 32 => true
  | _ => false
  end%N.

(** The class [^a-zA-Z0-9_]. *)
Definition isWord (c : ascii) : bool :=
  isLower c || isUpper c || isDigit c || (code c =? 95)%N.
Definition re_nonword (c : ascii) : bool := negb (isWord c).

(** The class [^a-zA-Z0-9]. *)
Definition re_nonalnum (c : ascii) : bool :=
  negb (isLower c || isUpper c || isDigit c).

(** [name[0]], [name.insert(0, s)] and [name.replace(0, 1, c)]. *)
Definition at0 (name : string) : ascii :=
  match name with String c _ => c | EmptyString => "000"%char end.
Definition insert0 (s name : string) : string := s +:+ name.
Definition replace01 (c : ascii) (name : string) : string :=
  match name with String _ r => String c r | EmptyString => EmptyString end.

(** ** Numbers *)

(** [static_cast<int>(d)]: truncation toward zero. *)
Definition truncate (d : float) : Z :=
  match FloatOps.Prim2SF d with
  | SpecFloat.S754_finite s m e =>
      let v := if 0 <=? e then Z.pos m * 2 ^ e else Z.pos m / 2 ^ (- e) in
      if s then - v else v
  | _ => 0
  end.

(** [std::round(d)]: to the nearest integer, halves away from zero. *)
Definition round (d : float) : Z :=
  match FloatOps.Prim2SF d with
  | SpecFloat.S754_finite s m e =>
      let v := if 0 <=? e then Z.pos m * 2 ^ e
               else (2 * Z.pos m + 2 ^ (- e)) / (2 * 2 ^ (- e)) in
      if s then - v else v
  | _ => 0
  end.

(** [std::floor(d)] *)
Definition floor (d : float) : Z :=
  match FloatOps.Prim2SF d with
  | SpecFloat.S754_finite s m e =>
      if 0 <=? e then (if s then - (Z.pos m * 2 ^ e) else Z.pos m * 2 ^ e)
      else if s then - ((Z.pos m + 2 ^ (- e) - 1) / 2 ^ (- e))
      else Z.pos m / 2 ^ (- e)
  | _ => 0
  end.

(** The conversion of an [int] to [double]. *)
Definition of_int (z : Z) : float :=
  match z with
  | Z0 => 0%float
  | Zpos _ => PrimFloat.of_uint63 (Uint63.of_Z z)
  | Zneg p => PrimFloat.opp (PrimFloat.of_uint63 (Uint63.of_Z (Zpos p)))
  end.

(** [std::numeric_limits<double>::epsilon()] *)
Definition epsilon : float := 0x1p-52%float.

(** [static inline bool eq(double a, double b)] *)
Definition eq_double (a b : float) : bool :=
  PrimFloat.ltb (PrimFloat.abs (PrimFloat.sub a b)) epsilon.

(** [static_cast<unsigned>(z)] for a 32-bit [unsigned]. *)
Definition to_unsigned (z : Z) : Z := z mod 2 ^ 32.

(** [QString::arg(u, 2, 16, QLatin1Char('0'))]: lower-case hexadecimal,
    padded with zeros to two characters. *)
Definition hex2 (u : Z) : string :=
  let s := HexadecimalString.NilZero.string_of_uint (N.to_hex_uint (Z.to_N u)) in
  if (String.length s <? 2)%nat then "0" +:+ s else s.

(** [QString::arg(int)] and [QString::number(int)]. *)
Definition number_int (z : Z) : string := pretty z.

(** ** JSON values *)

Inductive QJsonValue : Type :=
| JNull
| JBool (b : bool)
| JDouble (d : float)
| JString (s : string)
| JArray (a : list QJsonValue)
| JObject (o : list (string * QJsonValue))
| JUndefined.

Abbreviation QJsonArray := (list QJsonValue).
Abbreviation QJsonObject := (list (string * QJsonValue)).

(** [operator==] of [QJsonValue]. *)
Fixpoint json_eqb (x y : QJsonValue) : bool :=
  match x, y with
  | JNull, JNull => true
  | JBool a, JBool b => Bool.eqb a b
  | JDouble a, JDouble b => PrimFloat.eqb a b
  | JString a, JString b => String.eqb a b
  | JArray a, JArray b =>
      (fix all2 (a b : list QJsonValue) : bool :=
         match a, b with
         | [], [] => true
         | x :: a', y :: b' => json_eqb x y && all2 a' b'
         | _, _ => false
         end) a b
  | JObject a, JObject b =>
      (fix all2 (a b : list (string * QJsonValue)) : bool :=
         match a, b with
         | [], [] => true
         | (k, x) :: a', (k', y) :: b' => String.eqb k k' && json_eqb x y && all2 a' b'
         | _, _ => false
         end) a b
  | JUndefined, JUndefined => true
  | _, _ => false
  end.

(** The nesting depth of a value; it bounds every descent into children. *)
Fixpoint depth (v : QJsonValue) : nat :=
  match v with
  | JArray a => S (foldr (λ x n, Nat.max (depth x) n) 0%nat a)
  | JObject o => S (foldr (λ kv n, Nat.max (match kv with (_, x) => depth x end) n) 0%nat o)
  | _ => 0%nat
  end.

(** [obj[key]]: [Undefined] when the key is absent. *)
Fixpoint jvalue (obj : QJsonObject) (key : string) : QJsonValue :=
  match obj with
  | [] => JUndefined
  | (k, v) :: r => if String.eqb k key then v else jvalue r key
  end.

Definition jcontains (obj : QJsonObject) (key : string) : bool :=
  existsb (λ kv, String.eqb kv.1 key) obj.

Definition jkeys (obj : QJsonObject) : list string := obj.*1.

Definition jremove (key : string) (obj : QJsonObject) : QJsonObject :=
  filter (λ kv, kv.1 ≠ key) obj.

Fixpoint insert_ordered (key : string) (v : QJsonValue) (obj : QJsonObject) : QJsonObject :=
  match obj with
  | [] => [(key, v)]
  | (k, w) :: r =>
      if String.eqb key k then (key, v) :: r
      else if String.ltb key k then (key, v) :: obj
      else (k, w) :: insert_ordered key v r
  end.

(** [obj.insert(key, v)]: replaces the member of that key, keeps the keys in
    order, and removes the key when [v] is [Undefined]. *)
Definition jinsert (key : string) (v : QJsonValue) (obj : QJsonObject) : QJsonObject :=
  match v with
  | JUndefined => jremove key obj
  | _ => insert_ordered key v obj
  end.

Definition toObject (v : QJsonValue) : QJsonObject :=
  match v with JObject o => o | _ => [] end.
Definition toArray (v : QJsonValue) : QJsonArray :=
  match v with JArray a => a | _ => [] end.
Definition toString (v : QJsonValue) : string :=
  match v with JString s => s | _ => "" end.
Definition toDouble (v : QJsonValue) : float :=
  match v with JDouble d => d | _ => 0%float end.
Definition toBool (v : QJsonValue) : bool :=
  match v with JBool b => b | _ => false end.
(** [toInt()]: the number when it is whole, 0 otherwise. *)
Definition toInt (v : QJsonValue) : Z :=
  match v with
  | JDouble d => if PrimFloat.eqb (of_int (truncate d)) d then truncate d else 0
  | _ => 0
  end.
Definition isString (v : QJsonValue) : bool :=
  match v with JString _ => true | _ => false end.
Definition isNull (v : QJsonValue) : bool :=
  match v with JNull => true | _ => false end.

(** [array[i]]: [Undefined] out of range. *)
Definition at_ (a : QJsonArray) (i : Z) : QJsonValue :=
  if i <? 0 then JUndefined else default JUndefined (a !! Z.to_nat i).

(** [v[key]] on a [QJsonValue]: the member of the object it holds. *)
Definition member (v : QJsonValue) (key : string) : QJsonValue :=
  jvalue (toObject v) key.

(** [v == "text"]: the value is that string. *)
Definition is_str (v : QJsonValue) (s : string) : bool := json_eqb v (JString s).

Definition qsize {A} (l : list A) : Z := Z.of_nat (length l).

(** ** Text pieces *)

(** The line feed and the double quote of the generated text. *)
Definition nl : string := String "010"%char EmptyString.
Definition dq : string := String "034"%char EmptyString.

(** The pieces appended to [out], in order. *)
Definition cat (pieces : list string) : string := foldr String.append "" pieces.

(** [s.replace(before, after)] for a one-character [before]. *)
Definition replace_char (before : ascii) (after : string) (s : string) : string :=
  replace_class (λ c, bool_decide (c = before)) after s.

(** ** Place markers of [QString::arg]

    [arg] looks for the place markers of its text, a percent sign, an
    optional letter L and one or two digits, and replaces every marker of
    the lowest number by the argument; the other markers and the rest of the
    text are copied. *)

(** [QChar::digitValue]: the decimal digits, and in the Latin-1 range the
    superscripts two, three and one. *)
Definition digitValue (c : ascii) : option N :=
  if isDigit c then Some (code c - 48)%N
  else match code c with
       | 178 => Some 2
       | 179 => Some 3
       | 185 => Some 1
       | _ => None
       end%N.

(** A piece of a text: a character that is copied, or a place marker with
    its number, whether it has the letter L, and its own text. *)
Inductive piece : Type :=
| Plain (c : ascii)
| Marker (escape : N) (locale : bool) (text : string).

(** What the scan has read of a possible place marker: nothing, the percent
    sign, the percent sign and the letter L, or these and a first digit. *)
Inductive scanning : Type :=
| Copying
| Percent
| PercentL
| Digit (escape : N) (locale : bool) (text : string).

(** The pieces that the characters read so far make when no further
    character belongs to them. *)
Definition pending (state : scanning) : list piece :=
  match state with
  | Copying => []
  | Percent => [Plain "%"]
  | PercentL => [Plain "%"; Plain "L"]
  | Digit escape locale text => [Marker escape locale text]
  end.

(** The scan of [findArgEscapes] and of [replaceArgEscapes], one character
    at a time: a character that does not continue a marker ends what was
    read so far and is looked at again as the start of a marker. *)
Fixpoint scan (state : scanning) (s : string) : list piece :=
  match s with
  | EmptyString => pending state
  | String c r =>
      let again :=
        pending state
        ++ (if bool_decide (c = "%"%char) then scan Percent r else Plain c :: scan Copying r) in
      match state with
      | Copying => again
      | Percent =>
          if bool_decide (c = "L"%char) then scan PercentL r
          else match digitValue c with
               | Some a => scan (Digit a false (String "%" (String c ""))) r
               | None => again
               end
      | PercentL =>
          match digitValue c with
          | Some a => scan (Digit a true (String "%" (String "L" (String c "")))) r
          | None => again
          end
      | Digit a locale text =>
          match digitValue c with
          | Some b => Marker (10 * a + b) locale (text +:+ String c "") :: scan Copying r
          | None => again
          end
      end
  end.

Definition pieces (s : string) : list piece := scan Copying s.

(** [ArgEscapeData::min_escape]: the lowest number among the markers. *)
Fixpoint min_escape (ps : list piece) : option N :=
  match ps with
  | [] => None
  | Marker escape _ _ :: r =>
      match min_escape r with
      | Some m => Some (N.min escape m)
      | None => Some escape
      end
  | Plain _ :: r => min_escape r
  end.

(** What [replaceArgEscapes] writes for a piece: [larg] for a marker of the
    lowest number with the letter L, [arg] for one without. *)
Definition replaced (min : N) (arg larg : string) (p : piece) : string :=
  match p with
  | Plain c => String c ""
  | Marker escape locale text =>
      if (escape =? min)%N then (if locale then larg else arg) else text
  end.

(** The text with its markers of the lowest number replaced; a text without
    any marker is returned as it is (Qt prints a warning). *)
Definition arg_with (s arg larg : string) : string :=
  match min_escape (pieces s) with
  | Some min => cat (replaced min arg larg <$> pieces s)
  | None => s
  end.

(** [s.arg(a)] for a [QString] [a]. *)
Definition arg_string (s a : string) : string := arg_with s a a.

(** [s.arg(a)] for an [int] [a]: the decimal numeral, and for the markers
    with the letter L the text [localized a] of the default locale. *)
Definition arg_int (localized : Z → string) (s : string) (a : Z) : string :=
  arg_with s (number_int a) (localized a).

(** [key.split(sep).last()]: the text after the last separator. *)
Fixpoint split_last_go (sep : ascii) (s acc : string) : string :=
  match s with
  | EmptyString => acc
  | String c r =>
      if bool_decide (c = sep) then split_last_go sep r ""
      else split_last_go sep r (acc +:+ String c EmptyString)
  end.
Definition split_last (sep : ascii) (s : string) : string := split_last_go sep s "".

(** A fold whose step may fail. *)
Fixpoint foldM {M : Type → Type} `{!MBind M, !MRet M} {A B : Type}
    (f : A → B → M A) (a : A) (l : list B) : M A :=
  match l with
  | [] => mret a
  | b :: r => a' ← f a b; foldM f a' r
  end.

(** ** The classes nested in [FigmaParser] *)

Module Canvas.
Record t : Type := Canvas {
    m_name : string;
    m_id : string;
    m_color : string;
    m_elements : list QJsonObject
  }.
End Canvas.

Module Element.
Record t : Type := Element {
    m_name : string;
    m_id : string;
    m_type : string;
    m_data : string;
    m_componentIds : list string
  }.
  (** The default constructor [Element()]. *)
Definition empty : t := Element "" "" "" "" [].
Definition id := m_id.
Definition name := m_name.
Definition data := m_data.
Definition components := m_componentIds.
End Element.

Module Component.
Record t : Type := Component {
    m_name : string;
    m_id : string;
    m_key : string;
    m_description : string;
    m_object : QJsonObject
  }.
Definition description := m_description.
Definition id := m_id.
Definition key := m_key.
Definition object := m_object.
End Component.

(** [using Components = QHash<QString, std::shared_ptr<Component>>] *)
Abbreviation Components := (gmap string Component.t).

(** A call of the [ErrorFunc] callback: the message and [isFatal]. *)
Abbreviation issue := (string * bool)%type.

(** [enum Flags] *)
Definition PrerenderShapes : Z := 2.
Definition PrerenderGroups : Z := 4.
Definition PrerenderComponents : Z := 8.
Definition PrerenderFrames : Z := 16.
Definition PrerenderInstances : Z := 32.
Definition ParseComponent : Z := 512.
Definition BreakBooleans : Z := 1024.
Definition AntializeShapes : Z := 2048.

(** [flags & flag] read as a condition. *)
Definition has_flag (flags flag : Z) : bool := negb (Z.land flags flag =? 0).

Definition PlaceHolder : string := "placeholder".

Inductive StrokeType : Type := Normal | Double | OnePix.
Inductive ItemType : Type :=
| None_ | Vector | Text | Frame | Component_ | Boolean | Instance.

#[global] Instance StrokeType_eq_dec : EqDecision StrokeType.
Proof. solve_decision. Defined.
#[global] Instance ItemType_eq_dec : EqDecision ItemType.
Proof. solve_decision. Defined.

(** [template <typename K, typename V> class OrderedMap], at [QString] keys
    and [QByteArray] values. *)
Module OrderedMap.
Record t : Type := OrderedMap {
    m_data : list (string * string);
    m_index : gmap string nat
  }.
Definition empty : t := OrderedMap [] ∅.
  (** [operator[]]: the index of an absent key reads as 0. *)
Definition get (m : t) (k : string) : string :=
    (default ("", "") (m_data m !! default 0%nat (m_index m !! k))).2.
Definition keys (m : t) : list string := (m_data m).*1.
Definition insert (k v : string) (m : t) : t :=
    OrderedMap (m_data m ++ [(k, v)]) (<[k := length (m_data m)]> (m_index m)).
Definition size (m : t) : Z := Z.of_nat (base.size (m_index m)).
Definition clear (m : t) : t := empty.
End OrderedMap.

(** The constant members of a [FigmaParser] object. *)
Record FigmaParser : Type := {
  m_flags : Z;
  mImageProvider : string → bool → string;
  mResolveFont : string → string;
  m_components : Components
}.

(** The mutable members of a [FigmaParser] object. *)
Record members : Type := {
  m_componentIds : gset string;
  m_parent : QJsonObject
}.

(** A method of the parser: it reads and updates the mutable members, and
    returns, throws or crashes. *)
Definition method (A : Type) : Type := members → outcome (A * members).

#[global] Instance method_ret : MRet method := λ A a st, Ok (a, st).
#[global] Instance method_bind : MBind method := λ A B k m st,
  match m st with
  | Ok (a, st') => k a st'
  | Throw w => Throw w
  | Crash => Crash
  end.

(** A static function used inside a method. *)
Definition lift {A : Type} (m : outcome A) : method A := λ st,
  match m with
  | Ok a => Ok (a, st)
  | Throw w => Throw w
  | Crash => Crash
  end.

(** Every character of [s] satisfies [p]. *)
Fixpoint sall (p : ascii → bool) (s : string) : bool :=
  match s with
  | EmptyString => true
  | String c r => p c && sall p r
  end.

Definition startsWithLetter (s : string) : bool :=
  match s with String c _ => isLetter c | EmptyString => false end.

(** The backslash of the generated text. *)
Definition bs : string := String "092"%char EmptyString.

(** A constant table ([QHash] with an initializer list) and its lookup. *)
Fixpoint assoc {V : Type} (table : list (string * V)) (key : string) : option V :=
  match table with
  | [] => None
  | (k, v) :: r => if String.eqb k key then Some v else assoc r key
  end.

(** [QRectF] as x, y, width, height; [QSizeF] and [QPointF] as pairs. *)
Record QRectF : Type := { rx : float; ry : float; rwidth : float; rheight : float }.
Definition QRectF_zero : QRectF := {| rx := 0; ry := 0; rwidth := 0; rheight := 0 |}.

(** [qMax] on [double]. *)
Definition qMax (a b : float) : float := if PrimFloat.ltb a b then b else a.

(** [data.insert(pos, text)] on a byte array. *)
Definition insert_at (pos : nat) (text data : string) : string :=
  String.substring 0 pos data +:+ text
  +:+ String.substring pos (String.length data - pos) data.

(** [v.toVariant().toString()], with the text of a [double] given by [number]. *)
Definition variantString (number : float → string) (v : QJsonValue) : string :=
  match v with
  | JString s => s
  | JBool b => if b then "true" else "false"
  | JDouble d => number d
  | _ => ""
  end.

(** The number of places of [s] at which [pat] starts. *)
Fixpoint occurrences (pat s : string) : nat :=
  ((if String.prefix pat s then 1 else 0)
   + match s with String _ r => occurrences pat r | EmptyString => 0 end)%nat.

(** [s] holds the texts of [pats], one after the other. *)
Fixpoint holds_in_order (pats : list string) (s : string) : Prop :=
  match pats with
  | [] => True
  | pat :: pats => ∃ a b, s = a +:+ pat +:+ b ∧ holds_in_order pats b
  end.

(** The same as a check: the rest of [s] behind the prefix [pat], the rest
    behind the first place at which [pat] starts, and the texts in order. *)
Fixpoint strip_prefix (pat s : string) : option string :=
  match pat, s with
  | EmptyString, _ => Some s
  | String a pat, String b s => if Ascii.eqb a b then strip_prefix pat s else None
  | String _ _, EmptyString => None
  end.

Fixpoint behind (pat s : string) : option string :=
  match strip_prefix pat s with
  | Some r => Some r
  | None => match s with String _ r => behind pat r | EmptyString => None end
  end.

Fixpoint in_order (pats : list string) (s : string) : bool :=
  match pats with
  | [] => true
  | pat :: pats => match behind pat s with Some r => in_order pats r | None => false end
  end.

(** * Sample documents

    The concrete inputs of the examples further down. *)

(** A stand-in for Qt's text of a [double], exact on whole numbers. *)
Definition sample_number (d : float) : string := pretty (truncate d).

(** A locale that writes an [int] as its decimal numeral. *)
Definition sample_locale (z : Z) : string := pretty z.

(** A remote lookup that finds nothing, and the parse of its replies. *)
Definition no_nodes (id : string) : string := "".
Definition no_json (bytes : string) : option QJsonValue := None.

Definition component_node (id name : string) : QJsonValue :=
  JObject [("id", JString id); ("name", JString name); ("type", JString "COMPONENT")].

Definition component_entry (name key : string) : QJsonValue :=
  JObject [("description", JString ""); ("key", JString key); ("name", JString name)].

Definition document_of (nodes : list QJsonValue) : QJsonValue :=
  JObject [("children",
            JArray [JObject [("children", JArray nodes); ("id", JString "0:1");
                             ("name", JString "Page 1"); ("type", JString "CANVAS")]]);
           ("id", JString "0:0"); ("type", JString "DOCUMENT")].

(** Two components with the same raw name, both with an inline body. *)
Definition project_same_names : QJsonObject :=
  [("components", JObject [("1:1", component_entry "Button" "k1");
                           ("2:2", component_entry "Button" "k2")]);
   ("document", document_of [component_node "1:1" "Button"; component_node "2:2" "Button"]);
   ("name", JString "demo")].

(** Two components whose raw name holds a place marker. *)
Definition project_percent_names : QJsonObject :=
  [("components", JObject [("1:1", component_entry "a%1b" "k1");
                           ("2:2", component_entry "a%1b" "k2")]);
   ("document", document_of [component_node "1:1" "a%1b"; component_node "2:2" "a%1b"]);
   ("name", JString "demo")].

(** Two components; the body of the second one is not in the document. *)
Definition project_missing_body : QJsonObject :=
  [("components", JObject [("1:1", component_entry "Button" "k1");
                           ("2:2", component_entry "Label" "k2")]);
   ("document", document_of [component_node "1:1" "Button"]);
   ("name", JString "demo")].

(** An image provider with no image, and the identity font resolver. *)
Definition no_image (image : string) (isRendering : bool) : string := "".
Definition same_font (family : string) : string := family.

Definition num (z : Z) : QJsonValue := JDouble (of_int z).

Definition solid (r g b a : Z) : QJsonValue :=
  JObject [("color", JObject [("a", num a); ("b", num b); ("g", num g); ("r", num r)])].

(** A red rectangle of 100 by 50 without stroke. *)
Definition red_rectangle : QJsonObject :=
  [("fills", JArray [solid 1 0 0 1]); ("id", JString "1:2"); ("name", JString "box");
   ("size", JObject [("x", num 100); ("y", num 50)]); ("type", JString "RECTANGLE")].

(** An image provider that answers every request, and a parser object. *)
Definition some_image (image : string) (isRendering : bool) : string := "data:" +:+ image.

Definition sample_parser (flags : Z) (components : Components) : FigmaParser :=
  {| m_flags := flags; mImageProvider := some_image; mResolveFont := same_font;
     m_components := components |}.

(** The red rectangle with a black stroke of weight 2 and an alignment. *)
Definition stroked_rectangle (strokeAlign : string) : QJsonObject :=
  [("fills", JArray [solid 1 0 0 1]); ("id", JString "1:2"); ("name", JString "box");
   ("size", JObject [("x", num 100); ("y", num 50)]);
   ("strokeAlign", JString strokeAlign); ("strokeWeight", num 2);
   ("strokes", JArray [solid 0 0 0 1]); ("type", JString "RECTANGLE")].

(** A line with a black stroke of weight 1, and a rectangle whose strokes
    and fills are the strings of shared styles. *)
Definition black_line : QJsonObject :=
  [("id", JString "1:4"); ("name", JString "rule");
   ("size", JObject [("x", num 100); ("y", num 0)]); ("strokeWeight", num 1);
   ("strokes", JArray [solid 0 0 0 1]); ("type", JString "LINE")].

Definition styled_rectangle : QJsonObject :=
  [("fills", JString "S:1"); ("id", JString "1:5"); ("name", JString "box");
   ("size", JObject [("x", num 100); ("y", num 50)]); ("strokes", JString "S:2");
   ("type", JString "RECTANGLE")].

(** A rectangle filled with an image, its stroke centred. *)
Definition image_rectangle : QJsonObject :=
  [("fills", JArray [JObject [("imageRef", JString "img1")]]); ("id", JString "1:3");
   ("name", JString "photo"); ("size", JObject [("x", num 100); ("y", num 50)]);
   ("strokeAlign", JString "CENTER"); ("strokeWeight", num 2);
   ("strokes", JArray [solid 0 0 0 1]); ("type", JString "RECTANGLE")].

(** The numbers of shape-path blocks and of opacity masks in the output of a
    method. *)
Definition blocks (r : outcome (string * members)) : option (nat * nat) :=
  match r with
  | Ok (out, _) => Some (occurrences "ShapePath {" out, occurrences "OpacityMask {" out)
  | _ => None
  end.

(** The members of a parser object that has not parsed anything yet. *)
Definition no_members : members := {| m_componentIds := ∅; m_parent := [] |}.

(** A node of a type that the parser does not know. *)
Definition unknown_node : QJsonObject :=
  [("id", JString "9:9"); ("name", JString "thing"); ("type", JString "UNKNOWN_TYPE")].

(** A boolean node with an operation the parser does not compose. *)
Definition boolean_node (operation : string) (children : list QJsonValue) : QJsonObject :=
  [("booleanOperation", JString operation); ("children", JArray children);
   ("id", JString "3:1"); ("name", JString "shape"); ("type", JString "BOOLEAN_OPERATION")].

Definition slice_node : QJsonObject :=
  [("id", JString "4:1"); ("name", JString "export"); ("type", JString "SLICE")].

(** A rectangle child with an identifier and a size, possibly a mask. *)
Definition tile (id : string) (w h : Z) (isMask : bool) : QJsonValue :=
  JObject ([("fills", JArray [solid 1 0 0 1]); ("id", JString id)]
           ++ (if isMask then [("isMask", JBool true)] else [])
           ++ [("name", JString "tile"); ("size", JObject [("x", num w); ("y", num h)]);
               ("type", JString "RECTANGLE")]).

(** A component with two children, and an instance of it whose second child
    differs in size only; the first child of both may be a mask. *)
Definition card_component (isMask : bool) : QJsonObject :=
  [("children", JArray [tile "1:1" 100 50 isMask; tile "1:2" 10 10 false]);
   ("id", JString "5:0"); ("name", JString "Card"); ("type", JString "COMPONENT")].

Definition card_instance (isMask : bool) : QJsonObject :=
  [("children", JArray [tile "I6:0;1:1" 100 50 isMask; tile "I6:0;1:2" 20 20 false]);
   ("componentId", JString "5:0"); ("id", JString "6:0"); ("name", JString "Card");
   ("type", JString "INSTANCE")].

(** A frame whose second child is a mask. *)
Definition masked_frame : QJsonObject :=
  [("children", JArray [tile "2:1" 11 11 false; tile "2:2" 22 22 true;
                        tile "2:3" 33 33 false]);
   ("id", JString "2:0"); ("name", JString "group"); ("type", JString "FRAME")].

(** The catalogue and the issues of a run of [components], as lists. *)
Definition listing (r : option (Components * list issue))
    : option (list (string * string) * list issue) :=
  match r with
  | Some (map, issues) => Some (map_to_list (Component.m_name <$> map), issues)
  | None => None
  end.

(** The catalogue that holds the component of the card. *)
Definition card_catalogue : Components :=
  {[ "5:0" := Component.Component "Card_figma" "5:0" "k5" "" (card_component false) ]}.

(** A parser object whose image provider has no image at all. *)
Definition blind_parser : FigmaParser :=
  {| m_flags := 0; mImageProvider := no_image; mResolveFont := same_font;
     m_components := ∅ |}.

(** The style of a text whose decoration is none of the known ones. *)
Definition label_style : QJsonObject :=
  [("fontFamily", JString "Inter"); ("fontSize", num 12); ("fontWeight", num 400);
   ("letterSpacing", num 0); ("textAlignHorizontal", JString "LEFT");
   ("textAlignVertical", JString "TOP"); ("textDecoration", JString "NONE")].

(** The output and the members of a run, with defaults where it failed. *)
Definition output {A : Type} (r : outcome (A * members)) (d : A) : A :=
  match r with Ok (a, _) => a | _ => d end.
Definition members_of {A : Type} (r : outcome (A * members)) : members :=
  match r with Ok (_, st) => st | _ => no_members end.

(** * The parser *)

Section FigmaParser.

(** The build: [true] when [Q_ASSERT] is compiled in. *)
Variable QT_DEBUG : bool.
(** [QString::number(double)] and [QString::arg(double)]. *)
Variable number : float → string.
(** [QJsonDocument::fromJson]: [None] on a parse error. *)
Variable fromJson : string → option QJsonValue.
(** [QLocale().toString(int)]: the text of an [int] in the default locale,
    which [QString::arg(int)] writes for the place markers with the letter
    L. *)
Variable localized : Z → string.

(** ** Name sanitizer *)

(** [static QString validFileName(const QString& itemName)] *)
Definition validFileName (itemName : string) : outcome string :=
  if isEmpty itemName then Ok ""
  else
    Q_ASSERT QT_DEBUG (negb (endsWith itemName FIGMA_SUFFIX));;
    let name := itemName +:+ FIGMA_SUFFIX in
    let name := replace_class re_reserved "_" name in
    let name := replace_class re_nonword "_" name in
    let name :=
      if negb (isLower (at0 name) || isUpper (at0 name))
      then insert0 "C" name else name in
    let name := replace01 (toUpper (at0 name)) name in
    Ok name.

(** [QString Component::name() const]: the assertion is evaluated in a debug
    build only. *)
Definition Component_name (c : Component.t) : outcome string :=
  (if QT_DEBUG then
     if endsWith (Component.m_name c) FIGMA_SUFFIX then Ok tt
     else
       v ← validFileName (Component.m_name c);
       Q_ASSERT QT_DEBUG (String.eqb v (Component.m_name c))
   else Ok tt);;
  Ok (Component.m_name c).

(** [static QByteArray qmlId(const QString& id)] *)
Definition qmlId (id : string) : string :=
  "figma_" +:+ smap toLower (replace_class re_nonalnum "_" id).

(** [QString delegateName(const QString& id)] *)
Definition delegateName (id : string) : string :=
  "delegate_" +:+ replace_char ":" "_" id.

(** ** Component catalogue *)

Fixpoint getObjectsByType_fuel (fuel : nat) (obj : QJsonObject) (type : string)
    : gmap string QJsonObject :=
  match fuel with
  | O => ∅
  | S fuel =>
      if is_str (jvalue obj "type") type then
        {[ toString (jvalue obj "id") := obj ]}
      else if jcontains obj "children" then
        let children := toArray (jvalue obj "children") in
        foldl (λ objects child,
                 let childrenobjects := getObjectsByType_fuel fuel (toObject child) type in
                 childrenobjects ∪ objects)
              ∅ children
      else ∅
  end.

(** [static QHash<QString, QJsonObject> getObjectsByType(obj, type)]: the
    descent is bounded by the depth of [obj]. *)
Definition getObjectsByType (obj : QJsonObject) (type : string) : gmap string QJsonObject :=
  getObjectsByType_fuel (depth (JObject obj)) obj type.

(** [std::find_if(map.begin(), map.end(), ...) != map.end()] with the
    predicate [c->name() == uniqueComponentName]. *)
Fixpoint name_taken (cs : list Component.t) (uniqueComponentName : string) : outcome bool :=
  match cs with
  | [] => Ok false
  | c :: r =>
      n ← Component_name c;
      if String.eqb n uniqueComponentName then Ok true
      else name_taken r uniqueComponentName
  end.

(** [QString("%1_%2").arg(componentName).arg(count)]: the second [arg]
    reads the place markers of the raw name as well. *)
Definition numbered (componentName : string) (count : Z) : string :=
  arg_int localized (arg_string "%1_%2" componentName) count.

(** The [while] loop of [components]: one unit of [fuel] per test of its
    condition.  The numbered names of a raw name without a place marker
    with the letter L differ from each other, so that one more test than
    there are components registered finds a free name
    ([uniqueName_loop_returns]). *)
Fixpoint uniqueName_loop (fuel : nat) (map : Components) (componentName : string)
    (uniqueComponentName : string) (count : Z) : outcome string :=
  match fuel with
  | O => Crash
  | S fuel =>
      taken ← name_taken (map_to_list map).*2 uniqueComponentName;
      if taken : bool then
        uniqueComponentName ← validFileName (numbered componentName count);
        uniqueName_loop fuel map componentName uniqueComponentName (count + 1)
      else Ok uniqueComponentName
  end.

(** The body of the [for] loop of [components]. *)
Definition registerComponent (nodes : string → string) (components : QJsonObject)
    (key : string) (st : gmap string QJsonObject * Components)
    : outcome (gmap string QJsonObject * Components) :=
  let '(componentObjects, map) := st in
  componentObjects ←
    (if negb (bool_decide (is_Some (componentObjects !! key))) then
       let response := nodes key in
       if isEmpty response then
         ERR [toStr ["Component not found"; key; "for"]]
       else
         let doc := fromJson response in
         let obj := toObject (default JUndefined doc) in
         if bool_decide (is_Some doc) then
           let receivedObjects :=
             getObjectsByType
               (toObject (jvalue (toObject (jvalue (toObject (jvalue obj "nodes")) key))
                                 "document"))
               "COMPONENT" in
           match receivedObjects !! key with
           | None => ERR [toStr ["Unrecognized component"; key]]
           | Some received => Ok (<[key := received]> componentObjects)
           end
         else ERR [toStr ["Invalid component"; key]]
     else Ok componentObjects);
  let c := toObject (jvalue components key) in
  let componentName := toString (jvalue c "name") in
  uniqueComponentName ← validFileName componentName;
  uniqueComponentName ←
    uniqueName_loop (S (S (base.size map))) map componentName uniqueComponentName 1;
  Ok (componentObjects,
      <[key := Component.Component
                 uniqueComponentName
                 key
                 (toString (jvalue c "key"))
                 (toString (jvalue c "description"))
                 (default [] (componentObjects !! key))]> map).

(** The [for] loop inside the [try] block: the catalogue [map] is declared
    outside the block, so it keeps the components registered before a
    failure. *)
Fixpoint registerAll (nodes : string → string) (components : QJsonObject)
    (keys : list string) (st : gmap string QJsonObject * Components)
    : (gmap string QJsonObject * Components) * outcome unit :=
  match keys with
  | [] => (st, Ok tt)
  | key :: rest =>
      match registerComponent nodes components key st with
      | Ok st' => registerAll nodes components rest st'
      | Throw w => (st, Throw w)
      | Crash => (st, Crash)
      end
  end.

(** [static Components components(project, err, nodes)]: the result and the
    calls of [err]; [None] when the process ended in a failed assertion. *)
Definition components (project : QJsonObject) (nodes : string → string)
    : option (Components * list issue) :=
  let componentObjects := getObjectsByType (toObject (jvalue project "document")) "COMPONENT" in
  let components := toObject (jvalue project "components") in
  match registerAll nodes components (jkeys components) (componentObjects, ∅) with
  | ((_, map), Ok _) => Some (map, [])
  | ((_, map), Throw what) => Some (map, [(what, true)])
  | (_, Crash) => None
  end.

(** [static QString name(const QJsonObject& project)] *)
Definition name (project : QJsonObject) : string :=
  toString (jvalue project "name").

(** ** The methods of a parser object *)

Section Methods.

Variable this : FigmaParser.

(** [const QString m_intendent] and [QString tabs(int intendents) const] *)
Definition m_intendent : string := "    ".
Definition tabs (intendents : Z) : string := repeated m_intendent intendents.

(** [static ItemType type(const QJsonObject& obj)] *)
Definition types : list (string * ItemType) :=
  [("RECTANGLE", Vector); ("TEXT", Text); ("COMPONENT", Component_);
   ("BOOLEAN_OPERATION", Boolean); ("INSTANCE", Instance); ("ELLIPSE", Vector);
   ("VECTOR", Vector); ("LINE", Vector); ("REGULAR_POLYGON", Vector); ("STAR", Vector);
   ("GROUP", Frame); ("FRAME", Frame); ("SLICE", None_); ("NONE", None_)].

Definition itemType (obj : QJsonObject) : outcome ItemType :=
  let type := toString (jvalue obj "type") in
  match assoc types type with
  | None => ERR ["Non supported object type:" +:+ dq +:+ type +:+ dq]
  | Some t => Ok t
  end.

(** [QJsonValue getValue(obj, key) const]: every nested call follows a
    component reference; when [fuel] runs out the references form a cycle,
    on which the recursion never returns. *)
Fixpoint getValue_fuel (fuel : nat) (obj : QJsonObject) (key : string) : outcome QJsonValue :=
  match fuel with
  | O => Crash
  | S fuel =>
      if jcontains obj key then Ok (jvalue obj key)
      else
        t ← itemType obj;
        if bool_decide (t = Instance) then
          match m_components this !! toString (jvalue obj "componentId") with
          | Some c => getValue_fuel fuel (Component.object c) key
          | None => Crash
          end
        else Ok JNull
  end.

Definition getValue (obj : QJsonObject) (key : string) : outcome QJsonValue :=
  getValue_fuel (S (base.size (m_components this))) obj key.

(** [static QByteArray toColor(double r, double g, double b, double a = 1.0)] *)
Definition toColor (r g b a : float) : string :=
  dq +:+ "#"
  +:+ hex2 (to_unsigned (round (PrimFloat.mul a 255)))
  +:+ hex2 (to_unsigned (round (PrimFloat.mul r 255)))
  +:+ hex2 (to_unsigned (round (PrimFloat.mul g 255)))
  +:+ hex2 (to_unsigned (round (PrimFloat.mul b 255)))
  +:+ dq.

(** [QByteArray makeComponentInstance(type, obj, intendents)] *)
Definition makeComponentInstance (type : string) (obj : QJsonObject) (intendents : Z)
    : outcome string :=
  let intendent := tabs (intendents - 1) in
  let intendent1 := tabs intendents in
  Q_ASSERT QT_DEBUG (jcontains obj "type" && jcontains obj "id");;
  Ok (cat [
    intendent +:+ type +:+ " {" +:+ nl;
    intendent1 +:+ "id: " +:+ qmlId (toString (jvalue obj "id")) +:+ nl;
    intendent1 +:+ "objectName:" +:+ dq
      +:+ replace_char "034" (bs +:+ dq) (toString (jvalue obj "name")) +:+ dq +:+ nl ]).

(** [QByteArray makeEffects(obj, intendents)]: only the first effect. *)
Definition makeEffects (obj : QJsonObject) (intendents : Z) : string :=
  if jcontains obj "effects" then
    let effects := toArray (jvalue obj "effects") in
    if negb (bool_decide (effects = [])) then
      let intendent := tabs intendents in
      let intendent1 := tabs (intendents + 1) in
      let e := at_ effects 0 in
      let effect := toObject e in
      if is_str (jvalue effect "type") "INNER_SHADOW"
         || is_str (jvalue effect "type") "DROP_SHADOW" then
        let color := toObject (member e "color") in
        let radius := toDouble (member e "radius") in
        let offset := toObject (member e "offset") in
        cat [
          tabs intendents +:+ "layer.enabled:true" +:+ nl;
          tabs intendents +:+ "layer.effect: DropShadow {" +:+ nl;
          (if is_str (jvalue effect "type") "INNER_SHADOW" then
             intendent1 +:+ "horizontalOffset: "
               +:+ number (PrimFloat.opp (toDouble (jvalue offset "x"))) +:+ nl
             +:+ intendent1 +:+ "verticalOffset: "
               +:+ number (PrimFloat.opp (toDouble (jvalue offset "y"))) +:+ nl
           else
             intendent1 +:+ "horizontalOffset: " +:+ number (toDouble (jvalue offset "x")) +:+ nl
             +:+ intendent1 +:+ "verticalOffset: " +:+ number (toDouble (jvalue offset "y")) +:+ nl);
          intendent1 +:+ "radius: " +:+ number radius +:+ nl;
          intendent1 +:+ "samples: 17" +:+ nl;
          intendent1 +:+ "color: "
            +:+ toColor (toDouble (jvalue color "r")) (toDouble (jvalue color "g"))
                        (toDouble (jvalue color "b")) (toDouble (jvalue color "a")) +:+ nl;
          intendent +:+ "}" +:+ nl ]
      else ""
    else ""
  else "".

(** [QByteArray makeTransforms(obj, intendents)]: the matrix is written only
    when its linear part is not the identity. *)
Definition makeTransforms (obj : QJsonObject) (intendents : Z) : string :=
  if jcontains obj "relativeTransform" then
    let rows := toArray (jvalue obj "relativeTransform") in
    let row1 := toArray (at_ rows 0) in
    let row2 := toArray (at_ rows 1) in
    let intendent := tabs (intendents + 1) in
    let r1 := (toDouble (at_ row1 0), toDouble (at_ row1 1), toDouble (at_ row1 2)) in
    let r2 := (toDouble (at_ row2 0), toDouble (at_ row2 1), toDouble (at_ row2 2)) in
    if negb (eq_double r1.1.1 1) || negb (eq_double r1.1.2 0)
       || negb (eq_double r2.1.1 0) || negb (eq_double r2.1.2 1) then
      cat [
        tabs intendents +:+ "transform: Matrix4x4 {" +:+ nl;
        intendent +:+ "matrix: Qt.matrix4x4(" +:+ nl;
        intendent +:+ number r1.1.1 +:+ ", " +:+ number r1.1.2 +:+ ", " +:+ number r1.2
          +:+ ", 0," +:+ nl;
        intendent +:+ number r2.1.1 +:+ ", " +:+ number r2.1.2 +:+ ", " +:+ number r2.2
          +:+ ", 0," +:+ nl;
        intendent +:+ "0, 0, 1, 0," +:+ nl;
        intendent +:+ "0, 0, 0, 1)" +:+ nl;
        tabs intendents +:+ "}" +:+ nl ]
    else ""
  else "".

(** [QByteArray makeItem(type, obj, intendents)] *)
Definition makeItem (type : string) (obj : QJsonObject) (intendents : Z) : outcome string :=
  let intendent1 := tabs intendents in
  instance ← makeComponentInstance type obj intendents;
  Ok (cat [
    instance;
    makeEffects obj intendents;
    makeTransforms obj intendents;
    (if jcontains obj "visible" && negb (toBool (jvalue obj "visible"))
     then intendent1 +:+ "visible: false" +:+ nl else "");
    (if jcontains obj "opacity"
     then intendent1 +:+ "opacity: " +:+ number (toDouble (jvalue obj "opacity")) +:+ nl
     else "") ]).

(** [QPointF position(const QJsonObject& obj) const] *)
Definition position (obj : QJsonObject) : float * float :=
  let rows := toArray (jvalue obj "relativeTransform") in
  let row1 := toArray (at_ rows 0) in
  let row2 := toArray (at_ rows 1) in
  (toDouble (at_ row1 2), toDouble (at_ row2 2)).

(** One axis of [makeExtents]: a fixed offset, or an offset bound to the
    size of the parent for the constraint CENTER.  [axis] is x or y, [dim]
    is width or height. *)
Definition makeExtents_axis (obj : QJsonObject) (intendent : string)
    (constraint : string) (fixed : list string) (axis dim : string) (t : Z)
    : method string := λ st,
  if bool_decide (constraint ∈ fixed) then
    Ok (intendent +:+ axis +:+ ":" +:+ number_int t +:+ nl, st)
  else if String.eqb constraint "CENTER" then
    let parentSize := toDouble (jvalue (toObject (jvalue (m_parent st) "size")) axis) in
    let id := qmlId (toString (jvalue (m_parent st) "id")) in
    match getValue obj "size" with
    | Ok size =>
        let extent := toDouble (jvalue (toObject size) axis) in
        let static :=
          PrimFloat.sub (PrimFloat.div (PrimFloat.sub parentSize extent) 2) (of_int t) in
        if eq_double static 0 then
          Ok (intendent +:+ axis +:+ ": (" +:+ id +:+ "." +:+ dim +:+ " - " +:+ dim
                +:+ ") / 2" +:+ nl, st)
        else
          Ok (intendent +:+ axis +:+ ": (" +:+ id +:+ "." +:+ dim +:+ " - " +:+ dim
                +:+ ") / 2 " +:+ (if PrimFloat.ltb static 0 then "+" else "-")
                +:+ " " +:+ number (PrimFloat.abs static) +:+ nl, st)
    | Throw w => Throw w
    | Crash => Crash
    end
  else Ok ("", st).

(** [QByteArray makeExtents(obj, intendents, extents = QRectF{0, 0, 0, 0})] *)
Definition makeExtents (obj : QJsonObject) (intendents : Z) (extents : QRectF)
    : method string :=
  let intendent := tabs intendents in
  let constraints := toObject (jvalue obj "constraints") in
  let vertical :=
    if jcontains obj "constraints" then toString (jvalue constraints "vertical") else "TOP" in
  let horizontal :=
    if jcontains obj "constraints" then toString (jvalue constraints "horizontal") else "LEFT" in
  place ←
    (if jcontains obj "relativeTransform" then
       let p := position obj in
       let tx := truncate (PrimFloat.add p.1 (rx extents)) in
       let ty := truncate (PrimFloat.add p.2 (ry extents)) in
       h ← makeExtents_axis obj intendent horizontal
              ["LEFT"; "SCALE"; "LEFT_RIGHT"; "RIGHT"] "x" "width" tx;
       v ← makeExtents_axis obj intendent vertical
              ["TOP"; "SCALE"; "TOP_BOTTOM"; "BOTTOM"] "y" "height" ty;
       mret (h +:+ v)
     else mret "");
  mret (place +:+
    (if jcontains obj "size" then
       let vec := jvalue obj "size" in
       let width := toDouble (member vec "x") in
       let height := toDouble (member vec "y") in
       intendent +:+ "width:" +:+ number (PrimFloat.add width (rwidth extents)) +:+ nl
       +:+ intendent +:+ "height:" +:+ number (PrimFloat.add height (rheight extents)) +:+ nl
     else "")).

(** [QByteArray makeSize(obj, intendents, extents = QSizeF{0, 0})] *)
Definition makeSize (obj : QJsonObject) (intendents : Z) (extents : float * float) : string :=
  let intendent := tabs intendents in
  let s := toObject (jvalue obj "size") in
  let width := PrimFloat.add (toDouble (jvalue s "x")) extents.1 in
  let height := PrimFloat.add (toDouble (jvalue s "y")) extents.2 in
  intendent +:+ "width:" +:+ number width +:+ nl
  +:+ intendent +:+ "height:" +:+ number height +:+ nl.

(** [QByteArray makeColor(obj, intendents, opacity = 1.)] *)
Definition makeColor (obj : QJsonObject) (intendents : Z) (opacity : float) : string :=
  let intendent := tabs intendents in
  intendent +:+ "color:"
  +:+ toColor (toDouble (jvalue obj "r")) (toDouble (jvalue obj "g"))
              (toDouble (jvalue obj "b"))
              (PrimFloat.mul (toDouble (jvalue obj "a")) opacity)
  +:+ nl.

(** The loop of [makeImageSource] that breaks the image text every 1024
    bytes; [fuel] bounds its iterations by the length of the text. *)
Fixpoint break_source (fuel : nat) (pos : nat) (imageData : string) : string :=
  match fuel with
  | O => imageData
  | S fuel =>
      if (pos <? String.length imageData)%nat then
        break_source fuel (pos + 1024)
          (insert_at pos (dq +:+ " +" +:+ nl +:+ " " +:+ dq) imageData)
      else imageData
  end.

(** [QByteArray makeImageSource(image, isRendering, intendents,
    placeHolder = QString())] *)
Definition makeImageSource (image : string) (isRendering : bool) (intendents : Z)
    (placeHolder : string) : outcome string :=
  let imageData := mImageProvider this image isRendering in
  '(out, imageData) ←
    (if isEmpty imageData then
       if isEmpty placeHolder then ERR ["Cannot read imageRef"; image]
       else
         let imageData := mImageProvider this placeHolder isRendering in
         if isEmpty imageData then ERR ["Cannot load placeholder"]
         else Ok (tabs intendents +:+ "//Image load failed, placeholder" +:+ nl
                  +:+ tabs intendents
                  +:+ "sourceSize: Qt.size(parent.width, parent.height)" +:+ nl,
                  imageData)
     else Ok ("", imageData));
  let imageData := break_source (String.length imageData) 1024 imageData in
  Ok (out +:+ tabs intendents +:+ "source: " +:+ dq +:+ imageData +:+ dq +:+ nl).

(** [QByteArray makeImageRef(image, intendents)] *)
Definition makeImageRef (image : string) (intendents : Z) : outcome string :=
  let intendent := tabs (intendents + 1) in
  source ← makeImageSource image false (intendents + 1) "";
  Ok (cat [
    tabs intendents +:+ "Image {" +:+ nl;
    intendent +:+ "anchors.fill: parent" +:+ nl;
    intendent +:+ "mipmap: true" +:+ nl;
    intendent +:+ "fillMode: Image.PreserveAspectCrop" +:+ nl;
    source;
    tabs intendents +:+ "}" +:+ nl ]).

(** [QByteArray makeFill(obj, intendents)] *)
Definition makeFill (obj : QJsonObject) (intendents : Z) : outcome string :=
  let invisible := jcontains obj "visible" && negb (toBool (jvalue obj "visible")) in
  let out :=
    if jcontains obj "color" then
      let color := toObject (jvalue obj "color") in
      if negb invisible && jcontains obj "opacity" then
        makeColor color intendents (toDouble (jvalue obj "opacity"))
      else makeColor color intendents (if invisible then 0 else 1)
    else tabs intendents +:+ "color: " +:+ dq +:+ "transparent" +:+ dq +:+ nl in
  if jcontains obj "imageRef" then
    ref ← makeImageRef (toString (jvalue obj "imageRef")) (intendents + 1);
    Ok (out +:+ ref)
  else Ok out.

(** The fill of [makeVector] and of the boolean compositions: the first
    entry of [fills], transparent when the list is empty and no text. *)
Definition makeFirstFill (obj : QJsonObject) (intendents : Z) (transparent : string)
    : outcome string :=
  let fills := toArray (jvalue obj "fills") in
  if 0 <? qsize fills then makeFill (toObject (at_ fills 0)) intendents
  else if negb (isString (jvalue obj "fills")) then
    Ok (transparent +:+ "color: " +:+ dq +:+ "transparent" +:+ dq +:+ nl)
  else Ok "".

(** [QByteArray makeVector(obj, intendents)] *)
Definition makeVector (obj : QJsonObject) (intendents : Z) : method string :=
  extents ← makeExtents obj intendents QRectF_zero;
  fill ← lift (makeFirstFill obj intendents (tabs intendents));
  mret (extents +:+ fill).

(** [static QByteArray fontWeight(double v)] *)
Definition weights : list (string * float) :=
  [("Font.Thin", 0); ("Font.ExtraLight", 12); ("Font.Light", 25); ("Font.Normal", 50);
   ("Font.Medium", 57); ("Font.DemiBold", 63); ("Font.Bold", 75); ("Font.ExtraBold", 81);
   ("Font.Black", 87)]%float.

Definition fontWeight (v : float) : string :=
  let scaled := PrimFloat.mul (PrimFloat.div (PrimFloat.sub v 100) 900) 90 in
  match list_find (λ nw, PrimFloat.leb scaled nw.2 = true) weights with
  | Some (_, (n, _)) => n
  | None => "Font.Black"
  end.

(** [QByteArray makeStrokeJoin(stroke, intendent)] *)
Definition joins : list (string * string) :=
  [("MITER", "MiterJoin"); ("BEVEL", "MiterBevel"); ("ROUND", "MiterRound")].

Definition makeStrokeJoin (stroke : QJsonObject) (intendent : Z) : string :=
  if jcontains stroke "strokeJoin" then
    tabs intendent +:+ "joinStyle: ShapePath."
    +:+ default "" (assoc joins (toString (jvalue stroke "strokeJoin"))) +:+ nl
  else tabs intendent +:+ "joinStyle: ShapePath.MiterJoin" +:+ nl.

(** [QByteArray makeShapeStroke(obj, intendents, type = StrokeType::Normal)] *)
Definition makeShapeStroke (obj : QJsonObject) (intendents : Z) (type : StrokeType) : string :=
  let intendent := tabs intendents in
  let colorType := if is_str (jvalue obj "type") "LINE" then "fillColor" else "strokeColor" in
  (if jcontains obj "strokes" && negb (bool_decide (toArray (jvalue obj "strokes") = [])) then
     let stroke := toObject (at_ (toArray (jvalue obj "strokes")) 0) in
     let opacity :=
       if jcontains stroke "opacity" then toDouble (jvalue stroke "opacity") else 1%float in
     let color := toObject (jvalue stroke "color") in
     makeStrokeJoin stroke intendents
     +:+ intendent +:+ colorType +:+ ": "
     +:+ toColor (toDouble (jvalue color "r")) (toDouble (jvalue color "g"))
                 (toDouble (jvalue color "b"))
                 (PrimFloat.mul (toDouble (jvalue color "a")) opacity) +:+ nl
   else if negb (isString (jvalue obj "strokes")) then
     intendent +:+ colorType +:+ ": " +:+ dq +:+ "transparent" +:+ dq +:+ nl
   else "")
  +:+
  (if jcontains obj "strokeWeight" then
     let val :=
       if bool_decide (type ≠ OnePix) then
         let val := toDouble (jvalue obj "strokeWeight") in
         if bool_decide (type = Double) then PrimFloat.mul val 2 else val
       else 1%float in
     intendent +:+ "strokeWidth:" +:+ number val +:+ nl
   else "").

(** [QByteArray makeShapeFill(obj, intendents)] *)
Definition makeShapeFill (obj : QJsonObject) (intendents : Z) : string :=
  let intendent := tabs intendents in
  (if negb (is_str (jvalue obj "type") "LINE") then
     if jcontains obj "fills" && negb (bool_decide (toArray (jvalue obj "fills") = [])) then
       let fills := toArray (jvalue obj "fills") in
       let fill := toObject (at_ fills 0) in
       let opacity :=
         if jcontains fill "opacity" then toDouble (jvalue fill "opacity") else 1%float in
       let color := toObject (jvalue fill "color") in
       intendent +:+ "fillColor:"
       +:+ toColor (toDouble (jvalue color "r")) (toDouble (jvalue color "g"))
                   (toDouble (jvalue color "b"))
                   (PrimFloat.mul (toDouble (jvalue color "a")) opacity) +:+ nl
     else if negb (isString (jvalue obj "fills")) then
       intendent +:+ "fillColor:" +:+ dq +:+ "transparent" +:+ dq +:+ nl
     else ""
   else intendent +:+ "strokeColor: " +:+ dq +:+ "transparent" +:+ dq +:+ nl)
  +:+ intendent +:+ "id: svgpath_" +:+ qmlId (toString (jvalue obj "id")) +:+ nl.

(** [QByteArray makeSvgPath(index, isFill, obj, intendents)] *)
Definition makeSvgPath (index : Z) (isFill : bool) (obj : QJsonObject) (intendents : Z) : string :=
  let intendent := tabs intendents in
  let intendent1 := tabs (intendents + 1) in
  let array :=
    if isFill then toArray (jvalue obj "fillGeometry")
    else toArray (jvalue obj "strokeGeometry") in
  let path := toObject (at_ array index) in
  (if (index =? 0) && is_str (jvalue path "windingRule") "NONZERO" then
     intendent +:+ "fillRule: ShapePath.WindingFill" +:+ nl
   else "")
  +:+ intendent +:+ "PathSvg {" +:+ nl
  +:+ intendent1 +:+ "path: " +:+ dq +:+ toString (jvalue path "path") +:+ dq +:+ nl
  +:+ intendent +:+ "} " +:+ nl.

(** [bool isGradient(const QJsonObject& obj) const] *)
Definition isGradient (obj : QJsonObject) : bool :=
  if jcontains obj "fills" then
    existsb (λ f, jcontains (toObject f) "gradientHandlePositions")
            (toArray (jvalue obj "fills"))
  else false.

(** [std::optional<QString> imageFill(const QJsonObject& obj) const] *)
Definition imageFill (obj : QJsonObject) : option string :=
  if jcontains obj "fills" then
    let fills := toArray (jvalue obj "fills") in
    if 0 <? qsize fills then
      let fill := toObject (at_ fills 0) in
      if jcontains fill "imageRef" then Some (toString (jvalue fill "imageRef"))
      else None
    else None
  else None.

(** [QByteArray makeShapeFillData(obj, shapeIntendents)] *)
Definition makeShapeFillData (obj : QJsonObject) (shapeIntendents : Z) : string :=
  if negb (bool_decide (toArray (jvalue obj "fillGeometry") = [])) then
    cat ((λ i, makeSvgPath i true obj shapeIntendents)
           <$> seqZ 0 (qsize (toArray (jvalue obj "fillGeometry"))))
  else if negb (bool_decide (toArray (jvalue obj "strokeGeometry") = [])) then
    cat ((λ i, makeSvgPath i false obj shapeIntendents)
           <$> seqZ 0 (qsize (toArray (jvalue obj "strokeGeometry"))))
  else "".

(** [QByteArray makeImageMaskData(imageRef, obj, intendents, sourceId,
    maskSourceId)] *)
Definition makeImageMaskData (imageRef : string) (obj : QJsonObject) (intendents : Z)
    (sourceId maskSourceId : string) : outcome string :=
  let intendent := tabs intendents in
  let intendent1 := tabs (intendents + 1) in
  source ← makeImageSource imageRef false (intendents + 1) "";
  Ok (cat [
    intendent +:+ "OpacityMask {" +:+ nl;
    intendent1 +:+ "anchors.fill:parent" +:+ nl;
    intendent1 +:+ "source: " +:+ sourceId +:+ nl;
    intendent1 +:+ "maskSource: " +:+ maskSourceId +:+ nl;
    intendent +:+ "}" +:+ nl;
    intendent +:+ "Image {" +:+ nl;
    intendent1 +:+ "id: " +:+ sourceId +:+ nl;
    intendent1 +:+ "layer.enabled: true" +:+ nl;
    intendent1 +:+ "fillMode: Image.PreserveAspectCrop" +:+ nl;
    intendent1 +:+ "visible: false" +:+ nl;
    intendent1 +:+ "mipmap: true" +:+ nl;
    intendent1 +:+ "anchors.fill:parent" +:+ nl;
    source;
    intendent +:+ "}" +:+ nl;
    intendent +:+ "Shape {" +:+ nl;
    intendent1 +:+ "id: " +:+ maskSourceId +:+ nl;
    intendent1 +:+ "anchors.fill: parent" +:+ nl;
    intendent1 +:+ "layer.enabled: true" +:+ nl;
    intendent1 +:+ "visible: false" +:+ nl;
    intendent1 +:+ "ShapePath {" +:+ nl;
    makeShapeStroke obj (intendents + 2) Normal;
    tabs (intendents + 2) +:+ "fillColor:" +:+ dq +:+ "black" +:+ dq +:+ nl;
    makeShapeFillData obj (intendents + 2);
    intendent1 +:+ "}" +:+ nl;
    intendent +:+ "}" +:+ nl ]).

(** [QByteArray makeAntialising(int intendents) const] *)
Definition makeAntialising (intendents : Z) : string :=
  if has_flag (m_flags this) AntializeShapes
  then tabs intendents +:+ "antialiasing: true" +:+ nl else "".

(** *** Stroke and fill strategies

    One emitter per stroke alignment and per kind of fill. *)

(** [QByteArray makeVectorNormalFill(obj, intendents)] *)
Definition makeVectorNormalFill (obj : QJsonObject) (intendents : Z) : method string :=
  item ← lift (makeItem "Shape" obj intendents);
  extents ← makeExtents obj intendents QRectF_zero;
  let intendent := tabs intendents in
  mret (cat [
    item;
    extents;
    makeAntialising intendents;
    intendent +:+ "ShapePath {" +:+ nl;
    makeShapeStroke obj (intendents + 1) Normal;
    makeShapeFill obj (intendents + 1);
    makeShapeFillData obj (intendents + 1);
    intendent +:+ "}" +:+ nl;
    tabs (intendents - 1) +:+ "}" +:+ nl ]).

(** [QByteArray makeVectorNormalFill(image, obj, intendents)] *)
Definition makeVectorNormalFill_image (image : string) (obj : QJsonObject) (intendents : Z)
    : method string :=
  let intendent := tabs intendents in
  let intendent1 := tabs (intendents + 1) in
  item ← lift (makeItem "Item" obj intendents);
  extents ← makeExtents obj intendents QRectF_zero;
  let sourceId := "source_" +:+ qmlId (toString (jvalue obj "id")) in
  let maskSourceId := "maskSource_" +:+ qmlId (toString (jvalue obj "id")) in
  mask ← lift (makeImageMaskData image obj intendents sourceId maskSourceId);
  mret (cat [
    item;
    extents;
    mask;
    intendent +:+ "Shape {" +:+ nl;
    intendent1 +:+ "anchors.fill: parent" +:+ nl;
    makeAntialising (intendents + 1);
    intendent1 +:+ "ShapePath {" +:+ nl;
    makeShapeStroke obj (intendents + 2) Normal;
    makeShapeFill obj (intendents + 2);
    makeShapeFillData obj (intendents + 2);
    intendent1 +:+ "}" +:+ nl;
    intendent +:+ "}" +:+ nl;
    tabs (intendents - 1) +:+ "} " +:+ nl ]).

(** [QByteArray makeVectorNormal(obj, intendents)] *)
Definition makeVectorNormal (obj : QJsonObject) (intendents : Z) : method string :=
  match imageFill obj with
  | Some image => makeVectorNormalFill_image image obj intendents
  | None => makeVectorNormalFill obj intendents
  end.

(** The comment line that opens the inside and outside emitters. *)
Definition border_comment (obj : QJsonObject) (intendents : Z) : string :=
  tabs (intendents - 1)
  +:+ "// QML (SVG) supports only center borders, thus an extra mask is created for "
  +:+ toString (jvalue obj "strokeAlign") +:+ nl.

(** [QByteArray makeVectorInsideFill(obj, intendents)] *)
Definition makeVectorInsideFill (obj : QJsonObject) (intendents : Z) : method string :=
  item ← lift (makeItem "Item" obj intendents);
  extents ← makeExtents obj intendents QRectF_zero;
  let borderSourceId := "borderSource_" +:+ qmlId (toString (jvalue obj "id")) in
  let intendent := tabs intendents in
  let intendent1 := tabs (intendents + 1) in
  let borderMaskId := "borderMask_" +:+ qmlId (toString (jvalue obj "id")) in
  let intendent2 := tabs (intendents + 2) in
  mret (cat [
    border_comment obj intendents;
    item;
    extents;
    intendent +:+ "Shape { " +:+ nl;
    intendent1 +:+ "id:" +:+ borderSourceId +:+ nl;
    intendent1 +:+ "anchors.fill: parent" +:+ nl;
    makeAntialising (intendents + 1);
    intendent1 +:+ "visible: false" +:+ nl;
    intendent1 +:+ "ShapePath {" +:+ nl;
    makeShapeStroke obj (intendents + 2) Double;
    makeShapeFill obj (intendents + 2);
    makeShapeFillData obj (intendents + 2);
    tabs (intendents + 2) +:+ "}" +:+ nl;
    intendent1 +:+ "}" +:+ nl;
    intendent1 +:+ "Shape {" +:+ nl;
    intendent1 +:+ "id: " +:+ borderMaskId +:+ nl;
    intendent1 +:+ "anchors.fill:parent" +:+ nl;
    makeAntialising (intendents + 1);
    intendent1 +:+ "layer.enabled: true" +:+ nl;
    intendent1 +:+ "visible: false" +:+ nl;
    intendent1 +:+ "ShapePath {" +:+ nl;
    intendent2 +:+ "fillColor: " +:+ dq +:+ "black" +:+ dq +:+ nl;
    intendent2 +:+ "strokeColor: " +:+ dq +:+ "transparent" +:+ dq +:+ nl;
    intendent2 +:+ "strokeWidth: 0" +:+ nl;
    intendent2 +:+ "joinStyle: ShapePath.MiterJoin" +:+ nl;
    makeShapeFillData obj (intendents + 2);
    intendent1 +:+ "}" +:+ nl;
    intendent +:+ "}" +:+ nl;
    intendent +:+ "OpacityMask {" +:+ nl;
    intendent1 +:+ "anchors.fill:parent" +:+ nl;
    intendent1 +:+ "source: " +:+ borderSourceId +:+ nl;
    intendent1 +:+ "maskSource: " +:+ borderMaskId +:+ nl;
    intendent +:+ "}" +:+ nl;
    tabs (intendents - 1) +:+ "}" +:+ nl ]).

(** [QByteArray makeVectorInsideFill(image, obj, intendents)] *)
Definition makeVectorInsideFill_image (image : string) (obj : QJsonObject) (intendents : Z)
    : method string :=
  item ← lift (makeItem "Item" obj intendents);
  extents ← makeExtents obj intendents QRectF_zero;
  let borderSourceId := "borderSource_" +:+ qmlId (toString (jvalue obj "id")) in
  let intendent := tabs intendents in
  let intendent1 := tabs (intendents + 1) in
  let intendent2 := tabs (intendents + 2) in
  let sourceId := "source_" +:+ qmlId (toString (jvalue obj "id")) in
  let maskSourceId := "maskSource_" +:+ qmlId (toString (jvalue obj "id")) in
  mask ← lift (makeImageMaskData image obj (intendents + 1) sourceId maskSourceId);
  let borderMaskId := "borderMask_" +:+ qmlId (toString (jvalue obj "id")) in
  mret (cat [
    border_comment obj intendents;
    item;
    extents;
    intendent +:+ "Item {" +:+ nl;
    intendent1 +:+ "id:" +:+ borderSourceId +:+ nl;
    intendent1 +:+ "anchors.fill: parent" +:+ nl;
    makeAntialising (intendents + 1);
    intendent1 +:+ "visible: false" +:+ nl;
    mask;
    intendent1 +:+ "Shape {" +:+ nl;
    intendent2 +:+ "anchors.fill: parent" +:+ nl;
    makeAntialising (intendents + 2);
    intendent2 +:+ "ShapePath {" +:+ nl;
    makeShapeStroke obj (intendents + 3) Double;
    makeShapeFill obj (intendents + 3);
    makeShapeFillData obj (intendents + 3);
    intendent2 +:+ "}" +:+ nl;
    intendent1 +:+ "}" +:+ nl;
    intendent +:+ "}" +:+ nl;
    intendent +:+ "Shape {" +:+ nl;
    intendent1 +:+ "id: " +:+ borderMaskId +:+ nl;
    intendent1 +:+ "anchors.fill:parent" +:+ nl;
    makeAntialising (intendents + 1);
    intendent1 +:+ "layer.enabled: true" +:+ nl;
    intendent1 +:+ "visible: false" +:+ nl;
    intendent1 +:+ "ShapePath {" +:+ nl;
    intendent2 +:+ "fillColor: " +:+ dq +:+ "black" +:+ dq +:+ nl;
    intendent2 +:+ "strokeColor: " +:+ dq +:+ "transparent" +:+ dq +:+ nl;
    intendent2 +:+ "strokeWidth: 0" +:+ nl;
    intendent2 +:+ "joinStyle: ShapePath.MiterJoin" +:+ nl;
    makeShapeFillData obj (intendents + 2);
    intendent1 +:+ "}" +:+ nl;
    intendent +:+ "}" +:+ nl;
    intendent +:+ "OpacityMask {" +:+ nl;
    intendent1 +:+ "anchors.fill:parent" +:+ nl;
    intendent1 +:+ "source: " +:+ borderSourceId +:+ nl;
    intendent1 +:+ "maskSource: " +:+ borderMaskId +:+ nl;
    intendent +:+ "}" +:+ nl;
    tabs (intendents - 1) +:+ "}" +:+ nl ]).

(** [QByteArray makeVectorInside(obj, intendentsBase)] *)
Definition makeVectorInside (obj : QJsonObject) (intendentsBase : Z) : method string :=
  match imageFill obj with
  | Some image => makeVectorInsideFill_image image obj intendentsBase
  | None => makeVectorInsideFill obj intendentsBase
  end.

(** The box of the outside emitters, grown by the border on every side. *)
Definition border_box (borderWidth : float) : QRectF :=
  {| rx := PrimFloat.opp borderWidth; ry := PrimFloat.opp borderWidth;
     rwidth := PrimFloat.mul borderWidth 2; rheight := PrimFloat.mul borderWidth 2 |}.

(** The end shared by the two outside emitters: the doubled stroke, the
    mask of the shape and the inverted composition. *)
Definition outside_border (obj : QJsonObject) (intendents : Z) (borderWidth : float)
    : list string :=
  let borderSourceId := "borderSource_" +:+ qmlId (toString (jvalue obj "id")) in
  let intendent := tabs intendents in
  let intendent1 := tabs (intendents + 1) in
  let intendent2 := tabs (intendents + 2) in
  let intendent3 := tabs (intendents + 3) in
  let borderMaskId := "borderMask_" +:+ qmlId (toString (jvalue obj "id")) in
  [ intendent +:+ "Item {" +:+ nl;
    intendent1 +:+ "id: " +:+ borderSourceId +:+ nl;
    intendent1 +:+ "anchors.fill:parent" +:+ nl;
    intendent1 +:+ "visible: false" +:+ nl;
    intendent1 +:+ "Shape {" +:+ nl;
    makeAntialising (intendents + 2);
    intendent2 +:+ "x: " +:+ number borderWidth +:+ nl;
    intendent2 +:+ "y: " +:+ number borderWidth +:+ nl;
    makeSize obj (intendents + 2) (0, 0)%float;
    intendent2 +:+ "ShapePath {" +:+ nl;
    intendent3 +:+ "fillColor: " +:+ dq +:+ "black" +:+ dq +:+ nl;
    makeShapeStroke obj (intendents + 3) Double;
    makeShapeFillData obj (intendents + 3);
    intendent2 +:+ "}" +:+ nl;
    intendent1 +:+ "}" +:+ nl;
    intendent +:+ "}" +:+ nl;
    intendent +:+ "Item {" +:+ nl;
    intendent1 +:+ "id: " +:+ borderMaskId +:+ nl;
    intendent1 +:+ "anchors.fill:parent" +:+ nl;
    makeAntialising (intendents + 1);
    intendent1 +:+ "visible: false" +:+ nl;
    intendent1 +:+ "Shape {" +:+ nl;
    intendent2 +:+ "x: " +:+ number borderWidth +:+ nl;
    intendent2 +:+ "y: " +:+ number borderWidth +:+ nl;
    makeSize obj (intendents + 2) (0, 0)%float;
    intendent2 +:+ "ShapePath {" +:+ nl;
    intendent3 +:+ "fillColor: " +:+ dq +:+ "black" +:+ dq +:+ nl;
    intendent3 +:+ "strokeColor: " +:+ dq +:+ "transparent" +:+ dq +:+ nl;
    intendent3 +:+ "strokeWidth: " +:+ number borderWidth +:+ nl;
    intendent3 +:+ "joinStyle: ShapePath.MiterJoin" +:+ nl;
    makeShapeFillData obj (intendents + 3);
    intendent2 +:+ "}" +:+ nl;
    intendent1 +:+ "}" +:+ nl;
    intendent +:+ "}" +:+ nl;
    intendent +:+ "OpacityMask {" +:+ nl;
    intendent1 +:+ "anchors.fill:parent" +:+ nl;
    intendent1 +:+ "maskSource: " +:+ borderMaskId +:+ nl;
    intendent1 +:+ "source: " +:+ borderSourceId +:+ nl;
    intendent1 +:+ "invert: true" +:+ nl;
    intendent +:+ "}" +:+ nl;
    tabs (intendents - 1) +:+ "}" +:+ nl ].

(** [QByteArray makeVectorOutsideFill(obj, intendents)] *)
Definition makeVectorOutsideFill (obj : QJsonObject) (intendents : Z) : method string :=
  let borderWidth := toDouble (jvalue obj "strokeWeight") in
  item ← lift (makeItem "Item" obj intendents);
  extents ← makeExtents obj intendents (border_box borderWidth);
  let intendent := tabs intendents in
  let intendent1 := tabs (intendents + 1) in
  let intendent2 := tabs (intendents + 2) in
  mret (cat ([
    border_comment obj intendents;
    item;
    extents;
    intendent +:+ "Shape {" +:+ nl;
    intendent1 +:+ "x: " +:+ number borderWidth +:+ nl;
    intendent1 +:+ "y: " +:+ number borderWidth +:+ nl;
    makeSize obj (intendents + 1) (0, 0)%float;
    makeAntialising (intendents + 1);
    intendent1 +:+ "ShapePath {" +:+ nl;
    makeShapeFill obj (intendents + 2);
    makeShapeFillData obj (intendents + 2);
    intendent2 +:+ "strokeWidth: 0" +:+ nl;
    intendent2 +:+ "strokeColor: fillColor" +:+ nl;
    intendent2 +:+ "joinStyle: ShapePath.MiterJoin" +:+ nl;
    intendent1 +:+ "}" +:+ nl;
    intendent +:+ "}" +:+ nl ]
    ++ outside_border obj intendents borderWidth)).

(** [QByteArray makeVectorOutsideFill(image, obj, intendents)] *)
Definition makeVectorOutsideFill_image (image : string) (obj : QJsonObject) (intendents : Z)
    : method string :=
  let borderWidth := toDouble (jvalue obj "strokeWeight") in
  item ← lift (makeItem "Item" obj intendents);
  extents ← makeExtents obj intendents (border_box borderWidth);
  let intendent := tabs intendents in
  let intendent1 := tabs (intendents + 1) in
  let intendent2 := tabs (intendents + 2) in
  let intendent3 := tabs (intendents + 3) in
  let sourceId := "source_" +:+ qmlId (toString (jvalue obj "id")) in
  let maskSourceId := "maskSource_" +:+ qmlId (toString (jvalue obj "id")) in
  mask ← lift (makeImageMaskData image obj (intendents + 1) sourceId maskSourceId);
  mret (cat ([
    border_comment obj intendents;
    item;
    extents;
    intendent +:+ "Item {" +:+ nl;
    intendent1 +:+ "x: " +:+ number borderWidth +:+ nl;
    intendent1 +:+ "y: " +:+ number borderWidth +:+ nl;
    makeSize obj (intendents + 1) (0, 0)%float;
    makeAntialising (intendents + 1);
    mask;
    intendent1 +:+ "Shape {" +:+ nl;
    intendent2 +:+ "anchors.fill: parent" +:+ nl;
    makeAntialising (intendents + 2);
    intendent2 +:+ "ShapePath {" +:+ nl;
    intendent3 +:+ "strokeColor: " +:+ dq +:+ "transparent" +:+ dq +:+ nl;
    intendent3 +:+ "strokeWidth: 0" +:+ nl;
    intendent3 +:+ "joinStyle: ShapePath.MiterJoin" +:+ nl;
    makeShapeFill obj (intendents + 3);
    makeShapeFillData obj (intendents + 3);
    intendent2 +:+ "} " +:+ nl;
    intendent1 +:+ "} " +:+ nl;
    intendent +:+ "} " +:+ nl ]
    ++ outside_border obj intendents borderWidth)).

(** [QByteArray makeVectorOutside(obj, intendentsBase)] *)
Definition makeVectorOutside (obj : QJsonObject) (intendentsBase : Z) : method string :=
  match imageFill obj with
  | Some image => makeVectorOutsideFill_image image obj intendentsBase
  | None => makeVectorOutsideFill obj intendentsBase
  end.

(** [QByteArray parseVector(obj, intendents)] *)
Definition parseVector (obj : QJsonObject) (intendents : Z) : method string :=
  let hasBorders :=
    jcontains obj "strokes" && negb (bool_decide (toArray (jvalue obj "strokes") = []))
    && jcontains obj "strokeWeight"
    && PrimFloat.ltb 1 (toDouble (jvalue obj "strokeWeight")) in
  if hasBorders && is_str (jvalue obj "strokeAlign") "INSIDE" then
    makeVectorInside obj intendents
  else if hasBorders && is_str (jvalue obj "strokeAlign") "OUTSIDE" then
    makeVectorOutside obj intendents
  else makeVectorNormal obj intendents.

Definition parseLine := parseVector.
Definition parsePolygon := parseVector.
Definition parseStar := parseVector.
Definition parseRectangle := parseVector.
Definition parseEllipse := parseVector.

(** *** Text *)

(** [QJsonObject toQMLTextStyles(const QJsonObject& obj) const] *)
Definition capitalization : list (string * string) :=
  [("UPPER", "Font.AllUppercase"); ("LOWER", "Font.AllLowercase");
   ("TITLE", "Font.MixedCase"); ("SMALL_CAPS", "Font.SmallCaps");
   ("SMALL_CAPS_FORCED", "Font.Capitalize")].
Definition decoration : list (string * string) :=
  [("STRIKETHROUGH", "strikeout"); ("UNDERLINE", "underline")].
Definition hAlign : list (string * string) :=
  [("LEFT", "Text.AlignLeft"); ("RIGHT", "Text.AlignRight");
   ("CENTER", "Text.AlignHCenter"); ("JUSTIFIED", "Text.AlignJustify")].
Definition vAlign : list (string * string) :=
  [("TOP", "Text.AlignTop"); ("BOTTOM", "Text.AlignBottom"); ("CENTER", "Text.AlignVCenter")].

Definition toQMLTextStyles (obj : QJsonObject) : QJsonObject :=
  let styles : QJsonObject := [] in
  let resolvedFunction := mResolveFont this (toString (jvalue obj "fontFamily")) in
  let styles := jinsert "font.family" (JString (dq +:+ resolvedFunction +:+ dq)) styles in
  let styles :=
    jinsert "font.italic"
      (JString (if toBool (jvalue obj "italic") then "true" else "false")) styles in
  let styles :=
    jinsert "font.pixelSize"
      (JString (number_int (floor (toDouble (jvalue obj "fontSize"))))) styles in
  let styles :=
    jinsert "font.weight" (JString (fontWeight (toDouble (jvalue obj "fontWeight")))) styles in
  let styles :=
    if jcontains obj "textCase" then
      jinsert "font.capitalization"
        (JString (default "" (assoc capitalization (toString (jvalue obj "textCase"))))) styles
    else styles in
  let styles :=
    if jcontains obj "textDecoration" then
      jinsert (default "" (assoc decoration (toString (jvalue obj "textDecoration"))))
        (JBool true) styles
    else styles in
  let styles :=
    if jcontains obj "paragraphSpacing" then
      jinsert "topPadding" (JString (number_int (toInt (jvalue obj "paragraphSpacing")))) styles
    else styles in
  let styles :=
    if jcontains obj "paragraphIndent" then
      jinsert "leftPadding" (JString (number_int (toInt (jvalue obj "paragraphIndent")))) styles
    else styles in
  let styles :=
    jinsert "horizontalAlignment"
      (JString (default "" (assoc hAlign (toString (jvalue obj "textAlignHorizontal"))))) styles in
  let styles :=
    jinsert "verticalAlignment"
      (JString (default "" (assoc vAlign (toString (jvalue obj "textAlignVertical"))))) styles in
  jinsert "font.letterSpacing"
    (JString (number (toDouble (jvalue obj "letterSpacing")))) styles.

(** [QByteArray parseStyle(obj, intendents)] *)
Definition parseStyle (obj : QJsonObject) (intendents : Z) : outcome string :=
  let intendent := tabs intendents in
  let styles := toQMLTextStyles obj in
  let out :=
    cat ((λ k, intendent +:+ k +:+ ": " +:+ variantString number (jvalue styles k) +:+ nl)
           <$> jkeys styles) in
  let fills := toArray (jvalue obj "fills") in
  if 0 <? qsize fills then
    fill ← makeFill (toObject (at_ fills 0)) intendents;
    Ok (out +:+ fill)
  else Ok out.

(** [bool isRendering(const QJsonObject& obj) const]: [type(obj)] gives the
    same answer at each of its calls, so it is read once. *)
Definition isRendering (obj : QJsonObject) : outcome bool :=
  if toBool (jvalue obj "isRendering") then Ok true
  else
    t ← itemType obj;
    let flags := m_flags this in
    let type := toString (jvalue obj "type") in
    if bool_decide (t = Vector) && (has_flag flags PrerenderShapes || isGradient obj) then Ok true
    else if bool_decide (t = Text) && isGradient obj then Ok true
    else if bool_decide (t = Frame) && negb (String.eqb type "GROUP")
            && has_flag flags PrerenderFrames then Ok true
    else if String.eqb type "GROUP" && has_flag flags PrerenderGroups then Ok true
    else if bool_decide (t = Component_) && has_flag flags PrerenderComponents then Ok true
    else if bool_decide (t = Instance) && has_flag flags PrerenderInstances then Ok true
    else Ok false.

(** [QByteArray parseText(obj, intendents)] *)
Definition parseText (obj : QJsonObject) (intendents : Z) : method string :=
  item ← lift (makeItem "Text" obj intendents);
  vector ← makeVector obj intendents;
  let intendent := tabs intendents in
  style ← lift (parseStyle (toObject (jvalue obj "style")) intendents);
  mret (cat [
    item;
    vector;
    intendent +:+ "wrapMode: TextEdit.WordWrap" +:+ nl;
    intendent +:+ "text:" +:+ dq +:+ toString (jvalue obj "characters") +:+ dq +:+ nl;
    style;
    tabs (intendents - 1) +:+ "}" +:+ nl ]).

(** [QByteArray parseSlice(obj, intendents)] *)
Definition parseSlice (obj : QJsonObject) (intendents : Z) : method string :=
  mret "".

(** *** Pre-rendered nodes *)

Fixpoint getSize_fuel (fuel : nat) (obj : QJsonObject) : float * float :=
  let rect := toObject (jvalue obj "absoluteBoundingBox") in
  let sz := (toDouble (jvalue rect "width"), toDouble (jvalue rect "height")) in
  match fuel with
  | O => sz
  | S fuel =>
      if jcontains obj "children" then
        foldl (λ sz child,
                 let other := getSize_fuel fuel (toObject child) in
                 (qMax sz.1 other.1, qMax sz.2 other.2))
              sz (toArray (jvalue obj "children"))
      else sz
  end.

(** [QSizeF getSize(const QJsonObject& obj) const]: the descent is bounded by
    the depth of [obj]. *)
Definition getSize (obj : QJsonObject) : float * float :=
  getSize_fuel (depth (JObject obj)) obj.

(** [QByteArray parseRendered(obj, intendents)] *)
Definition parseRendered (obj : QJsonObject) (intendents : Z) : method string := λ st,
  (instance ← lift (makeComponentInstance "Item" obj intendents);
   let intendent := tabs intendents in
   lift (Q_ASSERT QT_DEBUG (jcontains (m_parent st) "absoluteBoundingBox"));;
   let prect := toObject (jvalue (m_parent st) "absoluteBoundingBox") in
   let px := toDouble (jvalue prect "x") in
   let py := toDouble (jvalue prect "y") in
   let rect := toObject (jvalue obj "absoluteBoundingBox") in
   let x := toDouble (jvalue rect "x") in
   let y := toDouble (jvalue rect "y") in
   let rsect := getSize obj in
   let width := rsect.1 in
   let height := rsect.2 in
   let imageId := "i_" +:+ qmlId (toString (jvalue obj "id")) in
   let invisible := jcontains obj "visible" && negb (toBool (jvalue obj "visible")) in
   image ←
     (if negb invisible then
        let intendent1 := tabs (intendents + 1) in
        source ← lift (makeImageSource (toString (jvalue obj "id")) true (intendents + 1)
                         PlaceHolder);
        mret (cat [
          intendent +:+ "Image {" +:+ nl;
          intendent1 +:+ "id: " +:+ imageId +:+ nl;
          intendent1 +:+ "anchors.centerIn: parent" +:+ nl;
          intendent1 +:+ "mipmap: true" +:+ nl;
          intendent1 +:+ "fillMode: Image.PreserveAspectFit" +:+ nl;
          source;
          intendent +:+ "}" +:+ nl ])
      else mret "");
   mret (cat [
     instance;
     intendent +:+ "x: " +:+ number (PrimFloat.sub x px) +:+ nl;
     intendent +:+ "y: " +:+ number (PrimFloat.sub y py) +:+ nl;
     intendent +:+ "width:" +:+ number width +:+ nl;
     intendent +:+ "height:" +:+ number height +:+ nl;
     image;
     tabs (intendents - 1) +:+ "}" +:+ nl ])) st.

(** *** Instances and components *)

(** The step of the loop of [delta] for the key [k]. *)
Definition delta_step (instance base : QJsonObject) (ignored : gset string)
    (compares : gmap string (QJsonValue → QJsonValue → outcome QJsonValue))
    (newObject : QJsonObject) (k : string) : outcome QJsonObject :=
  if bool_decide (k ∈ ignored) then Ok newObject
  else if negb (jcontains base k) then Ok (jinsert k (jvalue instance k) newObject)
  else
    match compares !! k with
    | Some compare =>
        ret ← compare (jvalue base k) (jvalue instance k);
        if negb (isNull ret) then Ok (jinsert k ret newObject) else Ok newObject
    | None =>
        if negb (json_eqb (jvalue base k) (jvalue instance k))
        then Ok (jinsert k (jvalue instance k) newObject)
        else Ok newObject
    end.

(** [static QJsonObject delta(instance, base, ignored, compares)] *)
Definition delta (instance base : QJsonObject) (ignored : gset string)
    (compares : gmap string (QJsonValue → QJsonValue → outcome QJsonValue))
    : outcome QJsonObject :=
  newObject ← foldM (delta_step instance base ignored compares) [] (jkeys instance);
  if negb (bool_decide (newObject = [])) then
    if negb (bool_decide ("name" ∈ ignored)) && jcontains instance "name"
    then Ok (jinsert "name" (jvalue instance "name") newObject)
    else Ok newObject
  else Ok newObject.

(** [static QHash<QString, QString> children(const QJsonObject& obj)] *)
Definition children (obj : QJsonObject) : gmap string string :=
  if jcontains obj "children" then
    foldl (λ cList c,
             let childObj := toObject c in
             <[toString (jvalue childObj "id") := toString (jvalue childObj "name")]> cList)
          ∅ (toArray (jvalue obj "children"))
  else ∅.

(** The members [m_parent] and [m_componentIds]. *)
Definition get_parent : method QJsonObject := λ st, Ok (m_parent st, st).
Definition set_parent (parent : QJsonObject) : method unit := λ st,
  Ok ((), {| m_componentIds := m_componentIds st; m_parent := parent |}).
Definition insert_componentId (id : string) : method unit := λ st,
  Ok ((), {| m_componentIds := {[id]} ∪ m_componentIds st; m_parent := m_parent st |}).

(** *** The recursive descent

    The methods below call [parse] on the children of their node; they are
    written over the parser [parse] of those calls, and [parse] itself ties
    the knot by recursion on the depth of the node. *)

Section Descent.

Variable parse : QJsonObject → Z → method string.

(** The loop body of [parseChildrenItems] for the child [c]: the state of
    the loop is [hasMask], [out] and [childrenItems]. *)
Definition parseChildrenItems_step (obj : QJsonObject) (intendents : Z)
    (acc : bool * string * OrderedMap.t) (c : QJsonValue)
    : method (bool * string * OrderedMap.t) :=
  let '(hasMask, out, childrenItems) := acc in
  set_parent obj;;
  let child := toObject c in
  let isMask := jcontains child "isMask" && toBool (jvalue child "isMask") in
  if isMask then
    let intendent := tabs intendents in
    let intendent1 := tabs (intendents + 1) in
    let maskSourceId := "mask_" +:+ qmlId (toString (jvalue child "id")) in
    let sourceId := "source_" +:+ qmlId (toString (jvalue child "id")) in
    mask ← parse child (intendents + 2);
    mret (true,
          out +:+ cat [
            tabs intendents +:+ "Item {" +:+ nl;
            intendent +:+ "anchors.fill:parent" +:+ nl;
            intendent +:+ "OpacityMask {" +:+ nl;
            intendent1 +:+ "anchors.fill:parent" +:+ nl;
            intendent1 +:+ "source: " +:+ sourceId +:+ nl;
            intendent1 +:+ "maskSource: " +:+ maskSourceId +:+ nl;
            intendent +:+ "}" +:+ nl +:+ nl;
            intendent +:+ "Item {" +:+ nl;
            intendent1 +:+ "id: " +:+ maskSourceId +:+ nl;
            intendent1 +:+ "anchors.fill:parent" +:+ nl;
            mask;
            intendent1 +:+ "visible:false" +:+ nl;
            intendent +:+ "}" +:+ nl +:+ nl;
            intendent +:+ "Item {" +:+ nl;
            intendent1 +:+ "id: " +:+ sourceId +:+ nl;
            intendent1 +:+ "anchors.fill:parent" +:+ nl;
            intendent1 +:+ "visible:false" +:+ nl ],
          childrenItems)
  else
    bytes ← parse child (if hasMask then intendents + 2 else intendents + 1);
    mret (hasMask, out,
          OrderedMap.insert (toString (jvalue child "id")) bytes childrenItems).

(** [OrderedMap<QString, QByteArray> parseChildrenItems(obj, intendents)] *)
Definition parseChildrenItems (obj : QJsonObject) (intendents : Z) : method OrderedMap.t :=
  parent ← get_parent;
  childrenItems ←
    (if jcontains obj "children" then
       let children := toArray (jvalue obj "children") in
       '(hasMask, out, childrenItems) ←
         foldM (parseChildrenItems_step obj intendents) (false, "", OrderedMap.empty) children;
       if hasMask : bool then
         let out := out +:+ cat (OrderedMap.m_data childrenItems).*2 in
         let out := out +:+ tabs (intendents + 1) +:+ "}" +:+ nl in
         let out := out +:+ tabs intendents +:+ "}" +:+ nl in
         mret (OrderedMap.insert "maskedItem" out (OrderedMap.clear childrenItems))
       else mret childrenItems
     else mret OrderedMap.empty);
  set_parent parent;;
  mret childrenItems.

(** [QByteArray parseChildren(obj, intendents)] *)
Definition parseChildren (obj : QJsonObject) (intendents : Z) : method string :=
  childrenItems ← parseChildrenItems obj intendents;
  mret (cat (OrderedMap.m_data childrenItems).*2).

(** [QByteArray makePlainItem(obj, intendents)] *)
Definition makePlainItem (obj : QJsonObject) (intendents : Z) : method string :=
  item ← lift (makeItem "Rectangle" obj intendents);
  fill ← lift (makeFill obj intendents);
  extents ← makeExtents obj intendents QRectF_zero;
  children ← parseChildren obj intendents;
  mret (cat [item; fill; extents; children; tabs (intendents - 1) +:+ "}" +:+ nl]).

(** [QByteArray parseFrame(obj, intendents)] *)
Definition parseFrame (obj : QJsonObject) (intendents : Z) : method string :=
  item ← lift (makeItem "Rectangle" obj intendents);
  vector ← makeVector obj intendents;
  let intendent := tabs intendents in
  children ← parseChildren obj intendents;
  mret (cat [
    item;
    vector;
    (if jcontains obj "cornerRadius"
     then intendent +:+ "radius:" +:+ number (toDouble (jvalue obj "cornerRadius")) +:+ nl
     else "");
    intendent +:+ "clip: "
      +:+ (if toBool (jvalue obj "clipsContent") then "true" else "false") +:+ " " +:+ nl;
    children;
    tabs (intendents - 1) +:+ "}" +:+ nl ]).

(** [QByteArray parseGroup(obj, intendents)] *)
Definition parseGroup := parseFrame.

(** The comparator that [makeInstanceChildren] registers for the key
    [children]. *)
Definition compare_children (objChild : QJsonObject) (o c : QJsonValue) : outcome QJsonValue :=
  t ← itemType objChild;
  if (bool_decide (t = Boolean) && negb (has_flag (m_flags this) BreakBooleans))
     || json_eqb o c
  then Ok JNull else Ok c.

(** The condition under which [makeInstanceChildren] binds properties
    instead of emitting the child again. *)
Definition minimal_delta (deltaObject : QJsonObject) : bool :=
  (qsize deltaObject <=? 2)
  && (((qsize deltaObject =? 2)
       && jcontains deltaObject "relativeTransform"
       && jcontains deltaObject "size")
      || ((qsize deltaObject =? 1)
          && (jcontains deltaObject "relativeTransform" || jcontains deltaObject "size"))).

(** The properties bound on the delegate of a child whose delta is minimal. *)
Definition bound_properties (objChild deltaObject : QJsonObject) (id : string)
    (intendents : Z) : string :=
  let intendent := tabs intendents in
  let delegateId := delegateName id in
  (if jcontains deltaObject "relativeTransform" then
     let transform := makeTransforms objChild (intendents + 1) in
     let pos := position objChild in
     (if negb (isEmpty transform)
      then intendent +:+ delegateId +:+ "_transform: " +:+ transform +:+ nl else "")
     +:+ intendent +:+ delegateId +:+ "_x: " +:+ number_int (truncate pos.1) +:+ nl
     +:+ intendent +:+ delegateId +:+ "_y: " +:+ number_int (truncate pos.2) +:+ nl
   else "")
  +:+
  (if jcontains deltaObject "size" then
     let size := toObject (jvalue deltaObject "size") in
     intendent +:+ delegateId +:+ "_width: "
       +:+ number_int (truncate (toDouble (jvalue size "x"))) +:+ nl
     +:+ intendent +:+ delegateId +:+ "_height: "
       +:+ number_int (truncate (toDouble (jvalue size "y"))) +:+ nl
   else "").

(** The loop body of [makeInstanceChildren] for the component child [cc].
    A key that is not found fails the assertion of a debug build; otherwise
    the end iterator is read only where the child is emitted again. *)
Definition makeInstanceChildren_step (objChildren : QJsonArray) (children : OrderedMap.t)
    (intendents : Z) (out : string) (cc : QJsonValue) : outcome string :=
  let keys := OrderedMap.keys children in
  let intendent := tabs intendents in
  let cchild := toObject cc in
  let id := toString (jvalue cchild "id") in
  let keyit := list_find (λ key, split_last ";" key = id) keys in
  Q_ASSERT QT_DEBUG (bool_decide (is_Some keyit));;
  let index := match keyit with Some (i, _) => Z.of_nat i | None => qsize keys end in
  let objChild := toObject (at_ objChildren index) in
  deltaObject ←
    delta objChild cchild {["absoluteBoundingBox"; "name"; "id"]}
          {["children" := compare_children objChild]};
  if bool_decide (deltaObject = []) then Ok out
  else if minimal_delta deltaObject then
    Ok (out +:+ bound_properties objChild deltaObject id intendents)
  else
    match keyit with
    | Some (_, key) =>
        Ok (out +:+ intendent +:+ delegateName id +:+ ":" +:+ OrderedMap.get children key)
    | None => Crash
    end.

(** [QByteArray makeInstanceChildren(obj, comp, intendents)] *)
Definition makeInstanceChildren (obj comp : QJsonObject) (intendents : Z) : method string :=
  let compChildren := toArray (jvalue comp "children") in
  let objChildren := toArray (jvalue obj "children") in
  children ← parseChildrenItems obj intendents;
  if negb (qsize compChildren =? OrderedMap.size children) then
    mret (cat (OrderedMap.m_data children).*2)
  else
    lift (foldM (makeInstanceChildren_step objChildren children intendents) "" compChildren).

(** [QByteArray parseInstance(obj, intendents)] *)
Definition parseInstance (obj : QJsonObject) (intendents : Z) : method string :=
  t ← lift (itemType obj);
  let isInstance := bool_decide (t = Instance) in
  let componentId :=
    toString (if isInstance then jvalue obj "componentId" else jvalue obj "id") in
  insert_componentId componentId;;
  match m_components this !! componentId with
  | None =>
      lift (ERR ["Unexpected component dependency from"; toString (jvalue obj "id");
                 "to"; componentId])
  | Some comp =>
      out ←
        (if negb isInstance then
           name ← lift (Component_name comp);
           lift (makeComponentInstance name obj intendents)
         else
           instanceObject ← lift (delta obj (Component.object comp) {["children"]} ∅);
           let instanceObject :=
             if jcontains obj "fills" && negb (jcontains instanceObject "fills")
             then jinsert "fills" (JString "") instanceObject else instanceObject in
           let instanceObject :=
             if jcontains obj "strokes" && negb (jcontains instanceObject "strokes")
             then jinsert "strokes" (JString "") instanceObject else instanceObject in
           name ← lift (Component_name comp);
           item ← lift (makeItem name instanceObject intendents);
           vector ← makeVector instanceObject intendents;
           children ← makeInstanceChildren obj (Component.object comp) intendents;
           mret (cat [item; vector; children]));
      mret (out +:+ tabs (intendents - 1) +:+ "}" +:+ nl)
  end.

(** The properties that [parseComponent] declares for the delegate of one
    child, and the statements of [Component.onCompleted] for it. *)
Definition delegate_properties (intendent : string) (children : OrderedMap.t) (key : string)
    : string :=
  let id := delegateName key in
  let sname := replace01 (toUpper (at0 id)) id in
  cat [
    intendent +:+ "property Component " +:+ id +:+ ": " +:+ OrderedMap.get children key;
    intendent +:+ "property Item i_" +:+ id +:+ nl;
    intendent +:+ "property matrix4x4 " +:+ id +:+ "_transform: Qt.matrix4x4("
      +:+ cat (replicate 16 "Nan,") +:+ ")" +:+ nl;
    intendent +:+ "on" +:+ sname +:+ "_transformChanged: {if(i_" +:+ id +:+ " && i_" +:+ id
      +:+ ".transform != " +:+ id +:+ "_transform) i_" +:+ id +:+ ".transform = " +:+ id
      +:+ "_transform;}" +:+ nl;
    cat ((λ p,
            intendent +:+ "property real " +:+ id +:+ "_" +:+ p +:+ ": NaN" +:+ nl
            +:+ intendent +:+ "on" +:+ sname +:+ "_" +:+ p +:+ "Changed: {if(i_" +:+ id
            +:+ " && i_" +:+ id +:+ "." +:+ p +:+ " != " +:+ id +:+ "_" +:+ p +:+ ") i_" +:+ id
            +:+ "." +:+ p +:+ " = " +:+ id +:+ "_" +:+ p +:+ ";}" +:+ nl)
           <$> ["x"; "y"; "width"; "height"]) ].

Definition delegate_completed (intendent1 : string) (key : string) : string :=
  let dname := delegateName key in
  cat [
    intendent1 +:+ "const o_" +:+ dname +:+ " = {}" +:+ nl;
    intendent1 +:+ "if(!isNaN(" +:+ dname +:+ "_transform.m11)) o_" +:+ dname
      +:+ "['transform'] = " +:+ dname +:+ "_transform;" +:+ nl;
    cat ((λ p,
            intendent1 +:+ "if(!isNaN(" +:+ dname +:+ "_" +:+ p +:+ ")) o_" +:+ dname
            +:+ "['" +:+ p +:+ "'] = " +:+ dname +:+ "_" +:+ p +:+ ";" +:+ nl)
           <$> ["x"; "y"; "width"; "height"]);
    intendent1 +:+ "i_" +:+ dname +:+ " = " +:+ dname +:+ ".createObject(this, o_"
      +:+ dname +:+ ")" +:+ nl;
    cat ((λ p,
            intendent1 +:+ dname +:+ "_" +:+ p +:+ " = Qt.binding(()=>i_" +:+ dname
            +:+ "." +:+ p +:+ ")" +:+ nl)
           <$> ["x"; "y"; "width"; "height"]) ].

(** [QByteArray parseComponent(obj, intendents)] *)
Definition parseComponent (obj : QJsonObject) (intendents : Z) : method string :=
  if negb (has_flag (m_flags this) ParseComponent) then parseInstance obj intendents
  else
    item ← lift (makeItem "Rectangle" obj intendents);
    vector ← makeVector obj intendents;
    let intendent := tabs intendents in
    children ← parseChildrenItems obj intendents;
    let intendent1 := tabs (intendents + 1) in
    mret (cat [
      item;
      vector;
      (if jcontains obj "cornerRadius"
       then intendent +:+ "radius:" +:+ number (toDouble (jvalue obj "cornerRadius")) +:+ nl
       else "");
      intendent +:+ "clip: "
        +:+ (if toBool (jvalue obj "clipsContent") then "true" else "false") +:+ " " +:+ nl;
      cat (delegate_properties intendent children <$> OrderedMap.keys children);
      intendent +:+ "Component.onCompleted: {" +:+ nl;
      cat (delegate_completed intendent1 <$> OrderedMap.keys children);
      intendent +:+ "}" +:+ nl;
      tabs (intendents - 1) +:+ "}" +:+ nl ]).

(** *** Boolean operations *)

(** The rectangle filled like the node, source of the compositions. *)
Definition boolean_source (obj : QJsonObject) (intendents : Z) (sourceId : string)
    (layer : string) : outcome string :=
  let intendent := tabs intendents in
  let intendent1 := tabs (intendents + 1) in
  fill ← makeFirstFill obj (intendents + 1) intendent1;
  Ok (cat [
    intendent +:+ "Rectangle {" +:+ nl;
    intendent1 +:+ "id: " +:+ sourceId +:+ nl;
    intendent1 +:+ "anchors.fill: parent" +:+ nl;
    fill;
    intendent1 +:+ "visible: false" +:+ nl;
    layer ]).

(** The branch [operation == UNION]. *)
Definition boolean_union (obj : QJsonObject) (intendents : Z) (sourceId maskSourceId : string)
    : method string :=
  let intendent := tabs intendents in
  let intendent1 := tabs (intendents + 1) in
  source ← lift (boolean_source obj intendents sourceId "");
  children ← parseChildren obj (intendents + 1);
  mret (cat [
    source;
    intendent +:+ "}" +:+ nl;
    intendent +:+ "Item {" +:+ nl;
    intendent1 +:+ "anchors.fill: parent" +:+ nl;
    intendent1 +:+ "visible: false" +:+ nl;
    intendent1 +:+ "id: " +:+ maskSourceId +:+ nl;
    children;
    intendent +:+ "}" +:+ nl;
    intendent +:+ "OpacityMask {" +:+ nl;
    intendent1 +:+ "anchors.fill:" +:+ sourceId +:+ nl;
    intendent1 +:+ "source:" +:+ sourceId +:+ nl;
    intendent1 +:+ "maskSource:" +:+ maskSourceId +:+ nl;
    intendent +:+ "}" +:+ nl ]).

(** The branch [operation == SUBTRACT]. *)
Definition boolean_subtract (obj : QJsonObject) (intendents : Z) (children : QJsonArray)
    (sourceId maskSourceId : string) : method string :=
  let intendent := tabs intendents in
  let intendent1 := tabs (intendents + 1) in
  let intendent2 := tabs (intendents + 2) in
  fill ← lift (makeFirstFill obj (intendents + 2) intendent1);
  first ← parse (toObject (at_ children 0)) (intendents + 3);
  rest ← foldM (λ out child, bytes ← parse (toObject child) (intendents + 2);
                             mret (out +:+ bytes))
               "" (drop 1 children);
  mret (cat [
    intendent +:+ "Item {" +:+ nl;
    intendent1 +:+ "anchors.fill: parent" +:+ nl;
    intendent1 +:+ "visible: false" +:+ nl;
    intendent1 +:+ "id: " +:+ sourceId +:+ "_subtract" +:+ nl;
    intendent1 +:+ "Rectangle {" +:+ nl;
    intendent2 +:+ "id: " +:+ sourceId +:+ nl;
    intendent2 +:+ "anchors.fill: parent" +:+ nl;
    intendent2 +:+ "visible: false" +:+ nl;
    fill;
    intendent1 +:+ "}" +:+ nl;
    intendent1 +:+ "Item {" +:+ nl;
    intendent2 +:+ "anchors.fill: parent" +:+ nl;
    intendent2 +:+ "visible: false" +:+ nl;
    intendent2 +:+ "id:" +:+ maskSourceId +:+ nl;
    first;
    intendent1 +:+ "}" +:+ nl;
    intendent1 +:+ "OpacityMask {" +:+ nl;
    intendent2 +:+ "anchors.fill:" +:+ sourceId +:+ nl;
    intendent2 +:+ "source:" +:+ sourceId +:+ nl;
    intendent2 +:+ "maskSource:" +:+ maskSourceId +:+ nl;
    intendent1 +:+ "}" +:+ nl;
    intendent +:+ "}" +:+ nl;
    intendent +:+ "Item {" +:+ nl;
    intendent1 +:+ "anchors.fill: parent" +:+ nl;
    intendent1 +:+ "visible: false" +:+ nl;
    intendent1 +:+ "id: " +:+ maskSourceId +:+ "_subtract" +:+ nl;
    rest;
    intendent +:+ "}" +:+ nl;
    intendent +:+ "OpacityMask {" +:+ nl;
    intendent1 +:+ "anchors.fill:" +:+ sourceId +:+ "_subtract" +:+ nl;
    intendent1 +:+ "source:" +:+ sourceId +:+ "_subtract" +:+ nl;
    intendent1 +:+ "maskSource:" +:+ maskSourceId +:+ "_subtract" +:+ nl;
    intendent1 +:+ "invert: true" +:+ nl;
    intendent +:+ "}" +:+ nl ]).

(** The loop body of the branch [operation == INTERSECT]; the state of the
    loop is [out] and [nextSourceId]. *)
Definition boolean_intersect_step (intendents : Z) (count : Z) (sourceId maskSourceId : string)
    (acc : string * string) (ic : Z * QJsonValue) : method (string * string) :=
  let '(out, nextSourceId) := acc in
  let '(i, child) := ic in
  let intendent := tabs intendents in
  let intendent1 := tabs (intendents + 1) in
  let maskId := maskSourceId +:+ "_" +:+ number_int i in
  bytes ← parse (toObject child) (intendents + 2);
  let nextSourceId' := sourceId +:+ "_" +:+ number_int i in
  mret (out +:+ cat [
          intendent +:+ "Item {" +:+ nl;
          intendent1 +:+ "anchors.fill: parent" +:+ nl;
          intendent1 +:+ "visible: false" +:+ nl;
          bytes;
          intendent1 +:+ "id: " +:+ maskId +:+ nl;
          intendent +:+ "}" +:+ nl;
          intendent +:+ "OpacityMask {" +:+ nl;
          intendent1 +:+ "anchors.fill:" +:+ sourceId +:+ nl;
          intendent1 +:+ "source:" +:+ nextSourceId +:+ nl;
          intendent1 +:+ "maskSource:" +:+ maskId +:+ nl;
          intendent1 +:+ "id: " +:+ nextSourceId' +:+ nl;
          (if i <? count - 1 then intendent1 +:+ "visible: false" +:+ nl else "");
          intendent +:+ "}" +:+ nl ],
        nextSourceId').

(** The children of a node with their indices. *)
Definition indexed (children : QJsonArray) : list (Z * QJsonValue) :=
  zip (seqZ 0 (qsize children)) children.

Definition boolean_intersect (obj : QJsonObject) (intendents : Z) (children : QJsonArray)
    (sourceId maskSourceId : string) : method string :=
  let intendent := tabs intendents in
  source ← lift (boolean_source obj intendents sourceId "");
  '(out, _) ←
    foldM (boolean_intersect_step intendents (qsize children) sourceId maskSourceId)
          (source +:+ intendent +:+ "}" +:+ nl, sourceId) (indexed children);
  mret out.

(** The two fragment shaders of the branch [operation == EXCLUDE]. *)
Definition exclude_shaders (intendents : Z) : string :=
  let intendent1 := tabs (intendents + 1) in
  let intendent2 := tabs (intendents + 2) in
  let intendent3 := tabs (intendents + 3) in
  cat [
    intendent1 +:+ "readonly property string shaderSource: " +:+ dq +:+ nl;
    intendent2 +:+ "uniform lowp sampler2D colorSource;" +:+ nl;
    intendent2 +:+ "uniform lowp sampler2D prevMask;" +:+ nl;
    intendent2 +:+ "uniform lowp sampler2D currentMask;" +:+ nl;
    intendent2 +:+ "uniform lowp float qt_Opacity;" +:+ nl;
    intendent2 +:+ "varying highp vec2 qt_TexCoord0;" +:+ nl;
    intendent2 +:+ "void main() {" +:+ nl;
    intendent3 +:+ "vec4 color = texture2D(colorSource, qt_TexCoord0);" +:+ nl;
    intendent3 +:+ "vec4 cm = texture2D(currentMask, qt_TexCoord0);" +:+ nl;
    intendent3 +:+ "vec4 pm = texture2D(prevMask, qt_TexCoord0);" +:+ nl;
    intendent3
      +:+ "gl_FragColor = qt_Opacity * color * ((cm.a * (1.0 - pm.a)) + ((1.0 - cm.a) * pm.a));"
      +:+ nl;
    intendent2 +:+ "}" +:+ dq +:+ nl;
    intendent1 +:+ "readonly property string shaderSource0: " +:+ dq +:+ nl;
    intendent2 +:+ "uniform lowp sampler2D colorSource;" +:+ nl;
    intendent2 +:+ "uniform lowp sampler2D currentMask;" +:+ nl;
    intendent2 +:+ "uniform lowp float qt_Opacity;" +:+ nl;
    intendent2 +:+ "varying highp vec2 qt_TexCoord0;" +:+ nl;
    intendent2 +:+ "void main() {" +:+ nl;
    intendent3 +:+ "vec4 color = texture2D(colorSource, qt_TexCoord0);" +:+ nl;
    intendent3 +:+ "vec4 cm = texture2D(currentMask, qt_TexCoord0);" +:+ nl;
    intendent3 +:+ "gl_FragColor = cm.a * color;" +:+ nl;
    intendent2 +:+ "}" +:+ dq +:+ nl ].

(** The loop body of the branch [operation == EXCLUDE]. *)
Definition boolean_exclude_step (intendents : Z) (count : Z) (sourceId maskSourceId : string)
    (acc : string * string) (ic : Z * QJsonValue) : method (string * string) :=
  let '(out, nextSourceId) := acc in
  let '(i, child) := ic in
  let intendent := tabs intendents in
  let intendent1 := tabs (intendents + 1) in
  let intendent2 := tabs (intendents + 2) in
  let maskId := maskSourceId +:+ "_" +:+ number_int i in
  bytes ← parse (toObject child) (intendents + 2);
  let nextSourceId' := sourceId +:+ "_" +:+ number_int i in
  mret (out +:+ cat [
          intendent +:+ "Item {" +:+ nl;
          intendent1 +:+ "visible: false" +:+ nl;
          intendent1 +:+ "anchors.fill: parent" +:+ nl;
          bytes;
          intendent1 +:+ "layer.enabled: true" +:+ nl;
          intendent1 +:+ "id: " +:+ maskId +:+ nl;
          intendent +:+ "}" +:+ nl;
          intendent +:+ "ShaderEffect {" +:+ nl;
          intendent1 +:+ "anchors.fill: parent" +:+ nl;
          intendent1 +:+ "layer.enabled: true" +:+ nl;
          intendent1 +:+ "property var colorSource:" +:+ sourceId +:+ nl;
          (if negb (isEmpty nextSourceId) then
             intendent2 +:+ "property var prevMask: ShaderEffectSource {" +:+ nl
             +:+ intendent2 +:+ "sourceItem: " +:+ nextSourceId +:+ nl
             +:+ intendent1 +:+ "}" +:+ nl
           else "");
          intendent1 +:+ "property var currentMask:" +:+ maskId +:+ nl;
          intendent1 +:+ "fragmentShader: " +:+ sourceId
            +:+ (if isEmpty nextSourceId then ".shaderSource0" else ".shaderSource") +:+ nl;
          (if i <? count - 1 then
             intendent1 +:+ "visible: false" +:+ nl
             +:+ intendent1 +:+ "id: " +:+ nextSourceId' +:+ nl
           else "");
          intendent1 +:+ "}" +:+ nl ],
        nextSourceId').

Definition boolean_exclude (obj : QJsonObject) (intendents : Z) (children : QJsonArray)
    (sourceId maskSourceId : string) : method string :=
  let intendent := tabs intendents in
  let intendent1 := tabs (intendents + 1) in
  source ← lift (boolean_source obj intendents sourceId
                   (intendent1 +:+ "layer.enabled: true" +:+ nl));
  '(out, _) ←
    foldM (boolean_exclude_step intendents (qsize children) sourceId maskSourceId)
          (source +:+ exclude_shaders intendents +:+ intendent +:+ "}" +:+ nl, "")
          (indexed children);
  mret out.

(** [parseBooleanOperation] once the flag and the number of children are
    checked. *)
Definition parseBooleanOperation_body (obj : QJsonObject) (intendents : Z)
    (children : QJsonArray) : method string :=
  let operation := toString (jvalue obj "booleanOperation") in
  item ← lift (makeItem "Item" obj intendents);
  extents ← makeExtents obj intendents QRectF_zero;
  let sourceId := "source_" +:+ qmlId (toString (jvalue obj "id")) in
  let maskSourceId := "maskSource_" +:+ qmlId (toString (jvalue obj "id")) in
  let close (composition : string) :=
    mret (cat [item; extents; composition; tabs (intendents - 1) +:+ "}" +:+ nl]) in
  if String.eqb operation "UNION" then
    boolean_union obj intendents sourceId maskSourceId ≫= close
  else if String.eqb operation "SUBTRACT" then
    boolean_subtract obj intendents children sourceId maskSourceId ≫= close
  else if String.eqb operation "INTERSECT" then
    boolean_intersect obj intendents children sourceId maskSourceId ≫= close
  else if String.eqb operation "EXCLUDE" then
    boolean_exclude obj intendents children sourceId maskSourceId ≫= close
  else mret "".

(** [QByteArray parseBooleanOperation(obj, intendents)] *)
Definition parseBooleanOperation (obj : QJsonObject) (intendents : Z) : method string :=
  if Z.land (m_flags this) BreakBooleans =? 0 then parseVector obj intendents
  else
    let children := toArray (jvalue obj "children") in
    if qsize children <? 2 then lift (ERR ["Boolean needs at least two elemetns"])
    else parseBooleanOperation_body obj intendents children.

(** *** Dispatch *)

Definition parsers : list (string * (QJsonObject → Z → method string)) :=
  [("RECTANGLE", parseRectangle); ("TEXT", parseText); ("COMPONENT", parseComponent);
   ("BOOLEAN_OPERATION", parseBooleanOperation); ("INSTANCE", parseInstance);
   ("ELLIPSE", parseEllipse); ("VECTOR", parseVector); ("LINE", parseLine);
   ("REGULAR_POLYGON", parsePolygon); ("STAR", parseStar); ("GROUP", parseGroup);
   ("FRAME", parseFrame); ("SLICE", parseSlice); ("NONE", makePlainItem)].

(** The body of [parse]. *)
Definition parse_node (obj : QJsonObject) (intendents : Z) : method string :=
  let type := toString (jvalue obj "type") in
  match assoc parsers type with
  | None => lift (ERR ["Non supported object type:" +:+ dq +:+ type +:+ dq])
  | Some parser =>
      rendering ← lift (isRendering obj);
      if rendering : bool then parseRendered obj intendents
      else parser obj intendents
  end.

End Descent.

Fixpoint parse_fuel (fuel : nat) (obj : QJsonObject) (intendents : Z) : method string :=
  match fuel with
  | O => λ _, Crash
  | S fuel => parse_node (parse_fuel fuel) obj intendents
  end.

(** [QByteArray parse(obj, intendents)]: every nested call is on a child of
    the node, so the depth of [obj] bounds the descent. *)
Definition parse (obj : QJsonObject) (intendents : Z) : method string :=
  parse_fuel (depth (JObject obj)) obj intendents.

(** [Element getElement(const QJsonObject& obj)] *)
Definition getElement (obj : QJsonObject) : method Element.t :=
  set_parent obj;;
  bytes ← parse obj 1;
  ids ← (λ st, Ok (elements (m_componentIds st), st));
  name ← lift (validFileName (toString (jvalue obj "name")));
  mret (Element.Element name (toString (jvalue obj "id")) (toString (jvalue obj "type"))
          bytes ids).

End Methods.

(** ** The public entry points *)

(** The members of a parser object that has not parsed anything. *)
Definition fresh : members := {| m_componentIds := ∅; m_parent := [] |}.

(** The [try] block of [element] and [component]: the exception goes to the
    error callback as a fatal issue, and the default element is returned;
    [None] when the process ended in a failed assertion. *)
Definition report (r : outcome (Element.t * members)) : option (Element.t * list issue) :=
  match r with
  | Ok (e, _) => Some (e, [])
  | Throw what => Some (Element.empty, [(what, true)])
  | Crash => None
  end.

(** [static Element element(obj, flags, err, data, resolveFont, components)] *)
Definition element (obj : QJsonObject) (flags : Z) (data : string → bool → string)
    (resolveFont : string → string) (components : Components)
    : option (Element.t * list issue) :=
  let p := {| m_flags := flags; mImageProvider := data; mResolveFont := resolveFont;
              m_components := components |} in
  report (getElement p obj fresh).

(** [static Element component(obj, flags, err, data, resolveFont, components)] *)
Definition component (obj : QJsonObject) (flags : Z) (data : string → bool → string)
    (resolveFont : string → string) (components : Components)
    : option (Element.t * list issue) :=
  let p := {| m_flags := Z.lor flags ParseComponent; mImageProvider := data;
              mResolveFont := resolveFont; m_components := components |} in
  report (getElement p obj fresh).

(** [static Canvases canvases(project, err)]: nothing inside its [try] block
    throws. *)
Definition canvases (project : QJsonObject) : list Canvas.t :=
  let doc := toObject (jvalue project "document") in
  (λ c,
     let canvas := toObject c in
     let children := toArray (jvalue canvas "children") in
     let col := toObject (jvalue canvas "backgroundColor") in
     Canvas.Canvas (toString (jvalue canvas "name")) (toString (jvalue canvas "id"))
       (toColor (toDouble (jvalue col "r")) (toDouble (jvalue col "g"))
                (toDouble (jvalue col "b")) (toDouble (jvalue col "a")))
       (toObject <$> children))
  <$> toArray (jvalue doc "children").

(** ** Predicates of the specification *)

(** The sanitized names of a catalogue. *)
Definition catalogue_names (map : Components) : list string :=
  Component.m_name <$> (map_to_list map).*2.

(** Sanitized names are unique within a catalogue. *)
Definition names_distinct (map : Components) : Prop :=
  ∀ k1 k2 c1 c2, map !! k1 = Some c1 → map !! k2 = Some c2 → k1 ≠ k2 →
    Component.m_name c1 ≠ Component.m_name c2.

(** The condition asserted by [Component::name()]. *)
Definition name_valid (n : string) : Prop :=
  n = "" ∨ endsWith n FIGMA_SUFFIX = true.
Definition names_valid (map : Components) : Prop :=
  ∀ k c, map !! k = Some c → name_valid (Component.m_name c).

(** The sanitized name of a component comes from its raw name in the
    [components] table: it is the sanitized raw name, or the sanitized
    numbered name of the raw name for some count. *)
Definition named_from (components : QJsonObject) (key : string) (c : Component.t) : Prop :=
  let componentName := toString (jvalue (toObject (jvalue components key)) "name") in
  validFileName componentName = Ok (Component.m_name c)
  ∨ ∃ count, 1 ≤ count ∧
      validFileName (numbered componentName count) = Ok (Component.m_name c).

(** The raw name of the component [key] in the [components] table. *)
Definition raw_name (components : QJsonObject) (key : string) : string :=
  toString (jvalue (toObject (jvalue components key)) "name").

(** The text [s] holds no place marker with the letter L. *)
Definition plain_markers (s : string) : bool :=
  forallb (λ p, match p with Marker _ true _ => false | _ => true end) (pieces s).

(** The two replacements of [validFileName], and what it does to the first
    character of the name. *)
Definition sanitized (s : string) : string :=
  replace_class re_nonword "_" (replace_class re_reserved "_" s).
Definition capitalized (name : string) : string :=
  let name :=
    if negb (isLower (at0 name) || isUpper (at0 name)) then insert0 "C" name else name in
  replace01 (toUpper (at0 name)) name.

(** The piece [p] is a place marker of the number [min]. *)
Definition marks (min : N) (p : piece) : bool :=
  match p with
  | Marker escape _ _ => (escape =? min)%N
  | Plain _ => false
  end.

(** The three ways in which the body of a component cannot be obtained from
    the remote lookup: empty bytes, a reply that does not parse, a reply
    without the component. *)
Definition remote_lookup_fails (nodes : string → string) (key : string) : Prop :=
  nodes key = ""
  ∨ fromJson (nodes key) = None
  ∨ ∃ doc, fromJson (nodes key) = Some doc
      ∧ getObjectsByType
          (toObject (jvalue (toObject (jvalue (toObject (jvalue (toObject doc) "nodes")) key))
                            "document"))
          "COMPONENT" !! key = None.

(** The fourteen type strings that [parse] dispatches on. *)
Definition supported_types : list string :=
  ["RECTANGLE"; "TEXT"; "COMPONENT"; "BOOLEAN_OPERATION"; "INSTANCE"; "ELLIPSE"; "VECTOR";
   "LINE"; "REGULAR_POLYGON"; "STAR"; "GROUP"; "FRAME"; "SLICE"; "NONE"].

(** The four operations that [parseBooleanOperation] composes. *)
Definition supported_operations : list string :=
  ["UNION"; "SUBTRACT"; "INTERSECT"; "EXCLUDE"].

(** The message of the exception raised for an unknown type. *)
Definition unsupported_type (type : string) : string :=
  Exception ("Non supported object type:" +:+ dq +:+ type +:+ dq).

(** The message of the exception raised for a boolean node with fewer than
    two children. *)
Definition malformed_boolean : string :=
  Exception "Boolean needs at least two elemetns".

(** The assertion of [makeComponentInstance] holds for [obj]. *)
Definition identified (obj : QJsonObject) : Prop :=
  QT_DEBUG = true → jcontains obj "type" && jcontains obj "id" = true.

(** The three stroke strategies of a vector-like node. *)
Inductive StrokeStrategy : Type := StrokeNormal | StrokeInside | StrokeOutside.

(** The condition [hasBorders] of [parseVector]. *)
Definition hasBorders (obj : QJsonObject) : bool :=
  jcontains obj "strokes" && negb (bool_decide (toArray (jvalue obj "strokes") = []))
  && jcontains obj "strokeWeight"
  && PrimFloat.ltb 1 (toDouble (jvalue obj "strokeWeight")).

(** The branch that [parseVector] takes. *)
Definition strokeStrategy (obj : QJsonObject) : StrokeStrategy :=
  if hasBorders obj && is_str (jvalue obj "strokeAlign") "INSIDE" then StrokeInside
  else if hasBorders obj && is_str (jvalue obj "strokeAlign") "OUTSIDE" then StrokeOutside
  else StrokeNormal.

(** A non-trivial stroke: at least one stroke entry and a weight above 1. *)
Definition nontrivial_stroke (obj : QJsonObject) : Prop :=
  toArray (jvalue obj "strokes") ≠ []
  ∧ PrimFloat.ltb 1 (toDouble (jvalue obj "strokeWeight")) = true.

(** One shape-path block around [body]. *)
Definition shape_path (intendent body : string) : string :=
  intendent +:+ "ShapePath {" +:+ nl +:+ body +:+ intendent +:+ "}" +:+ nl.

(** The keys of a [QJsonObject] are in order, each once. *)
Definition sorted_keys (obj : QJsonObject) : Prop :=
  StronglySorted (λ a b, String.ltb a b = true) (jkeys obj).

(** The two keys of a minimal override. *)
Definition layout_keys : list string := ["relativeTransform"; "size"].

(** The keys that [makeInstanceChildren] ignores in the delta of a child. *)
Definition child_ignored : gset string := {["absoluteBoundingBox"; "name"; "id"]}.

(** One property bound on the delegate [delegateId]. *)
Definition bound_property (intendents : Z) (delegateId : string) (pv : string * string)
    : string :=
  tabs intendents +:+ delegateId +:+ "_" +:+ pv.1 +:+ ": " +:+ pv.2 +:+ nl.

(** The assignment of the full subtree of a child to its delegate. *)
Definition full_subtree (intendents : Z) (id : string) (subtree : string) : string :=
  tabs intendents +:+ delegateName id +:+ ":" +:+ subtree.

(** The condition [isMask] of [parseChildrenItems] for the child [c], and
    the identifier under which a child that is no mask is kept. *)
Definition isMask (c : QJsonValue) : bool :=
  jcontains (toObject c) "isMask" && toBool (jvalue (toObject c) "isMask").

Definition child_id (c : QJsonValue) : string := toString (jvalue (toObject c) "id").

(** Two parsers of the nested calls give the same result on every child of
    [obj]. *)
Definition agree_on_children (p1 p2 : QJsonObject → Z → method string) (obj : QJsonObject)
    : Prop :=
  ∀ c i st, c ∈ toArray (jvalue obj "children") → p1 (toObject c) i st = p2 (toObject c) i st.

(** ** Further predicates *)

(** The map built from the empty one by inserting the entries of [l] in
    order. *)
Definition inserted (l : list (string * string)) : OrderedMap.t :=
  foldl (λ m kv, OrderedMap.insert kv.1 kv.2 m) OrderedMap.empty l.

(** Every member of the object holds a value. *)
Definition defined (obj : QJsonObject) : Prop :=
  Forall (λ kv, kv.2 ≠ JUndefined) obj.

(** The character [c] does not occur in [s]. *)
Definition without (c : ascii) (s : string) : bool :=
  sall (λ x, negb (bool_decide (x = c))) s.

(** The characters of a QML identifier behind its first one: lower-case
    letters, digits and the underscore. *)
Definition isLowerWord (c : ascii) : bool :=
  isLower c || isDigit c || bool_decide (c = "_"%char).

(** The text that [makeImageSource] puts between two pieces of the image
    data, and the pieces joined by it. *)
Definition separator : string := dq +:+ " +" +:+ nl +:+ " " +:+ dq.

Definition joined (chunks : list string) : string :=
  match chunks with
  | [] => ""
  | first :: rest => first +:+ cat ((λ chunk, separator +:+ chunk) <$> rest)
  end.

(** The matrix of a translation by [tx] and [ty]. *)
Definition translation (tx ty : float) : QJsonValue :=
  JArray [JArray [JDouble 1; JDouble 0; JDouble tx];
          JArray [JDouble 0; JDouble 1; JDouble ty]].

(** The node [o] stored under [k] is a component node with that id. *)
Definition component_node_of (k : string) (o : QJsonObject) : Prop :=
  is_str (jvalue o "type") "COMPONENT" = true ∧ toString (jvalue o "id") = k.

(** The catalogue entry [c] of [key] holds the fields of its entry in the
    table [components] and a component node of that id. *)
Definition registered_from (components : QJsonObject) (key : string) (c : Component.t)
    : Prop :=
  Component.id c = key
  ∧ Component.key c = toString (jvalue (toObject (jvalue components key)) "key")
  ∧ Component.description c
    = toString (jvalue (toObject (jvalue components key)) "description")
  ∧ component_node_of key (Component.object c).

(** What a method does to the members of the parser object: [unchanged]
    when it only reads them; [ids_within] when it may add ids of components
    of the catalogue to [m_componentIds]; [keeps] when, besides, it leaves
    [m_parent] as it found it. *)
Definition unchanged (st st' : members) : Prop := st' = st.

Definition ids_within (this : FigmaParser) (st st' : members) : Prop :=
  m_componentIds st ⊆ m_componentIds st'
  ∧ m_componentIds st' ⊆ m_componentIds st ∪ dom (m_components this).

Definition keeps (this : FigmaParser) (st st' : members) : Prop :=
  m_parent st' = m_parent st ∧ ids_within this st st'.

(** Every normal return of the method [m] relates the members before and
    after by [R]. *)
Definition preserves {A : Type} (R : members → members → Prop) (m : method A) : Prop :=
  ∀ st a st', m st = Ok (a, st') → R st st'.

(** The children [cs] are parsed in order by [rec] at the indentation [n]
    with the outputs [texts]: each call starts from [m_parent = obj] and
    from the [m_componentIds] that the call before left; [ids] is the set
    before the first call and [ids'] the set after the last one. *)
Fixpoint children_parsed (rec : QJsonObject → Z → method string) (obj : QJsonObject)
    (n : Z) (ids : gset string) (cs : list QJsonValue) (texts : list string)
    (ids' : gset string) : Prop :=
  match cs, texts with
  | [], [] => ids' = ids
  | c :: cs, text :: texts =>
      ∃ s1, rec (toObject c) n {| m_componentIds := ids; m_parent := obj |} = Ok (text, s1)
            ∧ children_parsed rec obj n (m_componentIds s1) cs texts ids'
  | _, _ => False
  end.

(** The declaration, in the markup of a component, of the property [name]
    of the delegate [delegateId]. *)
Definition declaration (delegateId name : string) : string :=
  "property " +:+ (if String.eqb name "transform" then "matrix4x4" else "real")
  +:+ " " +:+ delegateId +:+ "_" +:+ name +:+ ":".

(** A lower-case hexadecimal digit. *)
Definition isHexDigit (c : ascii) : bool :=
  isDigit c || ((97 <=? code c) && (code c <=? 102))%N.

(** The value of a colour channel as [toColor] writes it. *)
Definition channel (c : float) : Z := round (PrimFloat.mul c 255).

(** * Verification *)

Set Default Proof Using "Type".

(** [set_solver] without the parameters of the development in its way. *)
Ltac set_solve :=
  try clear localized; try clear fromJson; try clear number; try clear QT_DEBUG; set_solver.
Ltac naive_solve :=
  try clear localized; try clear fromJson; try clear number; try clear QT_DEBUG; naive_solver.

(** The binds of the two monads, unfolded. *)
Ltac munfold :=
  unfold mbind, mret, method_bind, method_ret, outcome_bind, outcome_ret, obind, lift.

(** ** Strings *)

Lemma append_cons (c : ascii) (a b : string) : String c a +:+ b = String c (a +:+ b).
Proof. done. Qed.

Lemma append_nil_r (s : string) : s +:+ "" = s.
Proof. induction s as [|c s IH]; [done|]. by rewrite append_cons, IH. Qed.

Lemma append_assoc (a b c : string) : (a +:+ b) +:+ c = a +:+ b +:+ c.
Proof. induction a as [|x a IH]; [done|]. by rewrite !append_cons, IH. Qed.

Lemma length_append (a b : string) :
  String.length (a +:+ b) = (String.length a + String.length b)%nat.
Proof. induction a as [|x a IH]; [done|]. rewrite append_cons. cbn. by rewrite IH. Qed.

Lemma replace_class_cons (class : ascii → bool) (x c : ascii) (r : string) :
  replace_class class (String x "") (String c r)
  = String (if class c then x else c) (replace_class class (String x "") r).
Proof. cbn. by destruct (class c). Qed.

Lemma replace_class_app (class : ascii → bool) (after a b : string) :
  replace_class class after (a +:+ b)
  = replace_class class after a +:+ replace_class class after b.
Proof.
  induction a as [|c a IH]; [done|].
  rewrite append_cons. cbn [replace_class]. by rewrite IH, append_assoc.
Qed.

Lemma replace_class_id (class : ascii → bool) (after s : string) :
  sall (λ c, negb (class c)) s = true → replace_class class after s = s.
Proof.
  induction s as [|c s IH]; [done|]. cbn [sall replace_class].
  intros [Hc Hs]%andb_true_iff. rewrite IH by done.
  by destruct (class c).
Qed.

Lemma sall_impl (p q : ascii → bool) (s : string) :
  (∀ c, p c = true → q c = true) → sall p s = true → sall q s = true.
Proof.
  intros Hpq. induction s as [|c s IH]; [done|]. cbn.
  intros [Hc Hs]%andb_true_iff. by rewrite (Hpq c Hc), IH.
Qed.

Lemma sall_app (p : ascii → bool) (a b : string) :
  sall p (a +:+ b) = sall p a && sall p b.
Proof. induction a as [|c a IH]; [done|]. rewrite append_cons. cbn. by rewrite IH, andb_assoc. Qed.

Lemma replace_nonword_word (s : string) :
  sall isWord (replace_class re_nonword "_" s) = true.
Proof.
  induction s as [|c s IH]; [done|]. rewrite replace_class_cons. cbn [sall].
  rewrite IH, andb_true_r. unfold re_nonword.
  by destruct (isWord c) eqn:E.
Qed.

Lemma word_not_reserved (c : ascii) : isWord c = true → negb (re_reserved c) = true.
Proof. destruct c as [[] [] [] [] [] [] [] []]; by vm_compute. Qed.

Lemma word_not_nonword (c : ascii) : isWord c = true → negb (re_nonword c) = true.
Proof. unfold re_nonword. by intros ->. Qed.

Lemma toUpper_letter (c : ascii) : isLetter c = true → isUpper (toUpper c) = true.
Proof. destruct c as [[] [] [] [] [] [] [] []]; by vm_compute. Qed.

Lemma toUpper_word (c : ascii) : isWord c = true → isWord (toUpper c) = true.
Proof. destruct c as [[] [] [] [] [] [] [] []]; by vm_compute. Qed.

Lemma toUpper_upper (c : ascii) : isUpper c = true → toUpper c = c.
Proof. destruct c as [[] [] [] [] [] [] [] []]; by vm_compute. Qed.

Lemma upper_not_lower (c : ascii) : isUpper c = true → isLower c = false.
Proof. destruct c as [[] [] [] [] [] [] [] []]; by vm_compute. Qed.

Lemma upper_word (c : ascii) : isUpper c = true → isWord c = true.
Proof. unfold isWord. intros ->. by rewrite orb_true_r. Qed.

Lemma endsWith_refl (s : string) : endsWith s s = true.
Proof. destruct s; cbn [endsWith]; by rewrite String.eqb_refl. Qed.

Lemma endsWith_app (a suffix : string) : endsWith (a +:+ suffix) suffix = true.
Proof.
  induction a as [|c a IH]; [apply endsWith_refl|].
  rewrite append_cons. cbn [endsWith]. rewrite IH. apply orb_true_r.
Qed.

Lemma append_suffix_neq (s : string) : s +:+ FIGMA_SUFFIX ≠ s.
Proof.
  intros H. apply (f_equal String.length) in H.
  rewrite length_append in H. cbn in H. lia.
Qed.

Lemma cat_cons (x : string) (l : list string) : cat (x :: l) = x +:+ cat l.
Proof. done. Qed.

Lemma cat_app (l1 l2 : list string) : cat (l1 ++ l2) = cat l1 +:+ cat l2.
Proof.
  induction l1 as [|x l1 IH]; [done|].
  cbn [app]. by rewrite !cat_cons, IH, append_assoc.
Qed.

(** ** Name sanitizer *)

(** The shape of every non-empty sanitized name: an upper-case letter, word
    characters, and the suffix. *)
Lemma validFileName_shape (itemName name : string) :
  itemName ≠ "" → validFileName itemName = Ok name →
  ∃ u body, name = String u (body +:+ FIGMA_SUFFIX)
            ∧ isUpper u = true ∧ sall isWord body = true.
Proof.
  intros Hne. unfold validFileName.
  destruct itemName as [|c r]; [done|]. cbn [isEmpty].
  destruct (Q_ASSERT _ _); cbn; [|done..].
  rewrite !replace_class_app.
  change (replace_class re_nonword "_" (replace_class re_reserved "_" FIGMA_SUFFIX))
    with FIGMA_SUFFIX.
  pose proof (replace_nonword_word (replace_class re_reserved "_" (String c r))) as Hw.
  rewrite replace_class_cons in Hw |- *.
  rewrite replace_class_cons in Hw |- *.
  set (c1 := if re_nonword _ then _ else _) in *.
  set (r1 := replace_class re_nonword _ _) in *.
  cbn [sall] in Hw. apply andb_true_iff in Hw as [Hc1 Hr1].
  rewrite append_cons. cbn [at0].
  destruct (isLower c1 || isUpper c1) eqn:Hl; cbn [negb]; intros [= <-].
  - cbn [replace01 at0]. exists (toUpper c1), r1. split; [done|].
    split; [by apply toUpper_letter|done].
  - exists "C"%char, (String c1 r1). split; [done|]. split; [done|].
    cbn [sall]. by rewrite Hc1, Hr1.
Qed.

(** C10: [validFileName] maps the empty string to the empty string, and the
    empty input is the only one whose result does not begin with a letter. *)
Theorem validFileName_empty_only_letterless :
  validFileName "" = Ok "" ∧
  ∀ itemName name, validFileName itemName = Ok name →
    (startsWithLetter name = false ↔ itemName = "").
Proof.
  split; [done|]. intros itemName name H.
  destruct (decide (itemName = "")) as [->|Hne].
  - cbn in H. by simplify_eq.
  - destruct (validFileName_shape _ _ Hne H) as (u & body & -> & Hu & _).
    cbn. unfold isLetter. rewrite Hu, orb_true_r. split; [done|]. done.
Qed.

(** C8 (amended): a non-empty raw name that the sanitizer accepts yields an
    identifier that starts with a letter and ends with the suffix [_figma];
    sanitizing is not idempotent: applied to that identifier, [validFileName]
    fails its own assertion in a debug build and appends a second suffix
    otherwise. *)
Theorem validFileName_twice (itemName name : string) :
  itemName ≠ "" → validFileName itemName = Ok name →
  startsWithLetter name = true
  ∧ endsWith name FIGMA_SUFFIX = true
  ∧ validFileName name = (if QT_DEBUG then Crash else Ok (name +:+ FIGMA_SUFFIX))
  ∧ validFileName name ≠ Ok name.
Proof.
  intros Hne H.
  destruct (validFileName_shape _ _ Hne H) as (u & body & -> & Hu & Hbody).
  assert (endsWith (String u (body +:+ FIGMA_SUFFIX)) FIGMA_SUFFIX = true) as Hends.
  { rewrite <- append_cons. apply endsWith_app. }
  assert (validFileName (String u (body +:+ FIGMA_SUFFIX))
          = if QT_DEBUG then Crash else Ok (String u (body +:+ FIGMA_SUFFIX) +:+ FIGMA_SUFFIX))
    as Hagain.
  { unfold validFileName. cbn [isEmpty]. rewrite Hends. cbn [negb].
    unfold Q_ASSERT. destruct QT_DEBUG; [done|]. cbn.
    assert (sall isWord (String u (body +:+ FIGMA_SUFFIX) +:+ FIGMA_SUFFIX) = true) as Hw.
    { rewrite append_cons. cbn [sall]. rewrite !sall_app, Hbody, (upper_word _ Hu). done. }
    rewrite (replace_class_id re_reserved)
      by (eapply sall_impl; [apply word_not_reserved|done]).
    rewrite (replace_class_id re_nonword)
      by (eapply sall_impl; [apply word_not_nonword|done]).
    rewrite append_cons. cbn [at0]. rewrite Hu, orb_true_r. cbn [negb at0 replace01].
    by rewrite (toUpper_upper _ Hu). }
  split; [cbn; unfold isLetter; by rewrite Hu, orb_true_r|].
  split; [done|]. split; [done|].
  rewrite Hagain. destruct QT_DEBUG; [done|].
  intros [= Heq]. by apply append_suffix_neq in Heq.
Qed.

(** ** Decimal numerals *)

Lemma pretty_N_go_digits (x : N) (s : string) :
  ∃ p, pretty_N_go x s = p +:+ s ∧ sall isDigit p = true.
Proof.
  revert s. induction (N.lt_wf_0 x) as [x _ IH]. intros s.
  destruct (decide (x = 0)%N) as [->|Hx].
  { exists "". by rewrite pretty_N_go_0. }
  rewrite pretty_N_go_step by lia.
  destruct (IH (x `div` 10)%N) with (s := String (pretty_N_char (x `mod` 10)) s)
    as (p & -> & Hp); [apply N.div_lt; lia|].
  exists (p +:+ String (pretty_N_char (x `mod` 10)) "").
  rewrite append_assoc, sall_app, Hp. split; [done|]. cbn.
  unfold pretty_N_char. by repeat case_match.
Qed.

Lemma pretty_pos_digits (k : Z) :
  1 ≤ k → ∃ q d, pretty k = q +:+ String d "" ∧ sall isDigit q = true ∧ isDigit d = true.
Proof.
  intros Hk. destruct k as [|p|p]; [lia| |lia].
  unfold pretty, pretty_Z, pretty, pretty_positive, pretty, pretty_N.
  case_decide; [done|].
  rewrite pretty_N_go_step by lia.
  destruct (pretty_N_go_digits (N.pos p `div` 10) (String (pretty_N_char (N.pos p `mod` 10)) ""))
    as (q & -> & Hq).
  eexists q, _. split; [done|]. split; [done|].
  unfold pretty_N_char. by repeat case_match.
Qed.

Lemma append_last_inj (a b : string) (c d : ascii) :
  a +:+ String c "" = b +:+ String d "" → c = d.
Proof.
  revert b. induction a as [|x a IH]; intros [|y b]; rewrite ?append_cons; cbn.
  - by intros [= ->].
  - destruct b; by intros [=].
  - destruct a; by intros [=].
  - intros [= _ H]. eauto.
Qed.

Lemma endsWith_inv (s suffix : string) :
  endsWith s suffix = true → ∃ a, s = a +:+ suffix.
Proof.
  induction s as [|c s IH]; cbn [endsWith]; intros [H|H]%orb_true_iff.
  - apply String.eqb_eq in H as <-. by exists "".
  - done.
  - apply String.eqb_eq in H as <-. by exists "".
  - destruct (IH H) as [a ->]. by exists (String c a).
Qed.

Lemma endsWith_digit (a : string) (d : ascii) :
  isDigit d = true → endsWith (a +:+ String d "") FIGMA_SUFFIX = false.
Proof.
  intros Hd. destruct (endsWith _ _) eqn:E; [|done].
  apply endsWith_inv in E as [b E].
  change FIGMA_SUFFIX with ("_figm" +:+ String "a" "") in E.
  rewrite <- append_assoc in E. apply append_last_inj in E as ->. done.
Qed.

Lemma append_inj_r (a b s : string) : a +:+ s = b +:+ s → a = b.
Proof.
  intros H.
  assert (String.length a = String.length b) as Hlen.
  { apply (f_equal String.length) in H. rewrite !length_append in H. lia. }
  revert b H Hlen. induction a as [|x a IH]; intros [|y b]; try done.
  rewrite !append_cons. intros [= -> H] [= Hlen]. f_equal. eauto.
Qed.

Lemma digit_word (c : ascii) : isDigit c = true → isWord c = true.
Proof. unfold isWord. intros ->. by rewrite !orb_true_r. Qed.

Lemma sanitize_word (s : string) :
  sall isWord s = true →
  replace_class re_nonword "_" (replace_class re_reserved "_" s) = s.
Proof.
  intros Hw.
  rewrite (replace_class_id re_reserved) by (eapply sall_impl; [apply word_not_reserved|done]).
  by rewrite (replace_class_id re_nonword) by (eapply sall_impl; [apply word_not_nonword|done]).
Qed.

(** ** Place markers *)

(** The underscore ends every marker, so the markers of a text are the
    same when the text is followed by the rest of the template. *)
Lemma scan_break (name : string) (state : scanning) :
  scan state (name +:+ "_%2") = scan state name ++ [Plain "_"; Marker 2 false "%2"].
Proof.
  revert state. induction name as [|c name IH]; intros state.
  - by destruct state.
  - rewrite append_cons. cbn [scan]. rewrite !IH.
    destruct state; cbn [pending app]; repeat case_match; by rewrite ?app_assoc.
Qed.

Lemma min_escape_app (ps qs : list piece) :
  min_escape (ps ++ qs)
  = match min_escape ps, min_escape qs with
    | Some m, Some n => Some (N.min m n)
    | Some m, None => Some m
    | None, o => o
    end.
Proof.
  induction ps as [|[c|e l t] ps IH]; cbn [app min_escape]; [by destruct (min_escape qs)|done|].
  rewrite IH. destruct (min_escape ps), (min_escape qs); try done.
  by rewrite N.min_assoc.
Qed.

Lemma scan_plain (name : string) :
  without "%" name = true →
  min_escape (scan Copying name) = None
  ∧ ∀ min arg larg, cat (replaced min arg larg <$> scan Copying name) = name.
Proof.
  induction name as [|c name IH]; [done|].
  unfold without. cbn [sall]. intros [Hc Hname]%andb_true_iff.
  apply negb_true_iff in Hc. cbn [scan pending app]. rewrite Hc.
  destruct (IH Hname) as [Hmin Hcat]. split; [done|].
  intros min arg larg. cbn [fmap list_fmap replaced]. by rewrite cat_cons, Hcat.
Qed.

Lemma arg_string_template (componentName : string) :
  arg_string "%1_%2" componentName = componentName +:+ "_%2".
Proof. reflexivity. Qed.

Lemma numbered_pieces (componentName : string) (count : Z) :
  ∃ min,
    min_escape (pieces componentName ++ [Plain "_"; Marker 2 false "%2"]) = Some min
    ∧ numbered componentName count
      = cat (replaced min (number_int count) (localized count)
               <$> pieces componentName ++ [Plain "_"; Marker 2 false "%2"]).
Proof.
  unfold numbered, arg_int, arg_with. rewrite arg_string_template.
  unfold pieces. rewrite scan_break.
  destruct (min_escape _) as [min|] eqn:Hmin; [by exists min|].
  rewrite min_escape_app in Hmin. by destruct (min_escape (scan Copying componentName)).
Qed.

(** The numbered name of a raw name without a percent sign is the raw name,
    an underscore and the decimal numeral of the count. *)
Lemma numbered_plain (componentName : string) (count : Z) :
  without "%" componentName = true →
  numbered componentName count = componentName +:+ "_" +:+ number_int count.
Proof.
  intros [Hmin Hcat]%scan_plain.
  destruct (numbered_pieces componentName count) as (min & Hm & ->).
  rewrite min_escape_app in Hm. unfold pieces in *. rewrite Hmin in Hm.
  injection Hm as <-. rewrite fmap_app, cat_app, Hcat.
  cbn [fmap list_fmap replaced cat foldr]. by rewrite append_nil_r.
Qed.

Lemma pretty_digits (count : Z) :
  1 ≤ count → sall isDigit (pretty count) = true ∧ pretty count ≠ "".
Proof.
  intros (q & d & -> & Hq & Hd)%pretty_pos_digits. split.
  - rewrite sall_app, Hq. cbn. by rewrite Hd.
  - by destruct q.
Qed.

(** A numbered name ends with a digit: with the last digit of the count,
    or with the digit of the place marker of the template that is left. *)
Lemma numbered_ends_digit (componentName : string) (count : Z) :
  1 ≤ count →
  ∃ a x, numbered componentName count = a +:+ String x "" ∧ isDigit x = true.
Proof.
  intros Hcount. destruct (numbered_pieces componentName count) as (min & _ & ->).
  rewrite fmap_app, cat_app. cbn [fmap list_fmap replaced cat foldr].
  rewrite append_nil_r. destruct (2 =? min)%N.
  - unfold number_int. destruct (pretty_pos_digits count Hcount) as (q & d & -> & _ & Hd).
    eexists _, d. split; [|done]. by rewrite <- !append_assoc.
  - eexists _, "2"%char. split; [|done].
    change "%2" with ("%" +:+ "2"). by rewrite <- !append_assoc.
Qed.

(** ** The sanitizer on numbered names *)

Lemma sanitized_app (a b : string) : sanitized (a +:+ b) = sanitized a +:+ sanitized b.
Proof. unfold sanitized. by rewrite !replace_class_app. Qed.

Lemma sanitized_cat (l : list string) : sanitized (cat l) = cat (sanitized <$> l).
Proof.
  induction l as [|x l IH]; [done|].
  cbn [fmap list_fmap]. by rewrite !cat_cons, sanitized_app, IH.
Qed.

(** [validFileName] on a name that passes its assertion. *)
Lemma validFileName_ok (itemName : string) :
  itemName ≠ "" → endsWith itemName FIGMA_SUFFIX = false →
  validFileName itemName = Ok (capitalized (sanitized itemName +:+ FIGMA_SUFFIX)).
Proof.
  intros Hne Hend. unfold validFileName. destruct itemName as [|c r]; [done|].
  cbn [isEmpty]. rewrite Hend. unfold Q_ASSERT. rewrite andb_false_r.
  cbn [mbind outcome_bind obind]. by rewrite !replace_class_app.
Qed.

Lemma capitalized_inj (a b : string) :
  at0 a = at0 b ∨ (isLetter (at0 a) = false ∧ isLetter (at0 b) = false) →
  capitalized a = capitalized b → a = b.
Proof.
  unfold capitalized, isLetter.
  destruct (isLower (at0 a) || isUpper (at0 a)) eqn:Ha,
           (isLower (at0 b) || isUpper (at0 b)) eqn:Hb; cbn [negb];
    intros [Heq|[? ?]]; try congruence.
  - destruct a as [|x a], b as [|y b]; try done. cbn in Heq. subst y.
    cbn. by intros [= ->].
  - change (insert0 "C" a) with (String "C"%char a).
    change (insert0 "C" b) with (String "C"%char b). cbn. by intros [= ->].
  - change (insert0 "C" a) with (String "C"%char a).
    change (insert0 "C" b) with (String "C"%char b). cbn. by intros [= ->].
Qed.

Lemma append_inj_length (a b x y : string) :
  String.length a = String.length b → a +:+ x = b +:+ y → a = b.
Proof.
  revert b. induction a as [|c a IH]; intros [|d b]; try done.
  rewrite !append_cons. intros [= Hlen] [= -> H]. f_equal. eauto.
Qed.

(** Two texts made of the same pieces, but for the pieces [hit], which are
    [d1] in the one and [d2] in the other. *)
Section Fills.

Context {A : Type} (hit : A → bool) (f1 f2 : A → string) (d1 d2 : string).
Hypothesis Hhit : ∀ a, hit a = true → f1 a = d1 ∧ f2 a = d2.
Hypothesis Hrest : ∀ a, hit a = false → f1 a = f2 a.

Lemma fills_first (l : list A) (z : string) :
  isLetter (at0 d1) = false → isLetter (at0 d2) = false →
  d1 ≠ "" → d2 ≠ "" →
  at0 (cat (f1 <$> l) +:+ z) = at0 (cat (f2 <$> l) +:+ z)
  ∨ (isLetter (at0 (cat (f1 <$> l) +:+ z)) = false
     ∧ isLetter (at0 (cat (f2 <$> l) +:+ z)) = false).
Proof using Hhit Hrest.
  intros H1 H2 Hd1 Hd2. induction l as [|a l IH]; [by left|].
  cbn [fmap list_fmap]. rewrite !cat_cons. destruct (hit a) eqn:Ha.
  - destruct (Hhit a Ha) as [-> ->]. right.
    destruct d1 as [|x1 r1], d2 as [|x2 r2]; try done.
  - rewrite (Hrest a Ha). destruct (f2 a) as [|x r]; [done|]. left. by rewrite !append_cons.
Qed.

Lemma fills_length (l : list A) :
  (String.length (cat (f1 <$> l)) + length (filter (λ a, hit a = true) l) * String.length d2
   = String.length (cat (f2 <$> l)) + length (filter (λ a, hit a = true) l) * String.length d1)%nat.
Proof using Hhit Hrest.
  induction l as [|a l IH]; [done|].
  cbn [fmap list_fmap]. rewrite !cat_cons, !length_append, filter_cons.
  destruct (hit a) eqn:Ha.
  - destruct (Hhit a Ha) as [-> ->]. rewrite decide_True by done. cbn [length]. lia.
  - rewrite (Hrest a Ha), decide_False by done. lia.
Qed.

Lemma fills_cancel (l : list A) :
  String.length d1 = String.length d2 →
  existsb hit l = true →
  cat (f1 <$> l) = cat (f2 <$> l) → d1 = d2.
Proof using Hhit Hrest.
  intros Hlen. induction l as [|a l IH]; [done|].
  cbn [existsb fmap list_fmap]. rewrite !cat_cons. destruct (hit a) eqn:Ha.
  - destruct (Hhit a Ha) as [-> ->]. intros _. by apply append_inj_length.
  - rewrite (Hrest a Ha). cbn [orb]. intros Hl H. apply IH; [done|].
    by apply (inj (String.app (f2 a))) in H.
Qed.

Lemma fills_inj (l : list A) :
  existsb hit l = true →
  cat (f1 <$> l) = cat (f2 <$> l) → d1 = d2.
Proof using Hhit Hrest.
  intros Hl H. apply (fills_cancel l); [|done..].
  pose proof (fills_length l) as Hlen. rewrite H in Hlen.
  assert (length (filter (λ a, hit a = true) l) ≠ 0)%nat as Hocc.
  { clear -Hl. induction l as [|a l IH]; [done|]. rewrite filter_cons.
    cbn [existsb] in Hl. destruct (hit a) eqn:Ha.
    - by rewrite decide_True.
    - rewrite decide_False by done. by apply IH. }
  nia.
Qed.

End Fills.

Lemma digit_not_letter (c : ascii) : isDigit c = true → isLetter c = false.
Proof. destruct c as [[] [] [] [] [] [] [] []]; by vm_compute. Qed.

Lemma min_escape_marks (ps : list piece) (min : N) :
  min_escape ps = Some min → existsb (marks min) ps = true.
Proof.
  revert min. induction ps as [|[c|e l t] ps IH]; intros min; cbn [min_escape existsb marks];
    [done|by apply IH|].
  destruct (min_escape ps) as [m|].
  - intros [= <-]. destruct (N.min_spec e m) as [[_ ->]|[_ ->]].
    + by rewrite N.eqb_refl.
    + rewrite (IH m) by done. by rewrite orb_true_r.
  - intros [= <-]. by rewrite N.eqb_refl.
Qed.

Lemma replaced_plain (min : N) (arg larg : string) (ps : list piece) :
  forallb (λ p, match p with Marker _ true _ => false | _ => true end) ps = true →
  replaced min arg larg <$> ps = replaced min arg arg <$> ps.
Proof.
  induction ps as [|p ps IH]; [done|]. cbn [forallb fmap list_fmap].
  intros [Hp Hps]%andb_true_iff. rewrite IH by done. f_equal.
  by destruct p as [c|e [] t].
Qed.

(** The numbered names of a raw name pass the assertion of the sanitizer. *)
Lemma validFileName_numbered (componentName : string) (count : Z) :
  1 ≤ count →
  validFileName (numbered componentName count)
  = Ok (capitalized (sanitized (numbered componentName count) +:+ FIGMA_SUFFIX)).
Proof.
  intros Hcount.
  destruct (numbered_ends_digit componentName count Hcount) as (a & x & E & Hx).
  apply validFileName_ok; rewrite E.
  - by destruct a.
  - by apply endsWith_digit.
Qed.

(** The sanitized numbered names of a raw name without a place marker with
    the letter L differ for different counts. *)
Lemma numbered_inj (componentName : string) (i j : Z) :
  plain_markers componentName = true → 1 ≤ i → 1 ≤ j →
  validFileName (numbered componentName i) = validFileName (numbered componentName j) →
  i = j.
Proof.
  intros Hplain Hi Hj. rewrite !validFileName_numbered by done.
  destruct (numbered_pieces componentName i) as (min & Hmin & ->).
  destruct (numbered_pieces componentName j) as (min' & Hmin' & ->).
  assert (min' = min) as -> by congruence.
  set (ps := pieces componentName ++ [Plain "_"; Marker 2 false "%2"]) in *.
  assert (forallb (λ p, match p with Marker _ true _ => false | _ => true end) ps = true)
    as Hps.
  { unfold ps. rewrite forallb_app. unfold plain_markers in Hplain. by rewrite Hplain. }
  unfold number_int.
  rewrite (replaced_plain min (pretty i) (localized i) ps Hps),
    (replaced_plain min (pretty j) (localized j) ps Hps), !sanitized_cat,
    <- !list_fmap_compose.
  destruct (pretty_digits i Hi) as [Hdi Hni], (pretty_digits j Hj) as [Hdj Hnj].
  assert (∀ p, marks min p = true →
               (sanitized ∘ replaced min (pretty i) (pretty i)) p = pretty i
               ∧ (sanitized ∘ replaced min (pretty j) (pretty j)) p = pretty j) as Hhit.
  { intros [c|e l t]; cbn [marks compose replaced]; [done|]. intros ->.
    split; destruct l; apply sanitize_word; (eapply sall_impl; [apply digit_word|done]). }
  assert (∀ p, marks min p = false →
               (sanitized ∘ replaced min (pretty i) (pretty i)) p
               = (sanitized ∘ replaced min (pretty j) (pretty j)) p) as Hrest.
  { intros [c|e l t]; cbn [marks compose replaced]; [done|]. by intros ->. }
  intros [= H]. apply capitalized_inj in H.
  - apply append_inj_r in H.
    apply (fills_inj _ _ _ _ _ Hhit Hrest ps (min_escape_marks _ _ Hmin)) in H.
    by apply (inj pretty).
  - apply (fills_first _ _ _ _ _ Hhit Hrest); try done.
    + destruct (pretty i) as [|x r]; [done|]. cbn in Hdi.
      apply andb_true_iff in Hdi as [Hx _]. by apply digit_not_letter.
    + destruct (pretty j) as [|x r]; [done|]. cbn in Hdj.
      apply andb_true_iff in Hdj as [Hx _]. by apply digit_not_letter.
Qed.

(** ** Component catalogue *)

Lemma getObjectsByType_fold_sound (P : string → QJsonObject → Prop)
    (f : QJsonValue → gmap string QJsonObject) (children : QJsonArray) :
  (∀ c k o, c ∈ children → f c !! k = Some o → P k o) →
  ∀ objects : gmap string QJsonObject,
    (∀ k o, objects !! k = Some o → P k o) →
    ∀ k o, foldl (λ objects child, f child ∪ objects) objects children !! k = Some o → P k o.
Proof.
  induction children as [|c children IH]; intros Hf objects Hobjects k o; cbn [foldl].
  - apply Hobjects.
  - apply IH.
    + intros c' k' o' Hc'. apply Hf. by right.
    + intros k' o' [H|[_ H]]%lookup_union_Some_raw; [|by apply Hobjects].
      apply (Hf c); [left|done].
Qed.

Lemma getObjectsByType_fuel_sound (type : string) (fuel : nat) :
  ∀ (obj : QJsonObject) (k : string) (o : QJsonObject),
    getObjectsByType_fuel fuel obj type !! k = Some o →
    is_str (jvalue o "type") type = true ∧ toString (jvalue o "id") = k.
Proof.
  induction fuel as [|fuel IH]; intros obj k o; cbn [getObjectsByType_fuel]; [done|].
  destruct (is_str (jvalue obj "type") type) eqn:Htype.
  - by intros [<- <-]%lookup_singleton_Some.
  - destruct (jcontains obj "children"); [|done].
    apply (getObjectsByType_fold_sound
             (λ k o, is_str (jvalue o "type") type = true ∧ toString (jvalue o "id") = k)
             (λ child, getObjectsByType_fuel fuel (toObject child) type)); [|done].
    intros c k' o' _. apply IH.
Qed.

Lemma size_list_to_set_le (l : list string) :
  (base.size (list_to_set l : gset string) ≤ length l)%nat.
Proof.
  induction l as [|x l IH]; [done|]. cbn [list_to_set length].
  rewrite size_union_alt, size_singleton.
  assert (list_to_set l ∖ {[x]} ⊆ (list_to_set l : gset string)) as H by set_solve.
  apply subseteq_size in H. lia.
Qed.

Lemma catalogue_names_lookup (map : Components) (k : string) (c : Component.t) :
  map !! k = Some c → Component.m_name c ∈ catalogue_names map.
Proof.
  intros H. unfold catalogue_names.
  apply list_elem_of_fmap. exists c. split; [done|].
  apply list_elem_of_fmap. exists (k, c). split; [done|].
  by apply elem_of_map_to_list.
Qed.

Lemma catalogue_names_inv (map : Components) (n : string) :
  n ∈ catalogue_names map → ∃ k c, map !! k = Some c ∧ Component.m_name c = n.
Proof.
  unfold catalogue_names.
  intros (c & -> & ([k c'] & -> & H%elem_of_map_to_list)%list_elem_of_fmap)%list_elem_of_fmap.
  eauto.
Qed.

Lemma Component_name_valid (c : Component.t) :
  name_valid (Component.m_name c) → Component_name c = Ok (Component.m_name c).
Proof.
  unfold Component_name. destruct QT_DEBUG eqn:Hdbg; [|done].
  intros [H|H].
  - by rewrite H.
  - by rewrite H.
Qed.

Lemma name_taken_spec (cs : list Component.t) (u : string) :
  Forall (λ c, name_valid (Component.m_name c)) cs →
  name_taken cs u = Ok (bool_decide (u ∈ Component.m_name <$> cs)).
Proof.
  induction 1 as [|c cs Hc Hcs IH]; [done|].
  cbn [name_taken]. rewrite (Component_name_valid c Hc). cbn.
  destruct (String.eqb_spec (Component.m_name c) u) as [->|Hne].
  - rewrite bool_decide_eq_true_2; [done|]. set_solve.
  - rewrite IH. f_equal. apply bool_decide_ext. set_solve.
Qed.

Lemma name_taken_catalogue (map : Components) (u : string) :
  names_valid map →
  name_taken (map_to_list map).*2 u = Ok (bool_decide (u ∈ catalogue_names map)).
Proof.
  intros Hv. apply name_taken_spec.
  apply Forall_forall. intros c ([k c'] & -> & H%elem_of_map_to_list)%list_elem_of_fmap.
  by eapply Hv.
Qed.

Lemma name_taken_false (cs : list Component.t) (u : string) :
  name_taken cs u = Ok false → u ∉ Component.m_name <$> cs.
Proof.
  induction cs as [|c cs IH]; cbn [name_taken fmap list_fmap]; [set_solve|].
  assert (∀ n, Component_name c = Ok n → n = Component.m_name c) as Hname.
  { unfold Component_name. intros n.
    destruct QT_DEBUG; [|by intros [= <-]].
    destruct (endsWith _ _); [by intros [= <-]|].
    destruct (validFileName _) as [v| |]; [|done..]. cbn.
    destruct (Q_ASSERT _ _); [|done..]. by intros [= <-]. }
  destruct (Component_name c) as [n| |]; [|done..]. cbn.
  rewrite (Hname n eq_refl).
  destruct (String.eqb_spec (Component.m_name c) u) as [->|Hne]; [done|].
  intros H%IH. set_solve.
Qed.

(** What the [while] loop of [components] returns is a name that no
    registered component has: the name it started from, or the sanitized
    numbered name of some count. *)
Lemma uniqueName_loop_sound (map : Components) (componentName : string) (fuel : nat) :
  ∀ (u : string) (count : Z) (u' : string),
    uniqueName_loop fuel map componentName u count = Ok u' →
    (u' ∉ catalogue_names map)
    ∧ (u' = u ∨ ∃ j, count ≤ j ∧ validFileName (numbered componentName j) = Ok u').
Proof.
  induction fuel as [|fuel IH]; intros u count u'; cbn [uniqueName_loop]; [done|].
  destruct (name_taken _ u) as [[]| |] eqn:Htaken; cbn; [|intros [= <-]|done..].
  - destruct (validFileName (numbered componentName count)) as [v| |] eqn:Hv; [|done..].
    cbn. intros [Hnot Hor]%IH. split; [done|]. right.
    destruct Hor as [->|(j & Hj & Hu')]; [by exists count|].
    exists j. split; [lia|done].
  - split; [|by left]. by apply name_taken_false in Htaken.
Qed.

(** The [while] loop of [components] ends within the tests that its model
    allows, for a raw name without a place marker with the letter L: the
    numbered names differ from each other, so one of the first of them,
    one more than there are components, is free. *)
Lemma uniqueName_loop_ends (map : Components) (componentName : string) :
  names_valid map → plain_markers componentName = true →
  ∀ (fuel : nat) (R : gset string) (u : string) (count : Z),
    1 ≤ count →
    (∀ j v, count ≤ j → validFileName (numbered componentName j) = Ok v →
            v ∈ catalogue_names map → v ∈ R) →
    (1 ≤ fuel)%nat →
    (u ∈ catalogue_names map → (2 + base.size R ≤ fuel)%nat) →
    ∃ u', uniqueName_loop fuel map componentName u count = Ok u'.
Proof.
  intros Hv Hplain fuel. induction fuel as [|fuel IH]; intros R u count Hc HR Hf Hu; [lia|].
  cbn [uniqueName_loop]. rewrite (name_taken_catalogue _ _ Hv). cbn.
  case_bool_decide as Htaken; [|by eauto].
  rewrite (validFileName_numbered componentName count Hc). cbn.
  specialize (Hu Htaken).
  set (cand := capitalized (sanitized (numbered componentName count) +:+ FIGMA_SUFFIX)).
  apply (IH (R ∖ {[cand]}) cand (count + 1)).
  - lia.
  - intros j v Hj Hjv Hin. apply elem_of_difference. split; [apply (HR j); [lia|done..]|].
    intros ->%elem_of_singleton.
    assert (j = count); [|lia].
    apply (numbered_inj componentName); [done|lia|lia|].
    by rewrite Hjv, validFileName_numbered.
  - lia.
  - intros Hin. apply (HR count) in Hin; [|lia|by apply validFileName_numbered].
    rewrite size_difference by set_solve. rewrite size_singleton.
    assert (base.size R ≠ 0)%nat; [|lia].
    apply size_non_empty_iff. set_solve.
Qed.

Lemma uniqueName_loop_returns (map : Components) (componentName u : string) :
  names_valid map → plain_markers componentName = true →
  ∃ u', uniqueName_loop (S (S (base.size map))) map componentName u 1 = Ok u'.
Proof.
  intros Hv Hplain.
  apply (uniqueName_loop_ends map componentName Hv Hplain _
           (list_to_set (catalogue_names map))).
  - lia.
  - intros j v _ _ ?. by apply elem_of_list_to_set.
  - lia.
  - intros _. pose proof (size_list_to_set_le (catalogue_names map)) as Hle.
    unfold catalogue_names in Hle at 2.
    rewrite !length_fmap, length_map_to_list in Hle. lia.
Qed.

Lemma validFileName_valid (itemName name : string) :
  validFileName itemName = Ok name → name_valid name.
Proof.
  intros H. destruct (decide (itemName = "")) as [->|Hne].
  - cbn in H. simplify_eq. by left.
  - right. destruct (validFileName_shape _ _ Hne H) as (u & body & -> & _).
    rewrite <- append_cons. apply endsWith_app.
Qed.

(** One registration keeps the names of the catalogue unique: the new
    component gets a name that no registered component has. *)
Lemma registerComponent_unique (nodes : string → string) (components : QJsonObject)
    (key : string) (st st' : gmap string QJsonObject * Components) :
  names_distinct st.2 →
  registerComponent nodes components key st = Ok st' →
  ∃ c, st'.2 = <[key := c]> st.2
       ∧ (Component.m_name c ∉ catalogue_names st.2)
       ∧ named_from components key c
       ∧ names_distinct st'.2.
Proof.
  destruct st as [cos map], st' as [cos' map']. cbn [snd].
  intros Hd. unfold registerComponent.
  match goal with |- context [mbind _ ?m] => destruct m as [cos1| |] end; [|done..].
  cbn [mbind outcome_bind obind].
  set (componentName := toString (jvalue (toObject (jvalue components key)) "name")).
  destruct (validFileName componentName) as [u0| |] eqn:Hu0; [|done..].
  cbn [mbind outcome_bind obind].
  destruct (uniqueName_loop _ _ _ _ _) as [u| |] eqn:Hloop; [|done..].
  apply uniqueName_loop_sound in Hloop as [Hnot Hor].
  cbn [mbind outcome_bind obind]. intros [= <- <-].
  eexists. split; [done|]. cbn [Component.m_name].
  split; [done|]. split.
  - unfold named_from. fold componentName. cbn [Component.m_name].
    destruct Hor as [->|(j & Hj & Hu)]; [by left|right].
    exists j. split; [lia|done].
  - intros k1 k2 c1 c2 H1 H2 Hne.
    destruct (decide (k1 = key)) as [->|Hk1], (decide (k2 = key)) as [->|Hk2];
      simplify_map_eq; cbn [Component.m_name].
    + intros ->. by apply Hnot, (catalogue_names_lookup map k2).
    + intros <-. by apply Hnot, (catalogue_names_lookup map k1).
    + by eapply Hd.
Qed.

Lemma registerAll_unique (nodes : string → string) (components : QJsonObject)
    (keys : list string) (st st' : gmap string QJsonObject * Components) (r : outcome unit) :
  names_distinct st.2 →
  (∀ k c, st.2 !! k = Some c → named_from components k c) →
  registerAll nodes components keys st = (st', r) →
  names_distinct st'.2
  ∧ (∀ k c, st'.2 !! k = Some c → named_from components k c).
Proof.
  revert st. induction keys as [|key keys IH]; intros st Hd Hn; cbn [registerAll].
  { by intros [= <- _]. }
  destruct (registerComponent nodes components key st) as [st1| |] eqn:Hreg;
    [|by intros [= <- _]..].
  destruct (registerComponent_unique _ _ _ _ _ Hd Hreg) as (c & Hst1 & _ & Hc & Hd1).
  apply IH; [done|].
  intros k c' Hk. rewrite Hst1 in Hk.
  destruct (decide (k = key)) as [->|Hne]; simplify_map_eq; [done|by apply Hn].
Qed.

(** One registration returns or throws: the assertions hold and the
    [while] loop ends, for a raw name without a place marker with the
    letter L that, in a debug build, does not end with the suffix. *)
Lemma registerComponent_returns (nodes : string → string) (components : QJsonObject)
    (key : string) (st : gmap string QJsonObject * Components) :
  names_valid st.2 →
  plain_markers (raw_name components key) = true →
  (QT_DEBUG = true → endsWith (raw_name components key) FIGMA_SUFFIX = false) →
  (∃ st', registerComponent nodes components key st = Ok st' ∧ names_valid st'.2)
  ∨ (∃ what, registerComponent nodes components key st = Throw what).
Proof.
  destruct st as [cos map]. cbn [snd]. intros Hv Hplain Hend. unfold registerComponent.
  match goal with |- context [mbind _ ?m] =>
    assert ((∃ cos1, m = Ok cos1) ∨ (∃ what, m = Throw what)) as [[cos1 ->]|[what ->]]
  end.
  { unfold ERR. repeat case_match; eauto. }
  2: { right. by exists what. }
  left. cbn [mbind outcome_bind obind]. fold (raw_name components key).
  assert (∃ u0, validFileName (raw_name components key) = Ok u0) as [u0 Hu0].
  { unfold validFileName. destruct (isEmpty _); [by eexists|].
    unfold Q_ASSERT. destruct QT_DEBUG; [rewrite Hend by done|]; by eexists. }
  rewrite Hu0. cbn [mbind outcome_bind obind].
  destruct (uniqueName_loop_returns map (raw_name components key) u0 Hv Hplain)
    as [u Hloop].
  rewrite Hloop. cbn [mbind outcome_bind obind]. eexists. split; [done|]. cbn [snd].
  apply uniqueName_loop_sound in Hloop as [_ Hor].
  intros k c [[<- <-]|[_ Hk]]%lookup_insert_Some; [|by eapply Hv].
  cbn [Component.m_name]. destruct Hor as [->|(j & _ & Hj)]; by eapply validFileName_valid.
Qed.

Lemma registerAll_returns (nodes : string → string) (components : QJsonObject)
    (keys : list string) :
  (∀ key, key ∈ keys →
     plain_markers (raw_name components key) = true
     ∧ (QT_DEBUG = true → endsWith (raw_name components key) FIGMA_SUFFIX = false)) →
  ∀ st, names_valid st.2 →
    ∃ st' r, registerAll nodes components keys st = (st', r) ∧ r ≠ Crash.
Proof.
  induction keys as [|key keys IH]; intros Hkeys st Hv; cbn [registerAll]; [by eexists _, _|].
  destruct (Hkeys key) as [Hplain Hend]; [by left|].
  destruct (registerComponent_returns nodes components key st Hv Hplain Hend)
    as [(st1 & -> & Hv1)|(what & ->)].
  - apply IH; [|done]. intros k Hk. apply Hkeys. by right.
  - by eexists _, _.
Qed.

Lemma registerAll_app (nodes : string → string) (components : QJsonObject)
    (pre rest : list string) (st : gmap string QJsonObject * Components) :
  registerAll nodes components (pre ++ rest) st
  = match registerAll nodes components pre st with
    | (st', Ok _) => registerAll nodes components rest st'
    | r => r
    end.
Proof.
  revert st. induction pre as [|key pre IH]; intros st; [done|].
  cbn [app registerAll]. by destruct (registerComponent _ _ _ _).
Qed.

Lemma registerComponent_fails (nodes : string → string) (components : QJsonObject)
    (key : string) (st : gmap string QJsonObject * Components) :
  st.1 !! key = None → remote_lookup_fails nodes key →
  ∃ what, registerComponent nodes components key st = Throw what
    ∧ what ∈ [Exception ("Component not found " +:+ key +:+ " for");
              Exception ("Invalid component " +:+ key);
              Exception ("Unrecognized component " +:+ key)].
Proof.
  destruct st as [cos map]. cbn [fst]. intros Hkey Hfail.
  unfold remote_lookup_fails in Hfail.
  unfold registerComponent. rewrite Hkey.
  rewrite bool_decide_eq_false_2 by (by intros [? ?]). cbn [negb].
  destruct (nodes key) as [|ch response] eqn:Hresp; cbn [isEmpty].
  { eexists. split; [done|]. set_solve. }
  destruct Hfail as [?|[Hparse|(doc & Hparse & Hmiss)]]; [done|..]; rewrite Hparse.
  - rewrite bool_decide_eq_false_2 by (by intros [? ?]).
    eexists. split; [done|]. set_solve.
  - rewrite bool_decide_eq_true_2 by done.
    change (default JUndefined (Some doc)) with doc. rewrite Hmiss.
    eexists. split; [done|]. set_solve.
Qed.

(** The loop of [components] registers the keys in order and stops at the
    first one that fails. *)
Lemma registerAll_prefix (nodes : string → string) (components : QJsonObject)
    (keys : list string) (st st' : gmap string QJsonObject * Components) (r : outcome unit) :
  registerAll nodes components keys st = (st', r) →
  ∃ pre post, keys = pre ++ post
    ∧ registerAll nodes components pre st = (st', Ok ())
    ∧ (r = Ok () → post = []).
Proof.
  revert st. induction keys as [|key keys IH]; intros st; cbn [registerAll].
  { intros [= <- <-]. by exists [], []. }
  destruct (registerComponent nodes components key st) as [st1| |] eqn:Hreg.
  - intros (pre & post & -> & Hpre & Hpost)%IH.
    exists (key :: pre), post. cbn [app registerAll]. by rewrite Hreg.
  - intros [= <- <-]. by exists [], (key :: keys).
  - intros [= <- <-]. by exists [], (key :: keys).
Qed.

Lemma registerComponent_registered (nodes : string → string) (components : QJsonObject)
    (key : string) (st st' : gmap string QJsonObject * Components) :
  (∀ k o, st.1 !! k = Some o → component_node_of k o) →
  registerComponent nodes components key st = Ok st' →
  (∀ k o, st'.1 !! k = Some o → component_node_of k o)
  ∧ ∃ c, st'.2 = <[key := c]> st.2 ∧ registered_from components key c.
Proof.
  destruct st as [objects map]. cbn [fst snd]. intros Hobjects.
  unfold registerComponent. munfold.
  assert (∀ objects' : gmap string QJsonObject,
            (∀ k o, objects' !! k = Some o → component_node_of k o) →
            is_Some (objects' !! key) →
            component_node_of key (default [] (objects' !! key))) as Hfound.
  { intros objects' H [o Ho]. rewrite Ho. by apply H. }
  case_bool_decide as Hkey; cbn [negb].
  - destruct (validFileName _) as [u| |]; [|done..].
    destruct (uniqueName_loop _ _ _ _ _) as [u'| |]; [|done..].
    intros [= <-]. split; [done|]. eexists. split; [done|].
    repeat split; by apply Hfound.
  - destruct (isEmpty (nodes key)); [done|].
    case_bool_decide; [|done].
    destruct (getObjectsByType _ "COMPONENT" !! key) as [received|] eqn:Hreceived; [|done].
    apply getObjectsByType_fuel_sound in Hreceived.
    destruct (validFileName _) as [u| |]; [|done..].
    destruct (uniqueName_loop _ _ _ _ _) as [u'| |]; [|done..].
    intros [= <-]. cbn [fst snd].
    assert (∀ k o, <[key := received]> objects !! k = Some o → component_node_of k o) as H'.
    { intros k o [[<- <-]|[_ ?]]%lookup_insert_Some; [done|by apply Hobjects]. }
    split; [done|]. eexists. split; [done|].
    repeat split; apply Hfound; try done; by rewrite lookup_insert_eq.
Qed.

Lemma registerAll_registered (nodes : string → string) (components : QJsonObject)
    (keys : list string) :
  ∀ (st st' : gmap string QJsonObject * Components),
    (∀ k o, st.1 !! k = Some o → component_node_of k o) →
    (∀ k c, st.2 !! k = Some c → registered_from components k c) →
    registerAll nodes components keys st = (st', Ok ()) →
    dom st'.2 = list_to_set keys ∪ dom st.2
    ∧ ∀ k c, st'.2 !! k = Some c → registered_from components k c.
Proof.
  induction keys as [|key keys IH]; intros st st' Hobjects Hmap; cbn [registerAll].
  - intros [= <-]. split; [set_solve|done].
  - destruct (registerComponent nodes components key st) as [st1| |] eqn:Hstep; [|done..].
    destruct (registerComponent_registered _ _ _ _ _ Hobjects Hstep)
      as (Hobjects1 & c & Hst1 & Hc).
    intros Hrest. apply IH in Hrest as [Hdom Hall]; [|done|].
    + split; [|done]. rewrite Hdom, Hst1, dom_insert_L. set_solve.
    + rewrite Hst1. intros k c' [[<- <-]|[_ ?]]%lookup_insert_Some; [done|by apply Hmap].
Qed.

(** C9: the catalogue that [components] returns holds the components of
    the keys of the table, in their order, up to the first one whose
    registration fails, and all of them when no issue is reported.  Its
    sanitized names are pairwise distinct.  Every name in it is the
    sanitized raw name of its component or, when that one was taken, the
    sanitized numbered name of the raw name for some count; of two
    components with the same raw name at least one has a numbered name.
    The numbered name of a raw name without a percent sign is the raw name
    with an underscore and the counter appended. *)
Theorem components_names_unique (project : QJsonObject) (nodes : string → string)
    (map : Components) (issues : list issue) :
  components project nodes = Some (map, issues) →
  names_distinct map
  ∧ (∃ pre post,
       jkeys (toObject (jvalue project "components")) = pre ++ post
       ∧ dom map = list_to_set pre
       ∧ (issues = [] → post = []))
  ∧ (∀ key c, map !! key = Some c →
       named_from (toObject (jvalue project "components")) key c)
  ∧ (∀ k1 k2 c1 c2, map !! k1 = Some c1 → map !! k2 = Some c2 → k1 ≠ k2 →
       raw_name (toObject (jvalue project "components")) k1
       = raw_name (toObject (jvalue project "components")) k2 →
       ∃ count, 1 ≤ count
         ∧ (validFileName (numbered (raw_name (toObject (jvalue project "components")) k1)
                             count) = Ok (Component.m_name c1)
            ∨ validFileName (numbered (raw_name (toObject (jvalue project "components")) k1)
                               count) = Ok (Component.m_name c2)))
  ∧ (∀ componentName count,
       without "%" componentName = true →
       numbered componentName count = componentName +:+ "_" +:+ number_int count).
Proof.
  unfold components.
  destruct (registerAll _ _ _ _) as [[cos map'] r] eqn:Hall.
  pose proof Hall as Hprefix.
  apply registerAll_unique in Hall as (Hd & Hn); [|done..].
  apply registerAll_prefix in Hprefix as (pre & post & Hkeys & Hpre & Hpost).
  apply registerAll_registered in Hpre as [Hdom _]; cbn [fst snd] in *.
  - intros Hresult.
    assert (map' = map ∧ (issues = [] → r = Ok ())) as [-> Hr].
    { destruct r as [[]| |]; by simplify_eq. }
    split; [done|]. split; [|split; [done|split; [|apply numbered_plain]]].
    + exists pre, post. split; [done|]. split; [|by intros ?%Hr%Hpost].
      rewrite Hdom, dom_empty_L. set_solve.
    + intros k1 k2 c1 c2 H1 H2 Hne Hraw.
      destruct (Hn k1 c1 H1) as [Hn1|(j & Hj & Hn1)]; [|exists j; by auto].
      destruct (Hn k2 c2 H2) as [Hn2|(j & Hj & Hn2)].
      * unfold raw_name in Hraw. rewrite Hraw, Hn2 in Hn1. injection Hn1 as Hn1.
        by destruct (Hd k1 k2 c1 c2 H1 H2 Hne).
      * exists j. split; [done|]. right. unfold raw_name in *. by rewrite Hraw.
  - intros k o. apply getObjectsByType_fuel_sound.
  - by intros k c ?%lookup_empty_Some.
Qed.

(** C7 (amended): when the registration of a component fails because its
    body cannot be obtained (the remote lookup returns no bytes, the reply
    does not parse, or the component is missing from the reply),
    [components] does not propagate the exception: it reports it through the
    error callback with [isFatal = true] and returns the catalogue built so
    far.  That catalogue has one entry for every key of the table before the
    failing one and no other, each with the fields of its key in the table
    and its component node; it is empty only when the first registration
    fails. *)
Theorem components_failure (project : QJsonObject) (nodes : string → string)
    (pre post : list string) (key : string) (st : gmap string QJsonObject * Components) :
  jkeys (toObject (jvalue project "components")) = pre ++ key :: post →
  registerAll nodes (toObject (jvalue project "components")) pre
    (getObjectsByType (toObject (jvalue project "document")) "COMPONENT", ∅) = (st, Ok ()) →
  st.1 !! key = None →
  remote_lookup_fails nodes key →
  ∃ what, components project nodes = Some (st.2, [(what, true)])
    ∧ what ∈ [Exception ("Component not found " +:+ key +:+ " for");
              Exception ("Invalid component " +:+ key);
              Exception ("Unrecognized component " +:+ key)]
    ∧ dom st.2 = list_to_set pre
    ∧ (∀ k c, st.2 !! k = Some c →
         registered_from (toObject (jvalue project "components")) k c)
    ∧ (st.2 = ∅ ↔ pre = []).
Proof.
  intros Hkeys Hpre Hkey Hfail.
  destruct (registerComponent_fails nodes (toObject (jvalue project "components")) key st
              Hkey Hfail) as (what & Hthrow & Hwhat).
  exists what. split; [|split; [done|]].
  { unfold components. rewrite Hkeys, registerAll_app, Hpre.
    cbn [registerAll]. rewrite Hthrow. by destruct st. }
  apply registerAll_registered in Hpre as [Hdom Hreg]; cbn [fst snd] in *.
  - assert (dom st.2 = list_to_set pre) as Hdom'.
    { rewrite Hdom, dom_empty_L. set_solve. }
    split; [done|]. split; [done|]. split.
    + intros Hempty. rewrite Hempty, dom_empty_L in Hdom'.
      destruct pre as [|k pre]; [done|]. set_solve.
    + intros ->. apply dom_empty_inv_L. by rewrite Hdom'.
  - intros k o. apply getObjectsByType_fuel_sound.
  - by intros k c ?%lookup_empty_Some.
Qed.
(** ** Tables and values *)

Lemma assoc_None {V : Type} (table : list (string * V)) (key : string) :
  key ∉ table.*1 → assoc table key = None.
Proof.
  induction table as [|[k v] table IH]; [done|]. cbn [assoc fmap list_fmap fst].
  intros Hnot. destruct (String.eqb_spec k key) as [->|Hne]; [set_solve|].
  apply IH. set_solve.
Qed.

Lemma is_str_eq (v : QJsonValue) (s : string) : is_str v s = true ↔ v = JString s.
Proof.
  unfold is_str. destruct v; cbn; try (split; [done|by intros [=]]).
  rewrite String.eqb_eq. split; [by intros ->|by intros [= ->]].
Qed.

Lemma jcontains_value (obj : QJsonObject) (key : string) :
  jvalue obj key ≠ JUndefined → jcontains obj key = true.
Proof.
  induction obj as [|[k v] obj IH]; [done|]. cbn.
  destruct (String.eqb k key); [done|]. apply IH.
Qed.

Lemma jcontains_toString (obj : QJsonObject) (key s : string) :
  toString (jvalue obj key) = s → s ≠ "" → jcontains obj key = true.
Proof.
  intros H Hs. apply jcontains_value. intros Hu. rewrite Hu in H. by subst.
Qed.

(** ** Dispatch *)

Lemma parsers_keys (this : FigmaParser) (rec : QJsonObject → Z → method string) :
  (parsers this rec).*1 = supported_types.
Proof. reflexivity. Qed.

Lemma types_keys : types.*1 = supported_types.
Proof. reflexivity. Qed.

Lemma parse_unfold (this : FigmaParser) (obj : QJsonObject) (intendents : Z) :
  ∃ fuel, parse this obj intendents = parse_node this (parse_fuel this fuel) obj intendents.
Proof. unfold parse. cbn [depth parse_fuel]. eexists. reflexivity. Qed.

Lemma parse_unknown (this : FigmaParser) (obj : QJsonObject) (intendents : Z) (st : members) :
  toString (jvalue obj "type") ∉ supported_types →
  parse this obj intendents st = Throw (unsupported_type (toString (jvalue obj "type"))).
Proof.
  intros Hnot. destruct (parse_unfold this obj intendents) as [fuel ->].
  unfold parse_node. rewrite assoc_None; [done|]. by rewrite parsers_keys.
Qed.

(** C1: a node whose type string is none of the fourteen supported ones
    makes [parse] throw; [element] then reports the exception through the
    error callback with [isFatal = true] and returns the default element,
    whose markup is empty. *)
Theorem unknown_type_is_fatal (this : FigmaParser) (obj : QJsonObject) (intendents : Z)
    (st : members) (flags : Z) (data : string → bool → string)
    (resolveFont : string → string) (components : Components) :
  toString (jvalue obj "type") ∉ supported_types →
  parse this obj intendents st = Throw (unsupported_type (toString (jvalue obj "type")))
  ∧ element obj flags data resolveFont components
    = Some (Element.empty, [(unsupported_type (toString (jvalue obj "type")), true)])
  ∧ Element.data Element.empty = "".
Proof.
  intros Hnot. split; [by apply parse_unknown|]. split; [|done].
  unfold element, getElement. munfold. cbn [set_parent].
  by rewrite parse_unknown.
Qed.

Lemma itemType_of (obj : QJsonObject) (type : string) (t : ItemType) :
  toString (jvalue obj "type") = type → assoc types type = Some t → itemType obj = Ok t.
Proof. intros Htype Ht. unfold itemType. by rewrite Htype, Ht. Qed.

Lemma getValue_not_instance (this : FigmaParser) (obj : QJsonObject) (key : string)
    (t : ItemType) :
  itemType obj = Ok t → t ≠ Instance → ∃ v, getValue this obj key = Ok v.
Proof.
  intros Ht Hne. unfold getValue. cbn [getValue_fuel].
  destruct (jcontains obj key); [by eauto|].
  rewrite Ht. cbn. rewrite bool_decide_eq_false_2 by done. by eauto.
Qed.

Lemma makeExtents_axis_ok (this : FigmaParser) (obj : QJsonObject) (intendent : string)
    (constraint : string) (fixed : list string) (axis dim : string) (t : Z) (st : members) :
  (∃ v, getValue this obj "size" = Ok v) →
  ∃ s, makeExtents_axis this obj intendent constraint fixed axis dim t st = Ok (s, st).
Proof.
  intros [v Hv]. unfold makeExtents_axis. rewrite Hv.
  repeat case_match; by eauto.
Qed.

Lemma makeExtents_ok (this : FigmaParser) (obj : QJsonObject) (intendents : Z)
    (extents : QRectF) (st : members) :
  (∃ v, getValue this obj "size" = Ok v) →
  ∃ e, makeExtents this obj intendents extents st = Ok (e, st).
Proof.
  intros Hv. unfold makeExtents. munfold.
  destruct (jcontains obj "relativeTransform"); [|by eauto].
  edestruct (makeExtents_axis_ok this obj) as [h ->]; [done|].
  edestruct (makeExtents_axis_ok this obj) as [v ->]; [done|].
  by eauto.
Qed.

Lemma makeComponentInstance_ok (type : string) (obj : QJsonObject) (intendents : Z) :
  identified obj → ∃ s, makeComponentInstance type obj intendents = Ok s.
Proof.
  intros Hid. unfold identified in Hid. unfold makeComponentInstance, Q_ASSERT.
  destruct QT_DEBUG; [rewrite Hid by done|]; cbn; by eauto.
Qed.

Lemma makeItem_ok (type : string) (obj : QJsonObject) (intendents : Z) :
  identified obj → ∃ item, makeItem type obj intendents = Ok item.
Proof.
  intros Hid. unfold makeItem.
  destruct (makeComponentInstance_ok type obj intendents Hid) as [s ->]. cbn. by eauto.
Qed.

Lemma isRendering_boolean (this : FigmaParser) (obj : QJsonObject) :
  toString (jvalue obj "type") = "BOOLEAN_OPERATION" →
  toBool (jvalue obj "isRendering") = false →
  isRendering this obj = Ok false.
Proof.
  intros Htype Hr. unfold isRendering. rewrite Hr.
  rewrite (itemType_of obj "BOOLEAN_OPERATION" Boolean) by done.
  cbn. by rewrite Htype.
Qed.

Lemma isRendering_slice (this : FigmaParser) (obj : QJsonObject) :
  toString (jvalue obj "type") = "SLICE" →
  toBool (jvalue obj "isRendering") = false →
  isRendering this obj = Ok false.
Proof.
  intros Htype Hr. unfold isRendering. rewrite Hr.
  rewrite (itemType_of obj "SLICE" None_) by done.
  cbn. by rewrite Htype.
Qed.

Lemma parse_boolean (this : FigmaParser) (obj : QJsonObject) (intendents : Z) (st : members) :
  toString (jvalue obj "type") = "BOOLEAN_OPERATION" →
  toBool (jvalue obj "isRendering") = false →
  ∃ fuel, parse this obj intendents st
          = parseBooleanOperation this (parse_fuel this fuel) obj intendents st.
Proof.
  intros Htype Hr. destruct (parse_unfold this obj intendents) as [fuel ->].
  exists fuel. unfold parse_node. rewrite Htype.
  change (assoc (parsers this (parse_fuel this fuel)) "BOOLEAN_OPERATION")
    with (Some (parseBooleanOperation this (parse_fuel this fuel))).
  munfold. by rewrite isRendering_boolean.
Qed.

Lemma has_flag_land (flags flag : Z) :
  (Z.land flags flag =? 0) = negb (has_flag flags flag).
Proof. unfold has_flag. by rewrite negb_involutive. Qed.

Lemma parseBooleanOperation_unsupported (this : FigmaParser)
    (rec : QJsonObject → Z → method string) (obj : QJsonObject) (intendents : Z)
    (st : members) :
  toString (jvalue obj "type") = "BOOLEAN_OPERATION" →
  has_flag (m_flags this) BreakBooleans = true →
  2 ≤ qsize (toArray (jvalue obj "children")) →
  toString (jvalue obj "booleanOperation") ∉ supported_operations →
  identified obj →
  parseBooleanOperation this rec obj intendents st = Ok ("", st).
Proof.
  intros Htype Hflag Hsize Hop Hid. unfold parseBooleanOperation.
  rewrite has_flag_land, Hflag. cbn [negb].
  destruct (Z.ltb_spec (qsize (toArray (jvalue obj "children"))) 2) as [?|_]; [lia|].
  unfold parseBooleanOperation_body. munfold.
  destruct (makeItem_ok "Item" obj intendents Hid) as [item ->].
  edestruct (makeExtents_ok this obj intendents QRectF_zero st) as [e ->].
  { eapply getValue_not_instance; [by apply (itemType_of obj "BOOLEAN_OPERATION" Boolean)|done]. }
  unfold supported_operations in Hop.
  destruct (String.eqb_spec (toString (jvalue obj "booleanOperation")) "UNION")
    as [Heq|_]; [rewrite Heq in Hop; set_solve|].
  destruct (String.eqb_spec (toString (jvalue obj "booleanOperation")) "SUBTRACT")
    as [Heq|_]; [rewrite Heq in Hop; set_solve|].
  destruct (String.eqb_spec (toString (jvalue obj "booleanOperation")) "INTERSECT")
    as [Heq|_]; [rewrite Heq in Hop; set_solve|].
  destruct (String.eqb_spec (toString (jvalue obj "booleanOperation")) "EXCLUDE")
    as [Heq|_]; [rewrite Heq in Hop; set_solve|].
  done.
Qed.



(** ** Texts that hold given pieces *)

Lemma holds_skip (pats : list string) (x s : string) :
  holds_in_order pats s → holds_in_order pats (x +:+ s).
Proof.
  destruct pats as [|p pats]; [done|]. intros (a & b & -> & H).
  exists (x +:+ a), b. by rewrite append_assoc.
Qed.

Lemma holds_take (p : string) (pats : list string) (a b s : string) :
  holds_in_order pats s → holds_in_order (p :: pats) ((a +:+ p +:+ b) +:+ s).
Proof.
  intros H. exists a, (b +:+ s). split; [by rewrite !append_assoc|].
  by apply holds_skip.
Qed.

Lemma holds_nil (pats : list string) : pats = [] → holds_in_order pats "".
Proof. by intros ->. Qed.

Ltac hold :=
  rewrite ?cat_app; rewrite ?cat_cons;
  repeat first [ exact I | apply holds_take | apply holds_skip ].

(** ** Stroke and fill strategies *)

Lemma hasBorders_spec (obj : QJsonObject) :
  hasBorders obj = true ↔ nontrivial_stroke obj.
Proof.
  unfold hasBorders, nontrivial_stroke. rewrite !andb_true_iff, negb_true_iff.
  rewrite bool_decide_eq_false. split; [naive_solve|].
  intros [Hs Hw]. repeat split; try done.
  - apply jcontains_value. intros Hu. by rewrite Hu in Hs.
  - apply jcontains_value. intros Hu. by rewrite Hu in Hw.
Qed.

Lemma strokeStrategy_inside (obj : QJsonObject) :
  strokeStrategy obj = StrokeInside
  ↔ nontrivial_stroke obj ∧ jvalue obj "strokeAlign" = JString "INSIDE".
Proof.
  rewrite <- hasBorders_spec, <- is_str_eq. unfold strokeStrategy.
  destruct (hasBorders obj), (is_str (jvalue obj "strokeAlign") "INSIDE");
    cbn; repeat case_match; naive_solve.
Qed.

Lemma strokeStrategy_outside (obj : QJsonObject) :
  strokeStrategy obj = StrokeOutside
  ↔ nontrivial_stroke obj ∧ jvalue obj "strokeAlign" = JString "OUTSIDE".
Proof.
  rewrite <- hasBorders_spec, <- is_str_eq. unfold strokeStrategy.
  destruct (hasBorders obj) eqn:Hb; cbn [andb].
  - destruct (is_str (jvalue obj "strokeAlign") "INSIDE") eqn:Hin.
    + apply is_str_eq in Hin. rewrite Hin. cbn. naive_solve.
    + destruct (is_str (jvalue obj "strokeAlign") "OUTSIDE"); naive_solve.
  - naive_solve.
Qed.

Lemma parseVector_strategy (this : FigmaParser) (obj : QJsonObject) (intendents : Z) :
  parseVector this obj intendents
  = match strokeStrategy obj with
    | StrokeInside => makeVectorInside this obj intendents
    | StrokeOutside => makeVectorOutside this obj intendents
    | StrokeNormal => makeVectorNormal this obj intendents
    end.
Proof.
  unfold parseVector, strokeStrategy. fold (hasBorders obj).
  by repeat case_match.
Qed.

Lemma makeVectorNormal_plain (this : FigmaParser) (obj : QJsonObject) (intendents : Z)
    (item extents : string) (st st' : members) :
  imageFill obj = None →
  makeItem "Shape" obj intendents = Ok item →
  makeExtents this obj intendents QRectF_zero st = Ok (extents, st') →
  makeVectorNormal this obj intendents st
  = Ok (item +:+ extents +:+ makeAntialising this intendents
        +:+ shape_path (tabs intendents)
              (makeShapeStroke obj (intendents + 1) Normal
               +:+ makeShapeFill obj (intendents + 1)
               +:+ makeShapeFillData obj (intendents + 1))
        +:+ tabs (intendents - 1) +:+ "}" +:+ nl, st').
Proof.
  intros Himg Hitem Hext. unfold makeVectorNormal, makeVectorNormalFill. rewrite Himg.
  munfold. rewrite Hitem, Hext. unfold shape_path.
  rewrite !cat_cons. change (cat []) with "". by rewrite !append_assoc, append_nil_r.
Qed.

Lemma makeVectorInside_holds (this : FigmaParser) (obj : QJsonObject) (intendents : Z)
    (out : string) (st st' : members) :
  makeVectorInside this obj intendents st = Ok (out, st') →
  holds_in_order ["Shape {"; "ShapePath {"; "Shape {"; "ShapePath {"; "OpacityMask {"] out.
Proof.
  unfold makeVectorInside, makeVectorInsideFill, makeVectorInsideFill_image. munfold.
  destruct (imageFill obj) as [image|];
    destruct (makeItem "Item" obj intendents) as [item| |]; try done;
    destruct (makeExtents this obj intendents QRectF_zero st) as [[extents st1]| |]; try done.
  - destruct (makeImageMaskData _ _ _ _ _ _) as [mask| |]; [|done..].
    intros [= <- <-]. hold.
  - intros [= <- <-].
    change "Shape { " with ("Shape {" +:+ " "). rewrite (append_assoc "Shape {"). hold.
Qed.

Lemma makeVectorInside_plain (this : FigmaParser) (obj : QJsonObject) (intendents : Z)
    (item extents : string) (st st' : members) :
  imageFill obj = None →
  makeItem "Item" obj intendents = Ok item →
  makeExtents this obj intendents QRectF_zero st = Ok (extents, st') →
  ∃ out, makeVectorInside this obj intendents st = Ok (out, st').
Proof.
  intros Himg Hitem Hext. unfold makeVectorInside, makeVectorInsideFill. rewrite Himg.
  munfold. rewrite Hitem, Hext. by eauto.
Qed.

Lemma makeShapeStroke_holds (obj : QJsonObject) (intendents : Z) :
  is_str (jvalue obj "type") "LINE" = false →
  isString (jvalue obj "strokes") = false →
  holds_in_order ["strokeColor: "] (makeShapeStroke obj intendents Normal)
  ∧ (jcontains obj "strokeWeight" = true →
     ∃ a, makeShapeStroke obj intendents Normal
          = a +:+ tabs intendents +:+ "strokeWidth:"
            +:+ number (toDouble (jvalue obj "strokeWeight")) +:+ nl).
Proof.
  intros Hline Hstr. unfold makeShapeStroke. rewrite Hline, Hstr. cbn [negb].
  split.
  - destruct (_ && _).
    + rewrite !append_assoc. apply holds_skip. rewrite <- !append_assoc.
      rewrite (append_assoc _ "strokeColor" ": "), (append_assoc _ "strokeColor: ").
      rewrite !append_assoc. exists (tabs intendents). eexists. split; [done|done].
    + rewrite !append_assoc. exists (tabs intendents). eexists. split; [done|done].
  - intros ->.
    change (bool_decide (Normal ≠ OnePix)) with true.
    change (bool_decide (Normal = Double)) with false.
    eexists. reflexivity.
Qed.

Lemma makeShapeFill_holds (obj : QJsonObject) (intendents : Z) :
  is_str (jvalue obj "type") "LINE" = false →
  isString (jvalue obj "fills") = false →
  ∃ b, makeShapeFill obj intendents = tabs intendents +:+ "fillColor:" +:+ b.
Proof.
  intros Hline Hstr. unfold makeShapeFill. rewrite Hline, Hstr. cbn [negb].
  destruct (_ && _); rewrite !append_assoc; eexists; reflexivity.
Qed.

Lemma makeShapeStroke_line (obj : QJsonObject) (intendents : Z) :
  is_str (jvalue obj "type") "LINE" = true →
  isString (jvalue obj "strokes") = false →
  holds_in_order ["fillColor: "] (makeShapeStroke obj intendents Normal).
Proof.
  intros Hline Hstr. unfold makeShapeStroke. rewrite Hline, Hstr. cbn [negb].
  destruct (_ && _).
  - rewrite !append_assoc. apply holds_skip. rewrite <- !append_assoc.
    rewrite (append_assoc _ "fillColor" ": "), (append_assoc _ "fillColor: ").
    rewrite !append_assoc. exists (tabs intendents). eexists. split; [done|done].
  - rewrite !append_assoc. exists (tabs intendents). eexists. split; [done|done].
Qed.

Lemma makeShapeStroke_style (obj : QJsonObject) (intendents : Z) :
  isString (jvalue obj "strokes") = true →
  makeShapeStroke obj intendents Normal
  = if jcontains obj "strokeWeight"
    then tabs intendents +:+ "strokeWidth:"
         +:+ number (toDouble (jvalue obj "strokeWeight")) +:+ nl
    else "".
Proof.
  intros Hstr. unfold makeShapeStroke. rewrite Hstr.
  destruct (jvalue obj "strokes"); try done. cbn [toArray negb].
  rewrite bool_decide_eq_true_2 by done. cbn [negb]. rewrite andb_false_r.
  by destruct (jcontains obj "strokeWeight").
Qed.

Lemma makeShapeFill_style (obj : QJsonObject) (intendents : Z) :
  is_str (jvalue obj "type") "LINE" = false →
  isString (jvalue obj "fills") = true →
  makeShapeFill obj intendents
  = tabs intendents +:+ "id: svgpath_" +:+ qmlId (toString (jvalue obj "id")) +:+ nl.
Proof.
  intros Hline Hstr. unfold makeShapeFill. rewrite Hline, Hstr.
  destruct (jvalue obj "fills"); try done. cbn [toArray negb].
  rewrite bool_decide_eq_true_2 by done. cbn [negb]. by rewrite andb_false_r.
Qed.

(** C3 (amended): the inside-aligned strategy is selected exactly for a node
    with a stroke entry, a stroke weight above 1 and the alignment INSIDE, the
    outside-aligned one exactly for such a node with the alignment OUTSIDE,
    and the normal one in every other case.  For a node whose first fill is
    no image, the normal strategy emits one shape-path block that holds what
    the stroke emitter and the fill emitter write.  For a node that is no
    LINE these write the stroke colour as [strokeColor], unless the strokes
    are a string, the stroke width when the node has a stroke weight, and
    the fill colour as [fillColor], unless the fills are a string; for a
    LINE the stroke colour is written as [fillColor] and the fill is a
    transparent [strokeColor]; strokes or fills that are a string write no
    colour at all.  Every output of the inside strategy holds two shapes,
    each with a shape path, and an opacity mask, and the inside strategy
    returns for a node whose first fill is no image. *)
Theorem stroke_strategy (this : FigmaParser) (obj : QJsonObject) (intendents : Z)
    (st : members) :
  (strokeStrategy obj = StrokeInside
   ↔ nontrivial_stroke obj ∧ jvalue obj "strokeAlign" = JString "INSIDE")
  ∧ (strokeStrategy obj = StrokeOutside
     ↔ nontrivial_stroke obj ∧ jvalue obj "strokeAlign" = JString "OUTSIDE")
  ∧ parseVector this obj intendents
    = match strokeStrategy obj with
      | StrokeInside => makeVectorInside this obj intendents
      | StrokeOutside => makeVectorOutside this obj intendents
      | StrokeNormal => makeVectorNormal this obj intendents
      end
  ∧ (∀ item extents st',
       imageFill obj = None →
       makeItem "Shape" obj intendents = Ok item →
       makeExtents this obj intendents QRectF_zero st = Ok (extents, st') →
       makeVectorNormal this obj intendents st
       = Ok (item +:+ extents +:+ makeAntialising this intendents
             +:+ shape_path (tabs intendents)
                   (makeShapeStroke obj (intendents + 1) Normal
                    +:+ makeShapeFill obj (intendents + 1)
                    +:+ makeShapeFillData obj (intendents + 1))
             +:+ tabs (intendents - 1) +:+ "}" +:+ nl, st'))
  ∧ (is_str (jvalue obj "type") "LINE" = false →
     isString (jvalue obj "strokes") = false →
     holds_in_order ["strokeColor: "] (makeShapeStroke obj (intendents + 1) Normal))
  ∧ (jcontains obj "strokeWeight" = true →
     ∃ a, makeShapeStroke obj (intendents + 1) Normal
          = a +:+ tabs (intendents + 1) +:+ "strokeWidth:"
            +:+ number (toDouble (jvalue obj "strokeWeight")) +:+ nl)
  ∧ (is_str (jvalue obj "type") "LINE" = false →
     isString (jvalue obj "fills") = false →
     ∃ b, makeShapeFill obj (intendents + 1)
          = tabs (intendents + 1) +:+ "fillColor:" +:+ b)
  ∧ (is_str (jvalue obj "type") "LINE" = true →
     isString (jvalue obj "strokes") = false →
     holds_in_order ["fillColor: "] (makeShapeStroke obj (intendents + 1) Normal)
     ∧ ∃ b, makeShapeFill obj (intendents + 1)
            = tabs (intendents + 1) +:+ "strokeColor: " +:+ dq +:+ "transparent" +:+ b)
  ∧ ((isString (jvalue obj "strokes") = true →
      makeShapeStroke obj (intendents + 1) Normal
      = if jcontains obj "strokeWeight"
        then tabs (intendents + 1) +:+ "strokeWidth:"
             +:+ number (toDouble (jvalue obj "strokeWeight")) +:+ nl
        else "")
     ∧ (is_str (jvalue obj "type") "LINE" = false →
        isString (jvalue obj "fills") = true →
        makeShapeFill obj (intendents + 1)
        = tabs (intendents + 1) +:+ "id: svgpath_"
          +:+ qmlId (toString (jvalue obj "id")) +:+ nl))
  ∧ (∀ out st',
       makeVectorInside this obj intendents st = Ok (out, st') →
       holds_in_order ["Shape {"; "ShapePath {"; "Shape {"; "ShapePath {"; "OpacityMask {"]
         out)
  ∧ (∀ item extents st',
       imageFill obj = None →
       makeItem "Item" obj intendents = Ok item →
       makeExtents this obj intendents QRectF_zero st = Ok (extents, st') →
       ∃ out, makeVectorInside this obj intendents st = Ok (out, st')).
Proof.
  split; [apply strokeStrategy_inside|].
  split; [apply strokeStrategy_outside|].
  split; [apply parseVector_strategy|].
  split; [intros; by apply makeVectorNormal_plain|].
  split; [intros Hline Hstrokes; by apply makeShapeStroke_holds|].
  split.
  { intros Hweight. unfold makeShapeStroke. rewrite Hweight.
    change (bool_decide (Normal ≠ OnePix)) with true.
    change (bool_decide (Normal = Double)) with false.
    eexists. reflexivity. }
  split; [apply makeShapeFill_holds|].
  split.
  { intros Hline Hstrokes. split; [by apply makeShapeStroke_line|].
    unfold makeShapeFill. rewrite Hline. cbn [negb].
    eexists. rewrite !append_assoc. reflexivity. }
  split; [split; [apply makeShapeStroke_style|apply makeShapeFill_style]|].
  split; [intros; by eapply makeVectorInside_holds|].
  intros; by eapply makeVectorInside_plain.
Qed.

(** ** The order of the keys of an object *)

Lemma ltb_irrefl (a : string) : String.ltb a a = false.
Proof.
  unfold String.ltb. pose proof (String.compare_antisym a a) as H.
  by destruct (String.compare a a).
Qed.

Lemma ltb_total (a b : string) : a ≠ b → String.ltb a b = false → String.ltb b a = true.
Proof.
  unfold String.ltb. intros Hne. rewrite (String.compare_antisym b a).
  destruct (String.compare a b) eqn:E; cbn; try done.
  apply String.compare_eq_iff in E. by subst.
Qed.

Lemma ltb_leb (a b : string) : String.ltb a b = true → String.leb a b = true.
Proof. unfold String.ltb, String.leb. by destruct (String.compare a b). Qed.

Lemma ltb_trans (a b c : string) :
  String.ltb a b = true → String.ltb b c = true → String.ltb a c = true.
Proof.
  intros Hab Hbc.
  assert (String.le a c) as Hac.
  { trans b; unfold String.le; by rewrite ltb_leb. }
  destruct (decide (a = c)) as [->|Hne].
  - assert (b = c) as ->.
    { apply (anti_symm String.le); unfold String.le; by rewrite ltb_leb. }
    by rewrite ltb_irrefl in Hab.
  - destruct (String.ltb a c) eqn:E; [done|].
    apply ltb_total in E; [|done].
    assert (a = c); [|done].
    apply (anti_symm String.le); [done|]. unfold String.le. by rewrite ltb_leb.
Qed.

Lemma jcontains_keys (obj : QJsonObject) (key : string) :
  jcontains obj key = true ↔ key ∈ jkeys obj.
Proof.
  unfold jcontains, jkeys. induction obj as [|[k v] obj IH]; cbn.
  - split; [done|]. by intros ?%elem_of_nil.
  - rewrite orb_true_iff, IH, elem_of_cons, String.eqb_eq. naive_solve.
Qed.

Lemma insert_ordered_keys (key : string) (v : QJsonValue) (obj : QJsonObject) (x : string) :
  x ∈ jkeys (insert_ordered key v obj) ↔ x = key ∨ x ∈ jkeys obj.
Proof.
  unfold jkeys. induction obj as [|[k w] obj IH]; cbn.
  - rewrite list_elem_of_singleton. split; [by left|]. intros [?|?%elem_of_nil]; done.
  - destruct (String.eqb_spec key k) as [->|Hne]; cbn.
    { rewrite !elem_of_cons. naive_solve. }
    destruct (String.ltb key k); cbn; rewrite !elem_of_cons, ?IH; naive_solve.
Qed.

Lemma insert_ordered_sorted (key : string) (v : QJsonValue) (obj : QJsonObject) :
  sorted_keys obj → sorted_keys (insert_ordered key v obj).
Proof.
  unfold sorted_keys, jkeys. induction obj as [|[k w] obj IH]; cbn; intros Hs.
  - repeat constructor.
  - apply StronglySorted_inv in Hs as [Hs Hall].
    destruct (String.eqb_spec key k) as [->|Hne]; cbn.
    { by constructor. }
    destruct (String.ltb key k) eqn:Hlt; cbn.
    + constructor; [by constructor|]. constructor; [done|].
      eapply Forall_impl; [done|]. intros x Hx. by eapply ltb_trans.
    + constructor; [by apply IH|].
      apply Forall_forall. intros x Hx%(insert_ordered_keys key v obj x).
      destruct Hx as [->|Hx]; [by apply ltb_total|].
      by eapply Forall_forall in Hall.
Qed.

Lemma jremove_sorted (key : string) (obj : QJsonObject) :
  sorted_keys obj → sorted_keys (jremove key obj).
Proof.
  unfold sorted_keys, jkeys, jremove. induction obj as [|[k w] obj IH]; [done|].
  rewrite fmap_cons. intros [Hs Hall]%StronglySorted_inv.
  rewrite filter_cons. destruct (decide _); [rewrite fmap_cons|by apply IH].
  constructor; [by apply IH|].
  apply Forall_forall. intros x ([k' w'] & -> & [_ Hin]%list_elem_of_filter)%list_elem_of_fmap.
  eapply Forall_forall in Hall; [done|]. apply list_elem_of_fmap. by exists (k', w').
Qed.

Lemma jinsert_sorted (key : string) (v : QJsonValue) (obj : QJsonObject) :
  sorted_keys obj → sorted_keys (jinsert key v obj).
Proof.
  intros Hs. unfold jinsert.
  destruct v; by (apply insert_ordered_sorted || apply jremove_sorted).
Qed.

Lemma sorted_keys_NoDup (obj : QJsonObject) : sorted_keys obj → NoDup (jkeys obj).
Proof.
  unfold sorted_keys. induction 1 as [|k ks Hs IH Hall]; constructor; [|done].
  intros Hin. eapply Forall_forall in Hall; [|done]. by rewrite ltb_irrefl in Hall.
Qed.

Lemma foldM_outcome_inv {A B : Type} (P : A → Prop) (f : A → B → outcome A)
    (l : list B) (a a' : A) :
  (∀ a b a', P a → f a b = Ok a' → P a') →
  P a → foldM f a l = Ok a' → P a'.
Proof.
  intros Hf. revert a. induction l as [|b l IH]; intros a Ha; cbn.
  - by intros [= <-].
  - munfold. destruct (f a b) as [a1| |] eqn:E; [|done..]. eauto.
Qed.

Lemma delta_sorted (instance base : QJsonObject) (ignored : gset string)
    (compares : gmap string (QJsonValue → QJsonValue → outcome QJsonValue))
    (deltaObject : QJsonObject) :
  delta instance base ignored compares = Ok deltaObject → sorted_keys deltaObject.
Proof.
  unfold delta. munfold.
  destruct (foldM _ _ _) as [newObject| |] eqn:Hfold; [|done..].
  assert (sorted_keys newObject) as Hs.
  { apply (foldM_outcome_inv sorted_keys (delta_step instance base ignored compares)
             (jkeys instance) [] newObject); [|constructor|done].
    intros a k a' Ha. unfold delta_step. munfold.
    repeat case_match; intros [= <-]; try done; by apply jinsert_sorted. }
  repeat case_match; intros [= <-]; try done. by apply jinsert_sorted.
Qed.

(** ** Instance children *)

Lemma minimal_delta_spec (deltaObject : QJsonObject) :
  sorted_keys deltaObject →
  minimal_delta deltaObject = true
  ↔ deltaObject ≠ [] ∧ Forall (λ k, k ∈ layout_keys) (jkeys deltaObject).
Proof.
  intros Hnd%sorted_keys_NoDup. unfold minimal_delta, layout_keys.
  destruct deltaObject as [|[k1 v1] [|[k2 v2] [|[k3 v3] d]]].
  - cbn. naive_solve.
  - change (qsize [(k1, v1)]) with 1. cbn [Z.leb Z.eqb Z.compare Pos.compare Pos.eqb
      Pos.compare_cont andb orb].
    rewrite orb_true_iff, !jcontains_keys. cbn [jkeys fmap list_fmap fst].
    rewrite Forall_singleton. set_solve.
  - change (qsize [(k1, v1); (k2, v2)]) with 2. cbn [Z.leb Z.eqb Z.compare Pos.compare
      Pos.eqb Pos.compare_cont andb orb].
    rewrite orb_false_r, andb_true_iff, !jcontains_keys.
    cbn [jkeys fmap list_fmap fst] in *.
    apply NoDup_cons in Hnd as [Hne _].
    rewrite !Forall_cons, Forall_nil. set_solve.
  - replace (qsize ((k1, v1) :: (k2, v2) :: (k3, v3) :: d) <=? 2) with false
      by (symmetry; apply Z.leb_gt; unfold qsize; cbn [length]; lia).
    cbn [andb]. split; [done|]. intros [_ Hall].
    cbn [jkeys fmap list_fmap fst] in *.
    apply NoDup_cons in Hnd as [Hn1 Hnd]. apply NoDup_cons in Hnd as [Hn2 Hnd].
    apply Forall_cons in Hall as [H1 Hall]. apply Forall_cons in Hall as [H2 Hall].
    apply Forall_cons in Hall as [H3 _].
    exfalso. set_solve.
Qed.

Lemma bound_properties_shape (objChild deltaObject : QJsonObject) (id : string)
    (intendents : Z) :
  ∃ props,
    bound_properties objChild deltaObject id intendents
    = cat (bound_property intendents (delegateName id) <$> props)
    ∧ Forall (λ pv, pv.1 ∈ ["transform"; "x"; "y"; "width"; "height"]) props.
Proof.
  exists ((if jcontains deltaObject "relativeTransform" then
             (if negb (isEmpty (makeTransforms objChild (intendents + 1)))
              then [("transform", makeTransforms objChild (intendents + 1))] else [])
             ++ [("x", number_int (truncate (position objChild).1));
                 ("y", number_int (truncate (position objChild).2))]
           else [])
          ++ (if jcontains deltaObject "size" then
                [("width", number_int (truncate (toDouble
                     (jvalue (toObject (jvalue deltaObject "size")) "x"))));
                 ("height", number_int (truncate (toDouble
                     (jvalue (toObject (jvalue deltaObject "size")) "y"))))]
              else [])).
  unfold bound_properties.
  destruct (jcontains deltaObject "relativeTransform"),
    (negb (isEmpty (makeTransforms objChild (intendents + 1)))),
    (jcontains deltaObject "size");
    (split;
     [ cbv [cat foldr fmap list_fmap bound_property app fst snd];
       rewrite ?append_assoc, ?append_nil_r; reflexivity
     | repeat constructor; cbn [fst]; set_solve ]).
Qed.

Lemma makeInstanceChildren_step_spec (this : FigmaParser) (objChildren : QJsonArray)
    (children : OrderedMap.t) (intendents : Z) (out : string) (cc : QJsonValue)
    (i : nat) (key : string) (deltaObject : QJsonObject) :
  list_find (λ key, split_last ";" key = toString (jvalue (toObject cc) "id"))
            (OrderedMap.keys children) = Some (i, key) →
  delta (toObject (at_ objChildren (Z.of_nat i))) (toObject cc) child_ignored
        {["children" := compare_children this (toObject (at_ objChildren (Z.of_nat i)))]}
  = Ok deltaObject →
  makeInstanceChildren_step this objChildren children intendents out cc
  = Ok (out +:+
        if bool_decide (Forall (λ k, k ∈ layout_keys) (jkeys deltaObject))
        then bound_properties (toObject (at_ objChildren (Z.of_nat i))) deltaObject
               (toString (jvalue (toObject cc) "id")) intendents
        else full_subtree intendents (toString (jvalue (toObject cc) "id"))
               (OrderedMap.get children key)).
Proof.
  intros Hfind Hdelta. unfold makeInstanceChildren_step. rewrite Hfind.
  rewrite bool_decide_eq_true_2 by (by eexists).
  unfold Q_ASSERT. rewrite andb_false_r. munfold.
  fold child_ignored. rewrite Hdelta.
  pose proof (minimal_delta_spec deltaObject (delta_sorted _ _ _ _ _ Hdelta)) as Hmin.
  case_bool_decide as Hempty.
  - subst deltaObject. rewrite bool_decide_eq_true_2 by constructor.
    unfold bound_properties. cbn [jcontains existsb]. by rewrite append_nil_r.
  - destruct (minimal_delta deltaObject).
    + rewrite bool_decide_eq_true_2; [done|]. by apply Hmin.
    + rewrite bool_decide_eq_false_2; [done|].
      intros Hall. by assert (false = true) by (by apply Hmin).
Qed.


(** ** Masks among the children *)

Lemma strip_prefix_spec (pat s r : string) : strip_prefix pat s = Some r → s = pat +:+ r.
Proof.
  revert s. induction pat as [|a pat IH]; intros [|b s]; cbn; try done.
  - by intros [= <-].
  - by intros [= <-].
  - destruct (Ascii.eqb_spec a b) as [->|]; [|done].
    intros H%IH. by rewrite append_cons, H.
Qed.

Lemma behind_spec (pat s r : string) : behind pat s = Some r → ∃ a, s = a +:+ pat +:+ r.
Proof.
  induction s as [|c s IH]; cbn [behind].
  - destruct (strip_prefix pat "") eqn:E; [|done].
    intros [= ->]. exists "". exact (strip_prefix_spec _ _ _ E).
  - destruct (strip_prefix pat (String c s)) eqn:E.
    + intros [= ->]. exists "". exact (strip_prefix_spec _ _ _ E).
    + intros [a ->]%IH. by exists (String c a).
Qed.

Lemma in_order_holds (pats : list string) (s : string) :
  in_order pats s = true → holds_in_order pats s.
Proof.
  revert s. induction pats as [|pat pats IH]; intros s; cbn [in_order holds_in_order].
  - done.
  - destruct (behind pat s) as [r|] eqn:E; [|done].
    intros H. apply behind_spec in E as [a ->]. exists a, r. split; [done|]. by apply IH.
Qed.

Lemma parseChildrenItems_step_spec (rec : QJsonObject → Z → method string)
    (obj : QJsonObject) (intendents : Z) (c : QJsonValue)
    (hasMask : bool) (out : string) (items : OrderedMap.t) (st : members)
    (hasMask' : bool) (out' : string) (items' : OrderedMap.t) (st' : members) :
  parseChildrenItems_step rec obj intendents (hasMask, out, items) c st
  = Ok ((hasMask', out', items'), st') →
  hasMask' = hasMask || isMask c
  ∧ OrderedMap.keys items'
    = OrderedMap.keys items ++ (if isMask c then [] else [child_id c]).
Proof.
  unfold parseChildrenItems_step. munfold. unfold set_parent. fold (isMask c).
  destruct (isMask c).
  - destruct (rec (toObject c) (intendents + 2) _) as [[mask st1]| |]; [|done..].
    intros [= <- <- <- <-]. by rewrite orb_true_r, app_nil_r.
  - destruct (rec (toObject c) _ _) as [[bytes st1]| |]; [|done..].
    intros [= <- <- <- <-]. rewrite orb_false_r. split; [done|].
    unfold OrderedMap.keys, OrderedMap.insert. cbn [OrderedMap.m_data].
    by rewrite fmap_app.
Qed.

Lemma parseChildrenItems_fold (rec : QJsonObject → Z → method string) (obj : QJsonObject)
    (intendents : Z) (children : QJsonArray) :
  ∀ (hasMask : bool) (out : string) (items : OrderedMap.t) (st : members)
    (hasMask' : bool) (out' : string) (items' : OrderedMap.t) (st' : members),
    foldM (parseChildrenItems_step rec obj intendents) (hasMask, out, items) children st
    = Ok ((hasMask', out', items'), st') →
    hasMask' = hasMask || existsb isMask children
    ∧ OrderedMap.keys items'
      = OrderedMap.keys items ++ (child_id <$> filter (λ c, isMask c = false) children).
Proof.
  induction children as [|c children IH]; intros hasMask out items st hasMask' out' items' st'.
  - cbn. munfold. intros [= <- <- <- <-]. by rewrite orb_false_r, app_nil_r.
  - cbn [foldM existsb]. munfold.
    destruct (parseChildrenItems_step rec obj intendents (hasMask, out, items) c st)
      as [[[[hasMask1 out1] items1] st1]| |] eqn:Hstep; [|done..].
    apply parseChildrenItems_step_spec in Hstep as [-> Hkeys].
    intros [-> ->]%IH. rewrite Hkeys, orb_assoc, <- app_assoc. split; [done|].
    destruct (isMask c) eqn:Hmask.
    + by rewrite filter_cons_False by (by rewrite Hmask).
    + by rewrite filter_cons_True by done.
Qed.

(** C4 (what the code does): when a child of [obj] is a mask, the children
    items are the single masked composite, which holds the items of all the
    children that are no mask, those before the mask as well as those behind
    it; no item is left outside the composite. *)
Theorem mask_captures_all_siblings (rec : QJsonObject → Z → method string)
    (obj : QJsonObject) (intendents : Z) (st st' : members) (items : OrderedMap.t) :
  jcontains obj "children" = true →
  existsb isMask (toArray (jvalue obj "children")) = true →
  parseChildrenItems rec obj intendents st = Ok (items, st') →
  OrderedMap.keys items = ["maskedItem"]
  ∧ ∃ (out : string) (captured : OrderedMap.t),
      OrderedMap.keys captured
      = child_id <$> filter (λ c, isMask c = false) (toArray (jvalue obj "children"))
      ∧ OrderedMap.get items "maskedItem"
        = ((out +:+ cat (OrderedMap.m_data captured).*2)
           +:+ tabs (intendents + 1) +:+ "}" +:+ nl)
          +:+ tabs intendents +:+ "}" +:+ nl.
Proof.
  intros Hchildren Hmask. unfold parseChildrenItems. rewrite Hchildren. munfold.
  unfold get_parent, set_parent.
  destruct (foldM (parseChildrenItems_step rec obj intendents) _ _ st)
    as [[[[hasMask out] captured] st1]| |] eqn:Hfold; [|done..].
  apply parseChildrenItems_fold in Hfold as [-> Hkeys]. rewrite Hmask. cbn [orb].
  intros [= <- <-]. split; [done|]. exists out, captured. split; [exact Hkeys|done].
Qed.

(** ** The descent of [parse]

    The methods of the descent call the parser of the nested calls on the
    children of their node only, so the depth of a node is fuel enough, and
    [parse] satisfies the recursive equation of the source. *)

Lemma foldM_method_ext {A B : Type} (f g : A → B → method A) (l : list B) :
  (∀ a b st, b ∈ l → f a b st = g a b st) →
  ∀ a st, foldM f a l st = foldM g a l st.
Proof.
  induction l as [|b l IH]; intros H a st; cbn [foldM]; [done|]. munfold.
  rewrite H by left. destruct (g a b st) as [[a1 st1]| |]; [|done..].
  apply IH. intros. apply H. by right.
Qed.

Section Agreement.

Variable this : FigmaParser.
Variables p1 p2 : QJsonObject → Z → method string.

Lemma parseChildrenItems_step_ext (obj : QJsonObject) (intendents : Z)
    (acc : bool * string * OrderedMap.t) (c : QJsonValue) (st : members) :
  (∀ i st, p1 (toObject c) i st = p2 (toObject c) i st) →
  parseChildrenItems_step p1 obj intendents acc c st
  = parseChildrenItems_step p2 obj intendents acc c st.
Proof.
  intros H. destruct acc as [[hasMask out] items]. unfold parseChildrenItems_step.
  munfold. unfold set_parent. destruct (_ && _); by rewrite H.
Qed.

Lemma parseChildrenItems_ext (obj : QJsonObject) (intendents : Z) (st : members) :
  agree_on_children p1 p2 obj →
  parseChildrenItems p1 obj intendents st = parseChildrenItems p2 obj intendents st.
Proof.
  intros H. unfold parseChildrenItems. munfold. unfold get_parent.
  destruct (jcontains obj "children"); [|done].
  rewrite (foldM_method_ext _ (parseChildrenItems_step p2 obj intendents)); [done|].
  intros a b st0 Hb. apply parseChildrenItems_step_ext. intros. by apply H.
Qed.

Lemma parseChildren_ext (obj : QJsonObject) (intendents : Z) (st : members) :
  agree_on_children p1 p2 obj →
  parseChildren p1 obj intendents st = parseChildren p2 obj intendents st.
Proof.
  intros H. unfold parseChildren. munfold. by rewrite (parseChildrenItems_ext _ _ _ H).
Qed.

Lemma makePlainItem_ext (obj : QJsonObject) (intendents : Z) (st : members) :
  agree_on_children p1 p2 obj →
  makePlainItem this p1 obj intendents st = makePlainItem this p2 obj intendents st.
Proof.
  intros H. unfold makePlainItem. munfold.
  repeat case_match; try done; rewrite (parseChildren_ext _ _ _ H) in *; congruence.
Qed.

Lemma parseFrame_ext (obj : QJsonObject) (intendents : Z) (st : members) :
  agree_on_children p1 p2 obj →
  parseFrame this p1 obj intendents st = parseFrame this p2 obj intendents st.
Proof.
  intros H. unfold parseFrame. munfold.
  destruct (makeItem _ _ _) as [item| |]; [|done..].
  destruct (makeVector this obj intendents st) as [[vector st1]| |]; [|done..].
  by rewrite (parseChildren_ext _ _ _ H).
Qed.

Lemma makeInstanceChildren_ext (obj comp : QJsonObject) (intendents : Z) (st : members) :
  agree_on_children p1 p2 obj →
  makeInstanceChildren this p1 obj comp intendents st
  = makeInstanceChildren this p2 obj comp intendents st.
Proof.
  intros H. unfold makeInstanceChildren. munfold. by rewrite (parseChildrenItems_ext _ _ _ H).
Qed.

Lemma parseInstance_ext (obj : QJsonObject) (intendents : Z) (st : members) :
  agree_on_children p1 p2 obj →
  parseInstance this p1 obj intendents st = parseInstance this p2 obj intendents st.
Proof.
  intros H. unfold parseInstance. munfold.
  destruct (itemType obj) as [t| |]; [|done..]. unfold insert_componentId.
  destruct (m_components this !! _) as [comp|]; [|done].
  destruct (negb (bool_decide (t = Instance))); [done|].
  destruct (delta obj _ _ _) as [instanceObject| |]; [|done..].
  destruct (Component_name comp) as [name| |]; [|done..].
  destruct (makeItem _ _ _) as [item| |]; [|done..].
  destruct (makeVector this _ intendents _) as [[vector st1]| |]; [|done..].
  by rewrite (makeInstanceChildren_ext _ _ _ _ H).
Qed.

Lemma parseComponent_ext (obj : QJsonObject) (intendents : Z) (st : members) :
  agree_on_children p1 p2 obj →
  parseComponent this p1 obj intendents st = parseComponent this p2 obj intendents st.
Proof.
  intros H. unfold parseComponent.
  destruct (negb _); [by apply parseInstance_ext|]. munfold.
  destruct (makeItem _ _ _) as [item| |]; [|done..].
  destruct (makeVector this obj intendents st) as [[vector st1]| |]; [|done..].
  by rewrite (parseChildrenItems_ext _ _ _ H).
Qed.

Lemma boolean_union_ext (obj : QJsonObject) (intendents : Z) (sourceId maskSourceId : string)
    (st : members) :
  agree_on_children p1 p2 obj →
  boolean_union this p1 obj intendents sourceId maskSourceId st
  = boolean_union this p2 obj intendents sourceId maskSourceId st.
Proof.
  intros H. unfold boolean_union. munfold.
  destruct (boolean_source _ _ _ _ _) as [source| |]; [|done..].
  by rewrite (parseChildren_ext _ _ _ H).
Qed.

Lemma boolean_subtract_ext (obj : QJsonObject) (intendents : Z) (children : QJsonArray)
    (sourceId maskSourceId : string) (st : members) :
  (∀ c i st, c ∈ children → p1 (toObject c) i st = p2 (toObject c) i st) →
  children ≠ [] →
  boolean_subtract this p1 obj intendents children sourceId maskSourceId st
  = boolean_subtract this p2 obj intendents children sourceId maskSourceId st.
Proof.
  intros H Hne. unfold boolean_subtract. munfold.
  destruct (makeFirstFill _ _ _ _) as [fill| |]; [|done..].
  destruct children as [|c children]; [done|].
  change (at_ (c :: children) 0) with c. rewrite H by left.
  destruct (p2 (toObject c) _ _) as [[first st1]| |]; [|done..].
  rewrite (foldM_method_ext _ (λ out child, bytes ← p2 (toObject child) (intendents + 2);
                                            mret (out +:+ bytes))); [done|].
  intros a b st0 Hb. munfold. rewrite H; [done|].
  right. exact Hb.
Qed.

Lemma elem_of_indexed (children : QJsonArray) (i : Z) (c : QJsonValue) :
  (i, c) ∈ indexed children → c ∈ children.
Proof. unfold indexed. intros H. by apply elem_of_zip_r in H. Qed.

Lemma boolean_intersect_ext (obj : QJsonObject) (intendents : Z) (children : QJsonArray)
    (sourceId maskSourceId : string) (st : members) :
  (∀ c i st, c ∈ children → p1 (toObject c) i st = p2 (toObject c) i st) →
  boolean_intersect this p1 obj intendents children sourceId maskSourceId st
  = boolean_intersect this p2 obj intendents children sourceId maskSourceId st.
Proof.
  intros H. unfold boolean_intersect. munfold.
  destruct (boolean_source _ _ _ _ _) as [source| |]; [|done..].
  rewrite (foldM_method_ext _ (boolean_intersect_step p2 intendents (qsize children)
                                 sourceId maskSourceId)); [done|].
  intros [out next] [i c] st0 Hc%elem_of_indexed.
  unfold boolean_intersect_step. munfold. by rewrite H.
Qed.

Lemma boolean_exclude_ext (obj : QJsonObject) (intendents : Z) (children : QJsonArray)
    (sourceId maskSourceId : string) (st : members) :
  (∀ c i st, c ∈ children → p1 (toObject c) i st = p2 (toObject c) i st) →
  boolean_exclude this p1 obj intendents children sourceId maskSourceId st
  = boolean_exclude this p2 obj intendents children sourceId maskSourceId st.
Proof.
  intros H. unfold boolean_exclude. munfold.
  destruct (boolean_source _ _ _ _ _) as [source| |]; [|done..].
  rewrite (foldM_method_ext _ (boolean_exclude_step p2 intendents (qsize children)
                                 sourceId maskSourceId)); [done|].
  intros [out next] [i c] st0 Hc%elem_of_indexed.
  unfold boolean_exclude_step. munfold. by rewrite H.
Qed.

Lemma parseBooleanOperation_ext (obj : QJsonObject) (intendents : Z) (st : members) :
  agree_on_children p1 p2 obj →
  parseBooleanOperation this p1 obj intendents st
  = parseBooleanOperation this p2 obj intendents st.
Proof.
  intros H. unfold parseBooleanOperation.
  destruct (_ =? 0); [done|].
  destruct (Z.ltb_spec (qsize (toArray (jvalue obj "children"))) 2) as [|Hsize]; [done|].
  assert (toArray (jvalue obj "children") ≠ []) as Hne
    by (intros Hnil; rewrite Hnil in Hsize; unfold qsize in Hsize; cbn [length] in Hsize; lia).
  unfold parseBooleanOperation_body. munfold.
  destruct (makeItem _ _ _) as [item| |]; [|done..].
  destruct (makeExtents this obj intendents _ st) as [[extents st1]| |]; [|done..].
  repeat case_match; try done.
  all: first [ rewrite (boolean_union_ext _ _ _ _ _ H) in *
             | rewrite (boolean_subtract_ext _ _ _ _ _ _ H Hne) in *
             | rewrite (boolean_intersect_ext _ _ _ _ _ _ H) in *
             | rewrite (boolean_exclude_ext _ _ _ _ _ _ H) in * ];
    congruence.
Qed.

Lemma parse_node_ext (obj : QJsonObject) (intendents : Z) (st : members) :
  agree_on_children p1 p2 obj →
  parse_node this p1 obj intendents st = parse_node this p2 obj intendents st.
Proof.
  intros H. unfold parse_node, parsers. cbn [assoc].
  set (type := toString (jvalue obj "type")).
  assert (∀ f1 f2 : QJsonObject → Z → method string,
            (∀ st, f1 obj intendents st = f2 obj intendents st) →
            (rendering ← lift (isRendering this obj);
             if rendering : bool then parseRendered this obj intendents
             else f1 obj intendents) st
            = (rendering ← lift (isRendering this obj);
               if rendering : bool then parseRendered this obj intendents
               else f2 obj intendents) st) as Hentry.
  { intros f1 f2 Hf. munfold. by destruct (isRendering this obj) as [[]| |]. }
  destruct (String.eqb "RECTANGLE" type); [reflexivity|].
  destruct (String.eqb "TEXT" type); [reflexivity|].
  destruct (String.eqb "COMPONENT" type).
  { apply Hentry. intros. by apply parseComponent_ext. }
  destruct (String.eqb "BOOLEAN_OPERATION" type).
  { apply Hentry. intros. by apply parseBooleanOperation_ext. }
  destruct (String.eqb "INSTANCE" type).
  { apply Hentry. intros. by apply parseInstance_ext. }
  destruct (String.eqb "ELLIPSE" type); [reflexivity|].
  destruct (String.eqb "VECTOR" type); [reflexivity|].
  destruct (String.eqb "LINE" type); [reflexivity|].
  destruct (String.eqb "REGULAR_POLYGON" type); [reflexivity|].
  destruct (String.eqb "STAR" type); [reflexivity|].
  destruct (String.eqb "GROUP" type).
  { apply Hentry. intros. by apply parseFrame_ext. }
  destruct (String.eqb "FRAME" type).
  { apply Hentry. intros. by apply parseFrame_ext. }
  destruct (String.eqb "SLICE" type); [reflexivity|].
  destruct (String.eqb "NONE" type).
  { apply Hentry. intros. by apply makePlainItem_ext. }
  reflexivity.
Qed.

End Agreement.

Lemma depth_elem (a : QJsonArray) (c : QJsonValue) :
  c ∈ a → (depth c < depth (JArray a))%nat.
Proof.
  cbn [depth]. induction 1 as [c a|c b a _ IH]; cbn [foldr]; lia.
Qed.

Lemma depth_jvalue (obj : QJsonObject) (key : string) :
  (depth (jvalue obj key) < depth (JObject obj))%nat.
Proof.
  cbn [depth]. induction obj as [|[k v] obj IH]; cbn [jvalue foldr depth]; [lia|].
  destruct (String.eqb k key); lia.
Qed.

Lemma depth_child (obj : QJsonObject) (key : string) (c : QJsonValue) :
  c ∈ toArray (jvalue obj key) →
  (depth (JObject (toObject c)) < depth (JObject obj))%nat.
Proof.
  intros Hc. pose proof (depth_jvalue obj key) as Hv.
  destruct (jvalue obj key) as [| | | |a| |]; try by apply elem_of_nil in Hc.
  apply depth_elem in Hc. destruct c; cbn [toObject toArray depth foldr] in *; lia.
Qed.

Lemma parse_fuel_stable (this : FigmaParser) (n : nat) :
  ∀ (m : nat) (obj : QJsonObject) (intendents : Z) (st : members),
    (depth (JObject obj) ≤ n)%nat → (depth (JObject obj) ≤ m)%nat →
    parse_fuel this n obj intendents st = parse_fuel this m obj intendents st.
Proof.
  induction n as [|n IH]; intros [|m] obj intendents st Hn Hm;
    try (cbn [depth] in *; lia).
  cbn [parse_fuel]. apply parse_node_ext. intros c i st' Hc.
  pose proof (depth_child obj "children" c Hc). apply IH; lia.
Qed.

(** X1: [parse] satisfies the recursive equation of the source: the nested
    calls are calls of [parse] itself, and the descent never runs out of
    fuel. *)
Theorem parse_equation (this : FigmaParser) (obj : QJsonObject) (intendents : Z)
    (st : members) :
  parse this obj intendents st = parse_node this (parse this) obj intendents st.
Proof.
  unfold parse at 1. destruct (depth (JObject obj)) as [|n] eqn:Hdepth; [done|].
  cbn [parse_fuel]. apply parse_node_ext. intros c i st' Hc. unfold parse.
  pose proof (depth_child obj "children" c Hc). apply parse_fuel_stable; lia.
Qed.

Lemma foldl_ext_in {A B : Type} (f g : A → B → A) (l : list B) :
  (∀ a b, b ∈ l → f a b = g a b) → ∀ a, foldl f a l = foldl g a l.
Proof.
  induction l as [|b l IH]; intros H a; cbn [foldl]; [done|].
  rewrite H by left. apply IH. intros. apply H. by right.
Qed.

Lemma getObjectsByType_fuel_stable (type : string) (n : nat) :
  ∀ (m : nat) (obj : QJsonObject),
    (depth (JObject obj) ≤ n)%nat → (depth (JObject obj) ≤ m)%nat →
    getObjectsByType_fuel n obj type = getObjectsByType_fuel m obj type.
Proof.
  induction n as [|n IH]; intros [|m] obj Hn Hm; try (cbn [depth] in *; lia).
  cbn [getObjectsByType_fuel]. repeat case_match; try done.
  apply foldl_ext_in. intros objects c Hc.
  pose proof (depth_child obj "children" c Hc). rewrite (IH m); [done|lia..].
Qed.

(** X2: [getObjectsByType] satisfies the recursive equation of the source:
    a node of the type is returned under its identifier, and any other node
    gives the objects of its children, a later child replacing the entry of
    an earlier one. *)
Lemma getObjectsByType_equation (obj : QJsonObject) (type : string) :
  getObjectsByType obj type
  = if is_str (jvalue obj "type") type then {[ toString (jvalue obj "id") := obj ]}
    else if jcontains obj "children" then
      foldl (λ objects child, getObjectsByType (toObject child) type ∪ objects)
            ∅ (toArray (jvalue obj "children"))
    else ∅.
Proof.
  unfold getObjectsByType at 1. destruct (depth (JObject obj)) as [|n] eqn:Hdepth; [done|].
  cbn [getObjectsByType_fuel]. repeat case_match; try done.
  apply foldl_ext_in. intros objects c Hc. unfold getObjectsByType.
  pose proof (depth_child obj "children" c Hc).
  rewrite (getObjectsByType_fuel_stable type n (depth (JObject (toObject c)))); [done|lia..].
Qed.

Lemma getSize_fuel_stable (n : nat) :
  ∀ (m : nat) (obj : QJsonObject),
    (depth (JObject obj) ≤ n)%nat → (depth (JObject obj) ≤ m)%nat →
    getSize_fuel n obj = getSize_fuel m obj.
Proof.
  induction n as [|n IH]; intros [|m] obj Hn Hm; try (cbn [depth] in *; lia).
  cbn [getSize_fuel]. case_match; [|done].
  apply foldl_ext_in. intros sz c Hc.
  pose proof (depth_child obj "children" c Hc). rewrite (IH m); [done|lia..].
Qed.

(** X3: [getSize] satisfies the recursive equation of the source: the size
    of the bounding box of a leaf, and the largest extents over the children
    of any other node. *)
Lemma getSize_equation (obj : QJsonObject) :
  getSize obj
  = let rect := toObject (jvalue obj "absoluteBoundingBox") in
    let sz := (toDouble (jvalue rect "width"), toDouble (jvalue rect "height")) in
    if jcontains obj "children" then
      foldl (λ sz child,
               let other := getSize (toObject child) in
               (qMax sz.1 other.1, qMax sz.2 other.2))
            sz (toArray (jvalue obj "children"))
    else sz.
Proof.
  unfold getSize at 1. destruct (depth (JObject obj)) as [|n] eqn:Hdepth; [done|].
  cbn [getSize_fuel]. cbv zeta. case_match; [|done].
  apply foldl_ext_in. intros sz c Hc. unfold getSize.
  pose proof (depth_child obj "children" c Hc).
  rewrite (getSize_fuel_stable n (depth (JObject (toObject c)))); [done|lia..].
Qed.

(** ** Objects by type *)

(** X4: every object that [getObjectsByType] returns has the requested type
    and is stored under its own identifier; a node of the requested type is
    returned alone, the nodes below it are not searched. *)
Theorem getObjectsByType_sound (obj : QJsonObject) (type : string) :
  (∀ k o, getObjectsByType obj type !! k = Some o →
     is_str (jvalue o "type") type = true ∧ toString (jvalue o "id") = k)
  ∧ (is_str (jvalue obj "type") type = true →
     getObjectsByType obj type = {[ toString (jvalue obj "id") := obj ]}).
Proof.
  split.
  - intros k o. apply getObjectsByType_fuel_sound.
  - intros Htype. unfold getObjectsByType. cbn [depth getObjectsByType_fuel].
    by rewrite Htype.
Qed.

(** ** The delta of two objects *)

Lemma jinsert_keys (key : string) (v : QJsonValue) (obj : QJsonObject) (x : string) :
  x ∈ jkeys (jinsert key v obj) → x = key ∨ x ∈ jkeys obj.
Proof.
  destruct v; cbn [jinsert]; try (by intros ?%insert_ordered_keys).
  unfold jremove, jkeys. intros ((k & w) & -> & [_ H]%list_elem_of_filter)%list_elem_of_fmap.
  right. apply list_elem_of_fmap. by exists (k, w).
Qed.

Lemma jinsert_defined (key : string) (v : QJsonValue) (obj : QJsonObject) :
  v ≠ JUndefined → jinsert key v obj ≠ [].
Proof.
  intros Hv. assert (jinsert key v obj = insert_ordered key v obj) as -> by by destruct v.
  destruct obj as [|[k w] obj]; [done|]. cbn [insert_ordered]. by repeat case_match.
Qed.

Lemma jvalue_defined (obj : QJsonObject) (key : string) :
  defined obj → key ∈ jkeys obj → jvalue obj key ≠ JUndefined.
Proof.
  unfold defined, jkeys. induction obj as [|[k v] obj IH]; cbn [jvalue fmap list_fmap fst].
  - by intros _ ?%elem_of_nil.
  - intros [Hv Hobj]%Forall_cons Hkey. destruct (String.eqb_spec k key) as [->|Hne]; [done|].
    apply IH; [done|]. apply elem_of_cons in Hkey as [->|]; done.
Qed.

Lemma foldM_outcome_inv_in {A B : Type} (P : A → Prop) (f : A → B → outcome A)
    (l : list B) (a a' : A) :
  (∀ a b a', b ∈ l → P a → f a b = Ok a' → P a') →
  P a → foldM f a l = Ok a' → P a'.
Proof.
  revert a. induction l as [|b l IH]; intros a Hf Ha; cbn.
  - by intros [= <-].
  - munfold. destruct (f a b) as [a1| |] eqn:E; [|done..].
    apply IH; [|by eapply (Hf a b); [left|..]]. intros ??? Hb. apply Hf. by right.
Qed.

(** X5: the delta of an instance against a base never reports an ignored
    key, nor a key that the instance does not have; keys that only the base
    has are not reported. *)
Theorem delta_keys (instance base : QJsonObject) (ignored : gset string)
    (compares : gmap string (QJsonValue → QJsonValue → outcome QJsonValue))
    (deltaObject : QJsonObject) (k : string) :
  delta instance base ignored compares = Ok deltaObject →
  k ∈ jkeys deltaObject →
  k ∈ jkeys instance ∧ k ∉ ignored.
Proof.
  unfold delta. munfold.
  destruct (foldM _ _ _) as [newObject| |] eqn:Hfold; [|done..].
  assert (∀ x, x ∈ jkeys newObject → x ∈ jkeys instance ∧ x ∉ ignored) as Hnew.
  { apply (foldM_outcome_inv_in
             (λ o : QJsonObject, ∀ x, x ∈ jkeys o → x ∈ jkeys instance ∧ x ∉ ignored)
             (delta_step instance base ignored compares) (jkeys instance) [] newObject);
      [|by intros x ?%elem_of_nil|done].
    intros a b a' Hb Ha. unfold delta_step. munfold.
    repeat case_match; intros [= <-]; try done;
      (intros x [->|Hx]%jinsert_keys; [|by auto]);
      (split; [done|]);
      match goal with H : bool_decide _ = false |- _ => by apply bool_decide_eq_false in H end. }
  repeat case_match; intros [= <-]; try (by apply Hnew).
  intros [->|Hk]%jinsert_keys; [|by apply Hnew].
  match goal with H : _ && _ = true |- _ => apply andb_true_iff in H as [Hi Hc] end.
  split; [by apply jcontains_keys|].
  apply negb_true_iff in Hi. by apply bool_decide_eq_false in Hi.
Qed.

Lemma delta_step_plain (instance base : QJsonObject) (ignored : gset string)
    (newObject : QJsonObject) (k : string) :
  delta_step instance base ignored ∅ newObject k
  = Ok (if bool_decide (k ∈ ignored) then newObject
        else if jcontains base k && json_eqb (jvalue base k) (jvalue instance k)
             then newObject
             else jinsert k (jvalue instance k) newObject).
Proof.
  unfold delta_step. rewrite lookup_empty.
  case_bool_decide; [done|]. destruct (jcontains base k); [|done].
  by destruct (json_eqb _ _).
Qed.

Lemma delta_fold_unchanged (instance base : QJsonObject) (ignored : gset string)
    (keys : list string) :
  defined instance →
  ∀ newObject : QJsonObject,
    (∀ k, k ∈ keys → k ∈ jkeys instance) →
    ∃ r, foldM (delta_step instance base ignored ∅) newObject keys = Ok r
         ∧ (r = [] ↔ newObject = []
                     ∧ ∀ k, k ∈ keys → k ∉ ignored →
                         jcontains base k = true
                         ∧ json_eqb (jvalue base k) (jvalue instance k) = true).
Proof.
  intros Hdef. induction keys as [|k keys IH]; intros newObject Hkeys; cbn [foldM].
  - exists newObject. split; [done|]. split; [|by intros [? _]].
    intros ->. split; [done|]. by intros k ?%elem_of_nil.
  - munfold. rewrite delta_step_plain.
    assert (jvalue instance k ≠ JUndefined) as Hv
      by (apply jvalue_defined; [done|]; apply Hkeys; left).
    pose proof (jinsert_defined k (jvalue instance k) newObject Hv) as Hins.
    assert (∀ k', k' ∈ keys → k' ∈ jkeys instance) as Hrest
      by (intros; apply Hkeys; by right).
    case_bool_decide as Hign.
    { destruct (IH newObject Hrest) as (r & Hfold & Hr).
      exists r. split; [exact Hfold|].
      rewrite Hr. split; intros [? H]; (split; [done|]).
      - intros k' [->|?]%elem_of_cons; [done|]. by apply H.
      - intros k' ?. apply H. by right. }
    destruct (jcontains base k) eqn:Hbase; cbn [andb].
    2:{ destruct (IH (jinsert k (jvalue instance k) newObject) Hrest) as (r & Hfold & Hr).
        exists r. split; [exact Hfold|]. rewrite Hr. split; [by intros [? _]|].
        intros [_ H]. destruct (H k) as [? _]; [by left|done|congruence]. }
    destruct (json_eqb (jvalue base k) (jvalue instance k)) eqn:Heq.
    2:{ destruct (IH (jinsert k (jvalue instance k) newObject) Hrest) as (r & Hfold & Hr).
        exists r. split; [exact Hfold|]. rewrite Hr. split; [by intros [? _]|].
        intros [_ H]. destruct (H k) as [_ ?]; [by left|done|congruence]. }
    destruct (IH newObject Hrest) as (r & Hfold & Hr).
      exists r. split; [exact Hfold|].
    rewrite Hr. split; intros [? H]; (split; [done|]).
    + intros k' [->|?]%elem_of_cons; [done|]. by apply H.
    + intros k' ?. apply H. by right.
Qed.

(** X6: for an instance whose members all hold a value, and without
    comparators, the delta is empty exactly when every key of the instance
    that is not ignored is a key of the base with an equal value; a key that
    only the base has does not make the delta non-empty. *)
Theorem delta_unchanged (instance base : QJsonObject) (ignored : gset string) :
  defined instance →
  delta instance base ignored ∅ = Ok []
  ↔ ∀ k, k ∈ jkeys instance → k ∉ ignored →
      jcontains base k = true ∧ json_eqb (jvalue base k) (jvalue instance k) = true.
Proof.
  intros Hdef. unfold delta.
  destruct (delta_fold_unchanged instance base ignored (jkeys instance) Hdef [])
    as (r & -> & Hr); [done|]. munfold.
  case_bool_decide as Hempty; cbn [negb].
  - subst r. split; [|done]. intros _. by apply Hr.
  - split; [|by intros H; destruct Hempty; apply Hr].
    destruct (negb (bool_decide ("name" ∈ ignored)) && jcontains instance "name") eqn:Hname;
      [|by intros [= ->]].
    apply andb_true_iff in Hname as [_ Hname%jcontains_keys].
    intros [= H]. by apply jinsert_defined in H; [|apply jvalue_defined].
Qed.

(** ** The ordered map of the children items *)

Lemma inserted_snoc (l : list (string * string)) (k v : string) :
  inserted (l ++ [(k, v)]) = OrderedMap.insert k v (inserted l).
Proof. unfold inserted. by rewrite foldl_app. Qed.

Lemma inserted_data (l : list (string * string)) : OrderedMap.m_data (inserted l) = l.
Proof.
  induction l as [|[k v] l IH] using rev_ind; [done|].
  rewrite inserted_snoc. cbn. by rewrite IH.
Qed.

Lemma inserted_index_last (pre post : list (string * string)) (k v : string) :
  k ∉ post.*1 →
  OrderedMap.m_index (inserted (pre ++ (k, v) :: post)) !! k = Some (length pre).
Proof.
  induction post as [|[k' v'] post IH] using rev_ind; intros Hk.
  - rewrite inserted_snoc. cbn. by rewrite lookup_insert_eq, inserted_data.
  - rewrite fmap_app in Hk. cbn in Hk.
    replace (pre ++ (k, v) :: post ++ [(k', v')])
      with ((pre ++ (k, v) :: post) ++ [(k', v')]) by by rewrite <- app_assoc.
    rewrite inserted_snoc. cbn [OrderedMap.insert OrderedMap.m_index].
    rewrite lookup_insert_ne by set_solve. apply IH. set_solve.
Qed.

Lemma inserted_index_dom (l : list (string * string)) :
  dom (OrderedMap.m_index (inserted l)) = list_to_set l.*1.
Proof.
  induction l as [|[k v] l IH] using rev_ind; [by cbn; rewrite dom_empty_L|].
  rewrite inserted_snoc. cbn [OrderedMap.insert OrderedMap.m_index].
  rewrite dom_insert_L, IH, fmap_app, list_to_set_app_L. cbn. set_solve.
Qed.

(** X7: for the ordered map built by inserting the entries of a list,
    [keys] lists every insertion in order, [size] counts the distinct keys,
    the lookup of a key gives the value of its last insertion, and the
    lookup of a key that was never inserted, in a map that is not empty,
    gives the value of the first entry. *)
Theorem OrderedMap_inserted (l : list (string * string)) :
  OrderedMap.keys (inserted l) = l.*1
  ∧ OrderedMap.size (inserted l) = Z.of_nat (base.size (list_to_set l.*1 : gset string))
  ∧ (∀ pre k v post, l = pre ++ (k, v) :: post → k ∉ post.*1 →
       OrderedMap.get (inserted l) k = v)
  ∧ (∀ k first rest, l = first :: rest → k ∉ l.*1 →
       OrderedMap.get (inserted l) k = first.2).
Proof.
  split; [by unfold OrderedMap.keys; rewrite inserted_data|].
  split; [by unfold OrderedMap.size; rewrite <- inserted_index_dom, size_dom|].
  split.
  - intros pre k v post -> Hk. unfold OrderedMap.get.
    rewrite inserted_index_last, inserted_data by done. cbn [default].
    by rewrite list_lookup_middle.
  - intros k first rest Hl Hk. unfold OrderedMap.get.
    assert (OrderedMap.m_index (inserted l) !! k = None) as ->.
    { apply not_elem_of_dom. rewrite inserted_index_dom. set_solve. }
    rewrite inserted_data. cbn [default]. by rewrite Hl.
Qed.

(** ** The last section of a key *)

Lemma split_last_go_plain (sep : ascii) (b : string) :
  without sep b = true → ∀ acc, split_last_go sep b acc = acc +:+ b.
Proof.
  unfold without. induction b as [|c b IH]; cbn [sall split_last_go]; intros H acc.
  - by rewrite append_nil_r.
  - apply andb_true_iff in H as [Hc Hb]. apply negb_true_iff in Hc. rewrite Hc.
    rewrite IH by done. by rewrite append_assoc.
Qed.

Lemma split_last_go_app (sep : ascii) (a b : string) :
  ∀ acc, split_last_go sep (a +:+ String sep b) acc = split_last_go sep b "".
Proof.
  induction a as [|c a IH]; intros acc.
  - change ("" +:+ String sep b) with (String sep b). cbn [split_last_go].
    by rewrite bool_decide_eq_true_2.
  - rewrite append_cons. cbn [split_last_go]. by case_bool_decide.
Qed.

(** X8: the last section of a key is the text behind its last separator,
    and the whole key when it holds no separator. *)
Theorem split_last_spec (sep : ascii) (a b : string) :
  without sep b = true →
  split_last sep b = b ∧ split_last sep (a +:+ String sep b) = b.
Proof.
  intros Hb. unfold split_last. split.
  - by rewrite split_last_go_plain.
  - by rewrite split_last_go_app, split_last_go_plain.
Qed.

(** ** Generated identifiers *)

Lemma length_replace_class (class : ascii → bool) (x : ascii) (s : string) :
  String.length (replace_class class (String x "") s) = String.length s.
Proof. induction s as [|c s IH]; [done|]. rewrite replace_class_cons. cbn. by rewrite IH. Qed.

Lemma length_smap (f : ascii → ascii) (s : string) :
  String.length (smap f s) = String.length s.
Proof. induction s as [|c s IH]; [done|]. cbn. by rewrite IH. Qed.

Lemma toLower_nonalnum (c : ascii) :
  isLowerWord (toLower (if re_nonalnum c then "_"%char else c)) = true.
Proof. destruct c as [[] [] [] [] [] [] [] []]; by vm_compute. Qed.

Lemma qmlId_body (id : string) :
  sall isLowerWord (smap toLower (replace_class re_nonalnum "_" id)) = true.
Proof.
  induction id as [|c id IH]; [done|]. rewrite replace_class_cons. cbn [smap sall].
  by rewrite toLower_nonalnum, IH.
Qed.

Lemma replace_char_without (c x : ascii) (s : string) :
  x ≠ c → without c (replace_char c (String x "") s) = true.
Proof.
  intros Hx. unfold without, replace_char. induction s as [|d s IH]; [done|].
  rewrite replace_class_cons. cbn [sall]. rewrite IH, andb_true_r.
  destruct (decide (d = c)) as [->|Hd].
  - rewrite (bool_decide_eq_true_2 (c = c)) by done. by apply negb_true_iff, bool_decide_eq_false.
  - rewrite (bool_decide_eq_false_2 (d = c)) by done. by apply negb_true_iff, bool_decide_eq_false.
Qed.

Lemma validFileName_length (itemName name : string) :
  itemName ≠ "" → validFileName itemName = Ok name →
  (String.length itemName + 6 ≤ String.length name ≤ String.length itemName + 7)%nat.
Proof.
  intros Hne. unfold validFileName. destruct (isEmpty itemName) eqn:Hempty.
  { by destruct itemName. }
  munfold. destruct (Q_ASSERT _ _); [|done..].
  set (s := replace_class re_nonword "_" (replace_class re_reserved "_" _)).
  assert (String.length s = String.length itemName + 6)%nat as Hlen.
  { unfold s. by rewrite !length_replace_class, length_append. }
  clearbody s. intros [= <-].
  destruct s as [|d s]; [destruct itemName; cbn in *; done|].
  change (insert0 "C" (String d s)) with (String "C"%char (String d s)).
  destruct (negb _); cbn in *; lia.
Qed.

(** X9: a non-empty raw name that [validFileName] accepts gives a name that
    starts with an upper-case letter and holds only letters, digits and
    underscores; no character is dropped, and at most one is added in front
    of the suffix. *)
Theorem validFileName_type_name (itemName name : string) :
  itemName ≠ "" → validFileName itemName = Ok name →
  isUpper (at0 name) = true
  ∧ sall isWord name = true
  ∧ (String.length itemName + 6 ≤ String.length name ≤ String.length itemName + 7)%nat.
Proof.
  intros Hne Hname.
  destruct (validFileName_shape _ _ Hne Hname) as (u & body & Hshape & Hu & Hbody).
  split; [by rewrite Hshape|]. split; [|by apply validFileName_length].
  rewrite Hshape. cbn [sall]. by rewrite (upper_word u Hu), sall_app, Hbody.
Qed.

(** X10: identifiers made from a node id: [qmlId] gives the prefix [figma_]
    and one lower-case letter, digit or underscore for every character of the
    id; [delegateName] gives the prefix [delegate_] and the id without any
    colon. *)
Theorem generated_identifiers (id : string) :
  (∃ body, qmlId id = "figma_" +:+ body
           ∧ String.length body = String.length id
           ∧ sall isLowerWord body = true)
  ∧ (∃ body, delegateName id = "delegate_" +:+ body
             ∧ String.length body = String.length id
             ∧ without ":" body = true).
Proof.
  split.
  - eexists. split; [reflexivity|]. split; [|apply qmlId_body].
    by rewrite length_smap, length_replace_class.
  - eexists. split; [reflexivity|]. split; [apply length_replace_class|].
    by apply replace_char_without.
Qed.

(** ** The source of an image *)

Lemma substring_0_app (a b : string) (k : nat) :
  String.substring 0 (String.length a + k) (a +:+ b) = a +:+ String.substring 0 k b.
Proof. induction a as [|c a IH]; [done|]. rewrite !append_cons. cbn. by rewrite IH. Qed.

Lemma substring_skip_app (a b : string) (k n : nat) :
  String.substring (String.length a + k) n (a +:+ b) = String.substring k n b.
Proof. induction a as [|c a IH]; [done|]. rewrite append_cons. cbn. by rewrite IH. Qed.

Lemma substring_split (s : string) (k : nat) :
  (k ≤ String.length s)%nat →
  s = String.substring 0 k s +:+ String.substring k (String.length s - k) s.
Proof.
  revert k. induction s as [|c s IH]; intros [|k] Hk; cbn in *; try lia; try done.
  - assert (String.substring 0 (String.length s) s = s) as ->; [|done].
    clear. induction s as [|c s IH]; [done|]. cbn. by rewrite IH.
  - rewrite append_cons. f_equal. apply IH. lia.
Qed.

Lemma length_substring_0 (s : string) (k : nat) :
  (k ≤ String.length s)%nat → String.length (String.substring 0 k s) = k.
Proof.
  revert k. induction s as [|c s IH]; intros [|k] Hk; cbn in *; try lia; try done.
  rewrite IH; lia.
Qed.

Lemma length_substring_rest (s : string) (k : nat) :
  (k ≤ String.length s)%nat →
  String.length (String.substring k (String.length s - k) s) = (String.length s - k)%nat.
Proof.
  intros Hk. pose proof (substring_split s k Hk) as Hs.
  apply (f_equal String.length) in Hs. rewrite length_append, length_substring_0 in Hs by done.
  lia.
Qed.

Lemma break_source_chunks (fuel : nat) :
  ∀ (done rest : string) (k : nat),
    (String.length rest ≤ fuel)%nat → (1 ≤ k)%nat →
    ∃ chunks,
      cat chunks = rest
      ∧ chunks ≠ []
      ∧ Forall (λ chunk, (String.length chunk ≤ k `max` 1018)%nat) chunks
      ∧ break_source fuel (String.length done + k) (done +:+ rest)
        = done +:+ joined chunks.
Proof.
  induction fuel as [|fuel IH]; intros done rest k Hfuel Hk.
  - exists [rest]. destruct rest; [|cbn in Hfuel; lia].
    split; [done|]. split; [done|]. split; [repeat constructor; cbn; lia|done].
  - cbn [break_source]. fold separator. rewrite length_append.
    destruct (Nat.ltb_spec (String.length done + k) (String.length done + String.length rest))
      as [Hlt|Hge].
    + set (first := String.substring 0 k rest).
      set (rest' := String.substring k (String.length rest - k) rest).
      assert (rest = first +:+ rest') as Hrest by (apply substring_split; lia).
      assert (String.length first = k) as Hfirst by (apply length_substring_0; lia).
      assert (String.length rest' = String.length rest - k)%nat as Hrest'
        by (apply length_substring_rest; lia).
      assert (insert_at (String.length done + k) separator (done +:+ rest)
              = (done +:+ first +:+ separator) +:+ rest') as ->.
      { unfold insert_at. rewrite substring_0_app, length_append.
        replace (String.length done + String.length rest - (String.length done + k))%nat
          with (String.length rest - k)%nat by lia.
        rewrite substring_skip_app. by rewrite !append_assoc. }
      replace (String.length done + k + 1024)%nat
        with (String.length (done +:+ first +:+ separator) + 1018)%nat
        by (rewrite !length_append, Hfirst; change (String.length separator) with 6%nat; lia).
      destruct (IH (done +:+ first +:+ separator) rest' 1018%nat)
        as (chunks & Hcat & Hne & Hall & Hbreak); [lia..|].
      exists (first :: chunks). rewrite Hbreak.
      split; [by rewrite cat_cons, Hcat|]. split; [done|]. split.
      * constructor; [lia|]. eapply Forall_impl; [exact Hall|]. cbn. lia.
      * destruct chunks as [|second chunks]; [done|].
        cbn [joined fmap list_fmap]. by rewrite cat_cons, !append_assoc.
    + exists [rest]. split; [by rewrite cat_cons, append_nil_r|]. split; [done|].
      split; [repeat constructor; lia|]. cbn [joined fmap list_fmap].
      by rewrite append_nil_r.
Qed.

(** X11: when the image provider has data for the image, [makeImageSource]
    keeps all of it in order: the source is the data cut into pieces of at
    most 1024 characters, each piece a string literal and the literals joined
    by [+]. *)
Theorem makeImageSource_keeps_data (this : FigmaParser) (image : string)
    (isRendering : bool) (intendents : Z) (placeHolder : string) :
  mImageProvider this image isRendering ≠ "" →
  ∃ chunks,
    cat chunks = mImageProvider this image isRendering
    ∧ Forall (λ chunk, (String.length chunk ≤ 1024)%nat) chunks
    ∧ makeImageSource this image isRendering intendents placeHolder
      = Ok (tabs intendents +:+ "source: " +:+ dq +:+ joined chunks +:+ dq +:+ nl).
Proof.
  intros Hdata. unfold makeImageSource.
  destruct (mImageProvider this image isRendering) as [|c data] eqn:Hprovider; [done|].
  cbn [isEmpty]. munfold.
  destruct (break_source_chunks (String.length (String c data)) "" (String c data) 1024)
    as (chunks & Hcat & _ & Hall & Hbreak); [lia..|].
  exists chunks. split; [done|]. split.
  { eapply Forall_impl; [exact Hall|]. cbn. lia. }
  change (String.length "" + 1024)%nat with 1024%nat in Hbreak.
  change ("" +:+ String c data) with (String c data) in Hbreak.
  fold separator. rewrite Hbreak. done.
Qed.

(** X12: [makeImageSource] fails exactly when the image provider has no data
    for the image and no place holder is given, or has no data for the place
    holder either; with a place holder that has data the source is emitted
    behind a comment and a source size. *)
Theorem makeImageSource_fails (this : FigmaParser) (image : string) (isRendering : bool)
    (intendents : Z) (placeHolder : string) :
  mImageProvider this image isRendering = "" →
  (placeHolder = "" →
   makeImageSource this image isRendering intendents placeHolder
   = Throw (Exception ("Cannot read imageRef " +:+ image)))
  ∧ (placeHolder ≠ "" → mImageProvider this placeHolder isRendering = "" →
     makeImageSource this image isRendering intendents placeHolder
     = Throw (Exception "Cannot load placeholder"))
  ∧ (placeHolder ≠ "" → mImageProvider this placeHolder isRendering ≠ "" →
     ∃ out, makeImageSource this image isRendering intendents placeHolder = Ok out
            ∧ holds_in_order ["//Image load failed, placeholder"; "sourceSize: "; "source: "]
                out).
Proof.
  intros Hnone. unfold makeImageSource. rewrite Hnone. cbn [isEmpty]. munfold.
  split; [by intros ->|].
  split.
  - intros Hph ->. by destruct placeHolder.
  - intros Hph Hdata. destruct placeHolder as [|p placeHolder]; [done|]. cbn [isEmpty].
    destruct (mImageProvider this (String p placeHolder) isRendering) as [|c data]; [done|].
    cbn [isEmpty]. eexists. split; [done|].
    exists (tabs intendents), (nl +:+ tabs intendents +:+ "sourceSize: Qt.size(parent.width, parent.height)" +:+ nl +:+ tabs intendents +:+ "source: " +:+ dq
        +:+ break_source (String.length (String c data)) 1024 (String c data) +:+ dq +:+ nl).
    split; [by rewrite !append_assoc|].
    exists (nl +:+ tabs intendents), ("Qt.size(parent.width, parent.height)" +:+ nl +:+ tabs intendents +:+ "source: " +:+ dq
        +:+ break_source (String.length (String c data)) 1024 (String c data) +:+ dq +:+ nl).
    split; [by rewrite !append_assoc|].
    exists ("Qt.size(parent.width, parent.height)" +:+ nl +:+ tabs intendents),
      (dq +:+ break_source (String.length (String c data)) 1024 (String c data) +:+ dq +:+ nl).
    split; [by rewrite !append_assoc|]. done.
Qed.

(** ** Transforms *)

(** X13: a node without a transform, and a node whose transform is a pure
    translation, get no transform matrix; the translation is the position of
    the node. *)
Theorem makeTransforms_translation (obj : QJsonObject) (intendents : Z) :
  (jcontains obj "relativeTransform" = false → makeTransforms obj intendents = "")
  ∧ (∀ tx ty, jvalue obj "relativeTransform" = translation tx ty →
       makeTransforms obj intendents = "" ∧ position obj = (tx, ty)).
Proof.
  split.
  - intros H. unfold makeTransforms. by rewrite H.
  - intros tx ty H. unfold makeTransforms, position. rewrite H.
    by destruct (jcontains obj "relativeTransform").
Qed.

(** ** The catalogue of components *)

(** X14: when [components] reports no issue, the catalogue has one entry
    for every key of the table of components of the project and no other;
    the entry of a key holds that key as its id, the key and description
    fields of the table, and a node of type COMPONENT whose id is the key. *)
Theorem components_complete (project : QJsonObject) (nodes : string → string)
    (map : Components) :
  components project nodes = Some (map, []) →
  dom map = list_to_set (jkeys (toObject (jvalue project "components")))
  ∧ ∀ key c, map !! key = Some c →
      registered_from (toObject (jvalue project "components")) key c.
Proof.
  unfold components.
  destruct (registerAll _ _ _ _) as [[objects map'] [[]| |]] eqn:Hall; [|done..].
  intros [= <-].
  apply registerAll_registered in Hall as [Hdom Hreg]; cbn [fst snd] in *.
  - split; [|done]. rewrite Hdom, dom_empty_L. set_solve.
  - intros k o. apply getObjectsByType_fuel_sound.
  - by intros k c ?%lookup_empty_Some.
Qed.

(** X28: [components] returns, with a catalogue and at most one issue,
    for every project whose raw names hold no place marker with the letter
    L and, in a debug build, do not end with the suffix of the sanitized
    names: no assertion fails, and the loop that looks for a free name
    ends. *)
Theorem components_returns (project : QJsonObject) (nodes : string → string) :
  (∀ key, key ∈ jkeys (toObject (jvalue project "components")) →
     plain_markers (raw_name (toObject (jvalue project "components")) key) = true
     ∧ (QT_DEBUG = true →
        endsWith (raw_name (toObject (jvalue project "components")) key) FIGMA_SUFFIX
        = false)) →
  ∃ map issues, components project nodes = Some (map, issues) ∧ (length issues ≤ 1)%nat.
Proof.
  intros Hkeys. unfold components.
  edestruct (registerAll_returns nodes (toObject (jvalue project "components")) _ Hkeys)
    as (st' & r & -> & Hr).
  { cbn [snd]. by intros k c ?%lookup_empty_Some. }
  destruct st' as [cos map], r as [[]|what|]; [| |done];
    (eexists _, _; split; [reflexivity|cbn [length]; lia]).
Qed.

Lemma registerComponent_inline (nodes1 nodes2 : string → string) (components : QJsonObject)
    (key : string) (st : gmap string QJsonObject * Components) :
  is_Some (st.1 !! key) →
  registerComponent nodes1 components key st = registerComponent nodes2 components key st
  ∧ ∀ st', registerComponent nodes1 components key st = Ok st' → st'.1 = st.1.
Proof.
  destruct st as [objects map]. cbn [fst]. intros Hkey.
  unfold registerComponent. munfold. rewrite bool_decide_eq_true_2 by done. cbn [negb].
  split; [done|]. intros st'. repeat case_match; try done. by intros [= <-].
Qed.

(** X15: the remote lookup is not consulted for a component whose body is
    in the document: when every key of the table of components is the id
    of a component node of the document, [components] gives the same result
    for every lookup function. *)
Theorem components_without_lookup (project : QJsonObject) (nodes1 nodes2 : string → string) :
  (∀ key, key ∈ jkeys (toObject (jvalue project "components")) →
     is_Some (getObjectsByType (toObject (jvalue project "document")) "COMPONENT" !! key)) →
  components project nodes1 = components project nodes2.
Proof.
  intros Hinline. unfold components.
  set (table := toObject (jvalue project "components")) in *.
  set (objects := getObjectsByType _ "COMPONENT") in *.
  assert (∀ keys (st : gmap string QJsonObject * Components),
            st.1 = objects → (∀ key, key ∈ keys → is_Some (objects !! key)) →
            registerAll nodes1 table keys st = registerAll nodes2 table keys st) as Hall;
    [|by rewrite (Hall (jkeys table) (objects, ∅))].
  induction keys as [|key keys IH]; intros st Hst Hkeys; cbn [registerAll]; [done|].
  destruct (registerComponent_inline nodes1 nodes2 table key st) as [<- Hsame].
  { rewrite Hst. apply Hkeys. left. }
  destruct (registerComponent nodes1 table key st) as [st'| |] eqn:Hstep; [|done..].
  apply IH; [by rewrite (Hsame st')|]. intros. apply Hkeys. by right.
Qed.

(** ** Dispatch *)

Lemma assoc_Some {V : Type} (table : list (string * V)) (key : string) :
  key ∈ table.*1 → ∃ v, assoc table key = Some v.
Proof.
  induction table as [|[k v] table IH]; cbn [assoc fmap list_fmap fst].
  - by intros ?%elem_of_nil.
  - intros Hkey. destruct (String.eqb_spec k key) as [->|Hne]; [by eexists|].
    apply IH. by apply elem_of_cons in Hkey as [->|].
Qed.

Lemma assoc_None_iff {V : Type} (table : list (string * V)) (key : string) :
  assoc table key = None ↔ key ∉ table.*1.
Proof.
  split; [|apply assoc_None]. intros Hnone Hkey.
  destruct (assoc_Some table key Hkey) as [v Hv]. congruence.
Qed.

(** X16: the table of the parsers and the table of the item types have the
    same keys, so for every node that [parse] dispatches, [type] and
    [isRendering] return without an exception. *)
Theorem dispatch_tables_agree (this : FigmaParser) (rec : QJsonObject → Z → method string)
    (obj : QJsonObject) :
  (assoc (parsers this rec) (toString (jvalue obj "type")) = None
   ↔ assoc types (toString (jvalue obj "type")) = None)
  ∧ (assoc (parsers this rec) (toString (jvalue obj "type")) ≠ None →
     ∃ t b, itemType obj = Ok t ∧ isRendering this obj = Ok b).
Proof.
  split.
  - by rewrite !assoc_None_iff, parsers_keys, types_keys.
  - rewrite assoc_None_iff, parsers_keys, <- types_keys. intros Hkey.
    destruct (assoc_Some types (toString (jvalue obj "type"))) as [t Ht].
    { by destruct (decide (toString (jvalue obj "type") ∈ types.*1)). }
    assert (itemType obj = Ok t) as Hitem by (unfold itemType; by rewrite Ht).
    exists t. unfold isRendering. rewrite Hitem. munfold.
    repeat case_match; by eexists.
Qed.

(** ** Values inherited from the component *)

(** X17: [getValue] returns the member of the node when it has the key; a
    node without the key that is no instance gives the null value (a default
    [QJsonValue]); an instance gives the member of its component, or the
    null value when the component, no instance itself, has no such member,
    and ends the process when its component is not in the catalogue. *)
Theorem getValue_fallback (this : FigmaParser) (obj : QJsonObject) (key : string) :
  (jcontains obj key = true → getValue this obj key = Ok (jvalue obj key))
  ∧ (jcontains obj key = false →
     (∀ t, itemType obj = Ok t → t ≠ Instance → getValue this obj key = Ok JNull)
     ∧ (itemType obj = Ok Instance →
        (m_components this !! toString (jvalue obj "componentId") = None →
         getValue this obj key = Crash)
        ∧ (∀ c, m_components this !! toString (jvalue obj "componentId") = Some c →
             (jcontains (Component.object c) key = true →
              getValue this obj key = Ok (jvalue (Component.object c) key))
             ∧ (jcontains (Component.object c) key = false →
                ∀ t, itemType (Component.object c) = Ok t → t ≠ Instance →
                     getValue this obj key = Ok JNull)))).
Proof.
  unfold getValue. split.
  - intros H. cbn [getValue_fuel]. by rewrite H.
  - intros H. split.
    + intros t Ht Hne. cbn [getValue_fuel]. rewrite H, Ht. munfold.
      by rewrite bool_decide_eq_false_2.
    + intros Ht. split.
      * intros Hnone. cbn [getValue_fuel]. rewrite H, Ht. munfold.
        by rewrite bool_decide_eq_true_2, Hnone.
      * intros c Hc.
        destruct (base.size (m_components this)) as [|n] eqn:Hsize.
        { apply map_size_empty_iff in Hsize. rewrite Hsize in Hc.
          by apply lookup_empty_Some in Hc. }
        split.
        -- intros Hkey. cbn [getValue_fuel]. rewrite H, Ht. munfold.
           rewrite bool_decide_eq_true_2, Hc by done. unfold Component.object in *.
           by rewrite Hkey.
        -- intros Hkey t Hct Hne. cbn [getValue_fuel]. rewrite H, Ht. munfold.
           rewrite bool_decide_eq_true_2, Hc by done. unfold Component.object in *.
           rewrite Hkey, Hct. by rewrite bool_decide_eq_false_2.
Qed.

(** ** The members of the parser object *)

Lemma preserves_ret {A : Type} (R : members → members → Prop) (a : A) :
  Reflexive R → preserves R (mret a).
Proof. intros HR st a' st'. munfold. by intros [= _ <-]. Qed.

Lemma preserves_lift {A : Type} (R : members → members → Prop) (o : outcome A) :
  Reflexive R → preserves R (lift o).
Proof. intros HR st a st'. unfold lift. destruct o; [|done..]. by intros [= _ <-]. Qed.

Lemma preserves_bind {A B : Type} (R : members → members → Prop) (m : method A)
    (k : A → method B) :
  Transitive R → preserves R m → (∀ a, preserves R (k a)) → preserves R (m ≫= k).
Proof.
  intros HR Hm Hk st b st'. munfold.
  destruct (m st) as [[a st1]| |] eqn:E; [|done..]. intros Hb.
  transitivity st1; [by eapply Hm|by eapply Hk].
Qed.

Lemma preserves_foldM {A B : Type} (R : members → members → Prop) (f : A → B → method A)
    (l : list B) :
  Reflexive R → Transitive R →
  (∀ a b, b ∈ l → preserves R (f a b)) → ∀ a, preserves R (foldM f a l).
Proof.
  intros Hrefl Htrans. induction l as [|b l IH]; intros Hf a; cbn [foldM].
  - by apply preserves_ret.
  - apply preserves_bind; [done|apply Hf; left|].
    intros a'. apply IH. intros. apply Hf. by right.
Qed.

Lemma preserves_weaken {A : Type} (R R' : members → members → Prop) (m : method A) :
  (∀ st st', R st st' → R' st st') → preserves R m → preserves R' m.
Proof. intros HR Hm st a st' H. apply HR. by eapply Hm. Qed.

#[local] Instance unchanged_refl : Reflexive unchanged.
Proof. by intros st. Qed.

#[local] Instance unchanged_trans : Transitive unchanged.
Proof. unfold unchanged. by intros st1 st2 st3 -> ->. Qed.

#[local] Instance ids_within_refl (this : FigmaParser) : Reflexive (ids_within this).
Proof. intros st. unfold ids_within. set_solve. Qed.

#[local] Instance ids_within_trans (this : FigmaParser) : Transitive (ids_within this).
Proof. unfold ids_within. intros st1 st2 st3 [? ?] [? ?]. set_solve. Qed.

#[local] Instance keeps_refl (this : FigmaParser) : Reflexive (keeps this).
Proof. intros st. by split. Qed.

#[local] Instance keeps_trans (this : FigmaParser) : Transitive (keeps this).
Proof.
  intros st1 st2 st3 [H1 ?] [H2 ?]. split; [by rewrite H2|by transitivity st2].
Qed.

Lemma unchanged_keeps (this : FigmaParser) (st st' : members) :
  unchanged st st' → keeps this st st'.
Proof. by intros ->. Qed.

Lemma keeps_ids_within (this : FigmaParser) (st st' : members) :
  keeps this st st' → ids_within this st st'.
Proof. by intros [_ ?]. Qed.

Lemma bind_Ok {A B : Type} (m : method A) (k : A → method B) (st st' : members) (b : B) :
  (m ≫= k) st = Ok (b, st') → ∃ a st1, m st = Ok (a, st1) ∧ k a st1 = Ok (b, st').
Proof.
  munfold. destruct (m st) as [[a st1]| |]; [|done..]. intros H. by exists a, st1.
Qed.

(** The steps that take a method apart along its binds and branches. *)
Ltac preserve :=
  cbv zeta;
  repeat first
    [ apply preserves_ret; apply _
    | apply preserves_lift; apply _
    | assumption
    | apply preserves_bind; [apply _| |intros ?]
    | match goal with
      | |- preserves _ (if ?b then _ else _) => destruct b
      | |- preserves _ (match ?x with _ => _ end) => destruct x
      end ].

Lemma makeExtents_axis_unchanged (this : FigmaParser) (obj : QJsonObject)
    (intendent constraint : string) (fixed : list string) (axis dim : string) (t : Z) :
  preserves unchanged (makeExtents_axis this obj intendent constraint fixed axis dim t).
Proof.
  intros st a st'. unfold makeExtents_axis.
  repeat case_match; try done; by intros [= _ <-].
Qed.

Lemma makeExtents_unchanged (this : FigmaParser) (obj : QJsonObject) (intendents : Z)
    (extents : QRectF) :
  preserves unchanged (makeExtents this obj intendents extents).
Proof.
  unfold makeExtents. pose proof (makeExtents_axis_unchanged this obj) as Haxis. preserve.
  all: apply Haxis.
Qed.

Create HintDb members discriminated.

Ltac preserve_with :=
  cbv zeta;
  repeat first
    [ apply preserves_ret; apply _
    | apply preserves_lift; apply _
    | assumption
    | solve [auto 1 with members]
    | apply preserves_bind; [apply _| |intros ?]
    | match goal with
      | |- preserves _ (if ?b then _ else _) => destruct b
      | |- preserves _ (match ?x with _ => _ end) => destruct x
      end ].

#[local] Hint Resolve makeExtents_unchanged : members.

Lemma makeVector_unchanged (this : FigmaParser) (obj : QJsonObject) (intendents : Z) :
  preserves unchanged (makeVector this obj intendents).
Proof. unfold makeVector. preserve_with. Qed.

Lemma makeVectorNormalFill_unchanged (this : FigmaParser) (obj : QJsonObject)
    (intendents : Z) :
  preserves unchanged (makeVectorNormalFill this obj intendents).
Proof. unfold makeVectorNormalFill. preserve_with. Qed.

Lemma makeVectorNormalFill_image_unchanged (this : FigmaParser) (image : string)
    (obj : QJsonObject) (intendents : Z) :
  preserves unchanged (makeVectorNormalFill_image this image obj intendents).
Proof. unfold makeVectorNormalFill_image. preserve_with. Qed.

Lemma makeVectorInsideFill_unchanged (this : FigmaParser) (obj : QJsonObject)
    (intendents : Z) :
  preserves unchanged (makeVectorInsideFill this obj intendents).
Proof. unfold makeVectorInsideFill. preserve_with. Qed.

Lemma makeVectorInsideFill_image_unchanged (this : FigmaParser) (image : string)
    (obj : QJsonObject) (intendents : Z) :
  preserves unchanged (makeVectorInsideFill_image this image obj intendents).
Proof. unfold makeVectorInsideFill_image. preserve_with. Qed.

Lemma makeVectorOutsideFill_unchanged (this : FigmaParser) (obj : QJsonObject)
    (intendents : Z) :
  preserves unchanged (makeVectorOutsideFill this obj intendents).
Proof. unfold makeVectorOutsideFill. preserve_with. Qed.

Lemma makeVectorOutsideFill_image_unchanged (this : FigmaParser) (image : string)
    (obj : QJsonObject) (intendents : Z) :
  preserves unchanged (makeVectorOutsideFill_image this image obj intendents).
Proof. unfold makeVectorOutsideFill_image. preserve_with. Qed.

#[local] Hint Resolve makeVector_unchanged makeVectorNormalFill_unchanged
  makeVectorNormalFill_image_unchanged makeVectorInsideFill_unchanged
  makeVectorInsideFill_image_unchanged makeVectorOutsideFill_unchanged
  makeVectorOutsideFill_image_unchanged : members.

Lemma parseVector_unchanged (this : FigmaParser) (obj : QJsonObject) (intendents : Z) :
  preserves unchanged (parseVector this obj intendents).
Proof.
  unfold parseVector, makeVectorInside, makeVectorOutside, makeVectorNormal. preserve_with.
Qed.

Lemma parseText_unchanged (this : FigmaParser) (obj : QJsonObject) (intendents : Z) :
  preserves unchanged (parseText this obj intendents).
Proof. unfold parseText. preserve_with. Qed.

Lemma parseRendered_unchanged (this : FigmaParser) (obj : QJsonObject) (intendents : Z) :
  preserves unchanged (parseRendered this obj intendents).
Proof.
  intros st a st'. unfold parseRendered, unchanged. munfold.
  repeat case_match; try done; intros; simplify_eq; done.
Qed.

#[local] Hint Resolve parseVector_unchanged parseText_unchanged parseRendered_unchanged
  : members.

Lemma set_parent_ids_within (this : FigmaParser) (parent : QJsonObject) :
  preserves (ids_within this) (set_parent parent).
Proof.
  intros st [] st'. unfold set_parent. intros [= <-]. unfold ids_within. cbn. set_solve.
Qed.

Lemma insert_componentId_keeps (this : FigmaParser) (id : string) :
  is_Some (m_components this !! id) → preserves (keeps this) (insert_componentId id).
Proof.
  intros Hid%elem_of_dom st [] st'. unfold insert_componentId. intros [= <-].
  split; [done|]. unfold ids_within. cbn. set_solve.
Qed.

Lemma never_returns {A : Type} (R : members → members → Prop) (m : method A) :
  (∀ st, ¬ ∃ r, m st = Ok r) → preserves R m.
Proof. intros Hm st a st' H. destruct (Hm st). by eexists. Qed.

(** The same steps for the methods of the descent, over a parser of the
    nested calls that keeps the members. *)
Ltac by_hypothesis :=
  match goal with
  | H : ∀ obj intendents, preserves _ (_ obj intendents) |- _ => apply H
  | H : ∀ obj intendents, preserves _ (_ _ _ obj intendents) |- _ => apply H
  end.

Ltac preserve_keeps :=
  repeat first
    [ progress cbv beta zeta
    | apply preserves_ret; apply _
    | apply preserves_lift; apply _
    | assumption
    | by_hypothesis
    | solve [auto 1 with members]
    | match goal with
      | |- preserves (keeps ?t) _ =>
          apply (preserves_weaken unchanged);
            [exact (unchanged_keeps t) | solve [auto 1 with members]]
      | |- preserves (ids_within ?t) _ =>
          apply (preserves_weaken (keeps t));
            [exact (keeps_ids_within t) | first [by_hypothesis | solve [auto 1 with members]]]
      end
    | apply preserves_bind; [apply _| |intros ?]
    | apply preserves_foldM; [apply _|apply _|intros ? ? _]
    | match goal with
      | |- preserves _ (if ?b then _ else _) => destruct b
      | |- preserves _ (match ?x with _ => _ end) => destruct x
      end ].

Section Keeps.

Variable this : FigmaParser.
Variable rec : QJsonObject → Z → method string.
Hypothesis Hrec : ∀ obj intendents, preserves (keeps this) (rec obj intendents).

#[local] Hint Resolve Hrec set_parent_ids_within : members.

Lemma parseChildrenItems_step_ids (obj : QJsonObject) (intendents : Z)
    (acc : bool * string * OrderedMap.t) (c : QJsonValue) :
  preserves (ids_within this) (parseChildrenItems_step rec obj intendents acc c).
Proof using Hrec.
  destruct acc as [[hasMask out] items]. unfold parseChildrenItems_step. preserve_keeps.
Qed.

Lemma parseChildrenItems_keeps (obj : QJsonObject) (intendents : Z) :
  preserves (keeps this) (parseChildrenItems rec obj intendents).
Proof using Hrec.
  intros st items st'. unfold parseChildrenItems. munfold. unfold get_parent, set_parent.
  destruct (jcontains obj "children").
  - destruct (foldM (parseChildrenItems_step rec obj intendents) _ _ st)
      as [[[[hasMask out] captured] st1]| |] eqn:Hfold; [|done..].
    apply (preserves_foldM (ids_within this)) in Hfold;
      [|apply _..|intros; apply parseChildrenItems_step_ids].
    destruct hasMask; intros [= _ <-]; by split.
  - intros [= _ <-]. split; [done|]. unfold ids_within. cbn. set_solve.
Qed.

#[local] Hint Resolve parseChildrenItems_keeps : members.

Lemma parseChildren_keeps (obj : QJsonObject) (intendents : Z) :
  preserves (keeps this) (parseChildren rec obj intendents).
Proof using Hrec. unfold parseChildren. preserve_keeps. Qed.

#[local] Hint Resolve parseChildren_keeps : members.

Lemma makePlainItem_keeps (obj : QJsonObject) (intendents : Z) :
  preserves (keeps this) (makePlainItem this rec obj intendents).
Proof using Hrec. unfold makePlainItem. preserve_keeps. Qed.

Lemma parseFrame_keeps (obj : QJsonObject) (intendents : Z) :
  preserves (keeps this) (parseFrame this rec obj intendents).
Proof using Hrec. unfold parseFrame. preserve_keeps. Qed.

Lemma makeInstanceChildren_keeps (obj comp : QJsonObject) (intendents : Z) :
  preserves (keeps this) (makeInstanceChildren this rec obj comp intendents).
Proof using Hrec. unfold makeInstanceChildren. preserve_keeps. Qed.

#[local] Hint Resolve makeInstanceChildren_keeps : members.

Lemma parseInstance_keeps (obj : QJsonObject) (intendents : Z) :
  preserves (keeps this) (parseInstance this rec obj intendents).
Proof using Hrec.
  unfold parseInstance. apply preserves_bind; [apply _|preserve_keeps|intros t].
  cbv zeta.
  destruct (m_components this !! _) as [comp|] eqn:Hcomp.
  - apply preserves_bind; [apply _|by apply insert_componentId_keeps|intros _].
    preserve_keeps.
  - apply never_returns. intros st [r Hr]. revert Hr. by munfold.
Qed.

#[local] Hint Resolve parseInstance_keeps : members.

Lemma parseComponent_keeps (obj : QJsonObject) (intendents : Z) :
  preserves (keeps this) (parseComponent this rec obj intendents).
Proof using Hrec. unfold parseComponent. preserve_keeps. Qed.

Lemma parseBooleanOperation_keeps (obj : QJsonObject) (intendents : Z) :
  preserves (keeps this) (parseBooleanOperation this rec obj intendents).
Proof using Hrec.
  unfold parseBooleanOperation, parseBooleanOperation_body, boolean_union, boolean_subtract,
    boolean_intersect, boolean_exclude.
  preserve_keeps.
  all: unfold boolean_intersect_step, boolean_exclude_step; preserve_keeps.
Qed.

Lemma parse_node_keeps (obj : QJsonObject) (intendents : Z) :
  preserves (keeps this) (parse_node this rec obj intendents).
Proof using Hrec.
  pose proof parseComponent_keeps. pose proof parseBooleanOperation_keeps.
  pose proof parseFrame_keeps. pose proof makePlainItem_keeps.
  unfold parse_node, parsers, parseGroup, parseRectangle, parseEllipse, parseLine,
    parsePolygon, parseStar, parseSlice. cbn [assoc].
  repeat (destruct (String.eqb _ (toString (jvalue obj "type"))); [preserve_keeps|]).
  preserve_keeps.
Qed.

Lemma parseInstance_registers (obj : QJsonObject) (intendents : Z) (st st' : members)
    (out : string) (t : ItemType) :
  itemType obj = Ok t →
  parseInstance this rec obj intendents st = Ok (out, st') →
  toString (if bool_decide (t = Instance) then jvalue obj "componentId" else jvalue obj "id")
    ∈ m_componentIds st'
  ∧ is_Some (m_components this
               !! toString (if bool_decide (t = Instance) then jvalue obj "componentId"
                            else jvalue obj "id")).
Proof using Hrec.
  intros Ht. unfold parseInstance. rewrite Ht.
  intros (t' & st0 & [= <- <-] & H)%bind_Ok. cbv zeta in H.
  apply bind_Ok in H as ([] & st1 & [= <-] & H).
  destruct (m_components this !! _) as [comp|] eqn:Hcomp; [|done].
  split; [|done]. apply bind_Ok in H as (o & st2 & Hinner & [= _ <-]).
  match type of Hinner with
  | ?m _ = _ => assert (preserves (keeps this) m) as Hm by preserve_keeps
  end.
  apply Hm in Hinner as [_ [Hsub _]]. apply Hsub. cbn. set_solve.
Qed.

End Keeps.

Lemma parse_fuel_keeps (this : FigmaParser) (fuel : nat) :
  ∀ obj intendents, preserves (keeps this) (parse_fuel this fuel obj intendents).
Proof.
  induction fuel as [|fuel IH]; intros obj intendents; cbn [parse_fuel]; [done|].
  by apply parse_node_keeps.
Qed.

(** X18: every normal return of [parse] leaves [m_parent] as it found it,
    removes no id from [m_componentIds], and adds only ids of components of
    the catalogue. *)
Theorem parse_keeps_members (this : FigmaParser) (obj : QJsonObject) (intendents : Z)
    (st st' : members) (out : string) :
  parse this obj intendents st = Ok (out, st') →
  m_parent st' = m_parent st
  ∧ m_componentIds st ⊆ m_componentIds st'
  ∧ m_componentIds st' ⊆ m_componentIds st ∪ dom (m_components this).
Proof. unfold parse. apply parse_fuel_keeps. Qed.

Lemma getElement_components (this : FigmaParser) (obj : QJsonObject) (st st' : members)
    (e : Element.t) :
  getElement this obj st = Ok (e, st') →
  ∀ id, id ∈ Element.components e →
    id ∈ m_componentIds st ∨ is_Some (m_components this !! id).
Proof.
  unfold getElement. intros ([] & st0 & [= <-] & H)%bind_Ok.
  apply bind_Ok in H as (bytes & st1 & Hparse & H).
  unfold parse in Hparse. apply parse_fuel_keeps in Hparse as [_ [_ Hsub]].
  cbn [m_componentIds] in Hsub.
  apply bind_Ok in H as (ids & st2 & [= <- <-] & H).
  apply bind_Ok in H as (name & st3 & _ & [= <- _]).
  intros id Hid. unfold Element.components in Hid. cbn [Element.m_componentIds] in Hid.
  apply elem_of_elements, Hsub in Hid.
  apply elem_of_union in Hid as [?|?%elem_of_dom]; auto.
Qed.

(** X19: when [element] or [component] reports no issue, every component
    id that the returned element lists is a key of the catalogue. *)
Theorem element_components_known (obj : QJsonObject) (flags : Z)
    (data : string → bool → string) (resolveFont : string → string)
    (components : Components) (e : Element.t) :
  element obj flags data resolveFont components = Some (e, [])
  ∨ component obj flags data resolveFont components = Some (e, []) →
  ∀ id, id ∈ Element.components e → is_Some (components !! id).
Proof.
  unfold element, component, report.
  intros [H|H] id Hid;
    (destruct (getElement _ obj fresh) as [[e' st']| |] eqn:Hget; [|done..]);
    injection H as <-;
    (destruct (getElement_components _ _ _ _ _ Hget id Hid) as [Hfresh|Hknown];
     [by apply elem_of_empty in Hfresh|done]).
Qed.

Lemma parse_instance (this : FigmaParser) (obj : QJsonObject) (intendents : Z) (st : members) :
  toString (jvalue obj "type") = "INSTANCE" →
  isRendering this obj = Ok false →
  ∃ fuel, parse this obj intendents st
          = parseInstance this (parse_fuel this fuel) obj intendents st.
Proof.
  intros Htype Hr. destruct (parse_unfold this obj intendents) as [fuel ->].
  exists fuel. unfold parse_node. rewrite Htype.
  change (assoc (parsers this (parse_fuel this fuel)) "INSTANCE")
    with (Some (parseInstance this (parse_fuel this fuel))).
  munfold. by rewrite Hr.
Qed.

(** X20: a parsed instance node that is not pre-rendered has the id of its
    component in [m_componentIds], and that component is in the catalogue. *)
Theorem instance_registers_component (this : FigmaParser) (obj : QJsonObject)
    (intendents : Z) (st st' : members) (out : string) :
  toString (jvalue obj "type") = "INSTANCE" →
  isRendering this obj = Ok false →
  parse this obj intendents st = Ok (out, st') →
  toString (jvalue obj "componentId") ∈ m_componentIds st'
  ∧ is_Some (m_components this !! toString (jvalue obj "componentId")).
Proof.
  intros Htype Hr. destruct (parse_instance this obj intendents st Htype Hr) as [fuel ->].
  intros H.
  by apply (parseInstance_registers this (parse_fuel this fuel) (parse_fuel_keeps this fuel)
              obj intendents st st' out Instance (itemType_of obj "INSTANCE" Instance Htype eq_refl))
    in H.
Qed.

(** X21: an instance node that is not pre-rendered and whose component is
    not in the catalogue makes [parse] throw, and [element] reports the
    exception as a fatal issue and returns the default element. *)
Theorem unknown_component_is_fatal (this : FigmaParser) (obj : QJsonObject)
    (intendents : Z) (st : members) (data : string → bool → string)
    (resolveFont : string → string) :
  toString (jvalue obj "type") = "INSTANCE" →
  isRendering this obj = Ok false →
  m_components this !! toString (jvalue obj "componentId") = None →
  parse this obj intendents st
  = Throw (Exception ("Unexpected component dependency from "
                      +:+ toString (jvalue obj "id") +:+ " to "
                      +:+ toString (jvalue obj "componentId")))
  ∧ (mImageProvider this = data → mResolveFont this = resolveFont →
     element obj (m_flags this) data resolveFont (m_components this)
     = Some (Element.empty,
             [(Exception ("Unexpected component dependency from "
                          +:+ toString (jvalue obj "id") +:+ " to "
                          +:+ toString (jvalue obj "componentId")), true)])).
Proof.
  intros Htype Hr Hnone.
  assert (∀ i st, parse this obj i st
                = Throw (Exception ("Unexpected component dependency from "
                                    +:+ toString (jvalue obj "id") +:+ " to "
                                    +:+ toString (jvalue obj "componentId")))) as Hparse.
  { intros i st0. destruct (parse_instance this obj i st0 Htype Hr) as [fuel ->].
    unfold parseInstance. rewrite (itemType_of obj "INSTANCE" Instance Htype eq_refl).
    munfold. unfold insert_componentId. rewrite bool_decide_eq_true_2 by done.
    rewrite Hnone. reflexivity. }
  split; [apply Hparse|]. intros <- <-. unfold element, getElement. munfold. cbn [set_parent].
  destruct this. cbn [m_flags mImageProvider mResolveFont m_components] in *.
  by rewrite Hparse.
Qed.

(** ** Children items without a mask *)

Lemma jvalue_absent (obj : QJsonObject) (key : string) :
  jcontains obj key = false → jvalue obj key = JUndefined.
Proof.
  unfold jcontains. induction obj as [|[k v] obj IH]; cbn [existsb jvalue fst]; [done|].
  intros [Hk Hobj]%orb_false_iff. rewrite Hk. by apply IH.
Qed.

Lemma parseChildrenItems_fold_plain (rec : QJsonObject → Z → method string)
    (obj : QJsonObject) (intendents : Z) (children : QJsonArray) :
  existsb isMask children = false →
  ∀ (out : string) (items : OrderedMap.t) (st : members)
    (hasMask' : bool) (out' : string) (items' : OrderedMap.t) (st' : members),
    foldM (parseChildrenItems_step rec obj intendents) (false, out, items) children st
    = Ok ((hasMask', out', items'), st') →
    ∃ texts,
      OrderedMap.m_data items' = OrderedMap.m_data items ++ zip (child_id <$> children) texts
      ∧ children_parsed rec obj (intendents + 1) (m_componentIds st) children texts
          (m_componentIds st').
Proof.
  induction children as [|c children IH]; cbn [existsb foldM];
    intros Hmask out items st hasMask' out' items' st'.
  - munfold. intros [= _ _ <- <-]. exists []. by rewrite app_nil_r.
  - apply orb_false_iff in Hmask as [Hc Hmask].
    intros ([[hasMask1 out1] items1] & st1 & Hstep & Hfold)%bind_Ok.
    revert Hstep. unfold parseChildrenItems_step. fold (isMask c). rewrite Hc.
    intros ([] & st0 & [= <-] & (bytes & st2 & Hbytes & [= <- <- <- <-])%bind_Ok)%bind_Ok.
    apply IH in Hfold as (texts & Hdata & Hall); [|done].
    exists (bytes :: texts). split.
    + rewrite Hdata. cbn [OrderedMap.insert OrderedMap.m_data]. by rewrite <- app_assoc.
    + cbn [children_parsed]. by exists st2.
Qed.

(** X22: when no child of a node is a mask, the children items are one
    item for every child, in the order of the children and under the id of
    the child; each item is what the nested parser returns for that child
    one level deeper, called with [m_parent] set to the node and with the
    [m_componentIds] that the child before left; [m_parent] is restored at
    the end and [m_componentIds] is what the last child left. *)
Theorem children_items_without_mask (rec : QJsonObject → Z → method string)
    (obj : QJsonObject) (intendents : Z) (st st' : members) (items : OrderedMap.t) :
  existsb isMask (toArray (jvalue obj "children")) = false →
  parseChildrenItems rec obj intendents st = Ok (items, st') →
  m_parent st' = m_parent st
  ∧ ∃ texts,
      OrderedMap.m_data items = zip (child_id <$> toArray (jvalue obj "children")) texts
      ∧ children_parsed rec obj (intendents + 1) (m_componentIds st)
          (toArray (jvalue obj "children")) texts (m_componentIds st').
Proof.
  intros Hmask. unfold parseChildrenItems.
  intros (parent & st0 & [= <- <-] & H)%bind_Ok.
  apply bind_Ok in H as (items0 & st1 & Hitems & H).
  apply bind_Ok in H as ([] & st2 & [= <-] & [= <- <-]). split; [done|].
  cbn [m_componentIds].
  destruct (jcontains obj "children") eqn:Hchildren.
  - apply bind_Ok in Hitems as ([[hasMask out] captured] & st2 & Hfold & Hitems).
    pose proof Hfold as Hflag. apply parseChildrenItems_fold in Hflag as [-> _].
    rewrite Hmask in Hitems. cbn [orb] in Hitems. injection Hitems as <- <-.
    by apply parseChildrenItems_fold_plain in Hfold.
  - injection Hitems as <- <-. rewrite (jvalue_absent _ _ Hchildren). by exists [].
Qed.

(** ** Pre-rendered nodes *)

(** X23: a node that is flagged as rendered is pre-rendered whatever the
    flags are; a vector or text node with a gradient among its fills is
    pre-rendered as well; and with no flag set no other node is. *)
Theorem isRendering_forced (this : FigmaParser) (obj : QJsonObject) :
  (toBool (jvalue obj "isRendering") = true → isRendering this obj = Ok true)
  ∧ (∀ t, itemType obj = Ok t → t = Vector ∨ t = Text → isGradient obj = true →
       isRendering this obj = Ok true)
  ∧ (∀ t, itemType obj = Ok t → m_flags this = 0 →
       toBool (jvalue obj "isRendering") = false → isGradient obj = false →
       isRendering this obj = Ok false).
Proof.
  unfold isRendering. split; [by intros ->|]. split.
  - intros t -> [-> | ->] ->; munfold; destruct (toBool _); try done.
    by rewrite orb_true_r.
  - intros t -> -> -> ->. munfold. unfold has_flag. rewrite !Z.land_0_l.
    cbn [Z.eqb negb orb]. by rewrite !andb_false_r.
Qed.

(** X24: a node of a supported type that is pre-rendered is emitted by
    [parseRendered], whatever its type is; in a debug build this ends the
    process when the parent node has no bounding box. *)
Theorem prerendered_node (this : FigmaParser) (obj : QJsonObject) (intendents : Z)
    (st : members) :
  toString (jvalue obj "type") ∈ supported_types →
  isRendering this obj = Ok true →
  parse this obj intendents st = parseRendered this obj intendents st
  ∧ (QT_DEBUG = true →
     jcontains obj "type" && jcontains obj "id" = true →
     jcontains (m_parent st) "absoluteBoundingBox" = false →
     parse this obj intendents st = Crash).
Proof.
  intros Htype Hr.
  assert (parse this obj intendents st = parseRendered this obj intendents st) as Hparse.
  { destruct (parse_unfold this obj intendents) as [fuel ->]. unfold parse_node.
    destruct (assoc_Some (parsers this (parse_fuel this fuel)) (toString (jvalue obj "type")))
      as [parser ->]; [by rewrite parsers_keys|].
    munfold. by rewrite Hr. }
  split; [done|]. intros Hdebug Hid Hparent. rewrite Hparse.
  unfold parseRendered, makeComponentInstance, Q_ASSERT. munfold.
  by rewrite Hdebug, Hid, Hparent.
Qed.

(** ** Delegates *)

Lemma holds_declaration (id name b : string) :
  holds_in_order [declaration id name]
    ("property " +:+ (if String.eqb name "transform" then "matrix4x4" else "real")
     +:+ " " +:+ id +:+ "_" +:+ name +:+ ":" +:+ b).
Proof. exists "", b. split; [|done]. unfold declaration. by rewrite !append_assoc. Qed.

Lemma delegate_properties_declare (intendent : string) (children : OrderedMap.t)
    (key name : string) :
  name ∈ ["transform"; "x"; "y"; "width"; "height"] →
  holds_in_order [declaration (delegateName key) name]
    (delegate_properties intendent children key).
Proof.
  intros Hname. unfold delegate_properties. cbv zeta.
  generalize (replace01 (toUpper (at0 (delegateName key))) (delegateName key)).
  generalize (OrderedMap.get children key). generalize (delegateName key).
  intros id item sname. cbv [cat foldr fmap list_fmap].
  repeat (apply elem_of_cons in Hname as [->|Hname]); [..|by apply elem_of_nil in Hname].
  all: rewrite ?append_assoc.
  all: match goal with
       | |- holds_in_order [declaration _ ?name] _ =>
           repeat first [ apply (holds_declaration id name) | simple apply holds_skip ]
       end.
Qed.

Lemma holds_app_r (pat s y : string) :
  holds_in_order [pat] s → holds_in_order [pat] (s +:+ y).
Proof.
  intros (a & b & -> & _). exists a, (b +:+ y). split; [|done]. by rewrite !append_assoc.
Qed.

Lemma holds_in_cat (pat x : string) (l : list string) :
  x ∈ l → holds_in_order [pat] x → holds_in_order [pat] (cat l).
Proof.
  intros Hx Hpat. induction l as [|y l IH]; [by apply elem_of_nil in Hx|].
  rewrite cat_cons. apply elem_of_cons in Hx as [<-|Hx].
  - by apply holds_app_r.
  - apply holds_skip. by apply IH.
Qed.


(** ** Colours *)

Lemma hex2_byte (z : Z) :
  0 ≤ z < 256 → String.length (hex2 z) = 2%nat ∧ sall isHexDigit (hex2 z) = true.
Proof.
  intros Hz.
  assert (forallb (λ z, (String.length (hex2 z) =? 2)%nat && sall isHexDigit (hex2 z))
                  (seqZ 0 256) = true) as Hall by (vm_compute; reflexivity).
  rewrite forallb_forall in Hall.
  assert (z ∈ seqZ 0 256) as Hin by (apply elem_of_seqZ; lia).
  apply list_elem_of_In, Hall, andb_true_iff in Hin as [Hlen Hhex].
  by apply Nat.eqb_eq in Hlen.
Qed.

(** X26: for channels whose value times 255 rounds into a byte, [toColor]
    writes the colour as a quoted [#] followed by eight lower-case
    hexadecimal digits, the alpha channel first. *)
Theorem toColor_format (r g b a : float) :
  Forall (λ c, 0 ≤ channel c < 256) [a; r; g; b] →
  toColor r g b a
  = dq +:+ "#" +:+ hex2 (channel a) +:+ hex2 (channel r) +:+ hex2 (channel g)
       +:+ hex2 (channel b) +:+ dq
  ∧ String.length (toColor r g b a) = 11%nat
  ∧ Forall (λ c, sall isHexDigit (hex2 (channel c)) = true) [a; r; g; b].
Proof.
  intros Hall.
  assert (∀ c, 0 ≤ channel c < 256 → to_unsigned (channel c) = channel c) as Hu.
  { intros c Hc. unfold to_unsigned. apply Z.mod_small. lia. }
  apply Forall_cons in Hall as [Ha Hall]. apply Forall_cons in Hall as [Hr Hall].
  apply Forall_cons in Hall as [Hg Hall]. apply Forall_cons in Hall as [Hb _].
  unfold toColor. fold (channel a) (channel r) (channel g) (channel b).
  rewrite !Hu by done.
  destruct (hex2_byte _ Ha) as [La Xa], (hex2_byte _ Hr) as [Lr Xr],
    (hex2_byte _ Hg) as [Lg Xg], (hex2_byte _ Hb) as [Lb Xb].
  split; [done|]. split.
  - rewrite !length_append, La, Lr, Lg, Lb. done.
  - by repeat constructor.
Qed.

(** ** Text styles *)

Lemma toQMLTextStyles_sorted (this : FigmaParser) (obj : QJsonObject) :
  sorted_keys (toQMLTextStyles this obj).
Proof.
  unfold toQMLTextStyles. cbv zeta.
  repeat first [ apply jinsert_sorted | case_match ]; constructor.
Qed.

Lemma toQMLTextStyles_decoration (this : FigmaParser) (obj : QJsonObject) :
  jcontains obj "textDecoration" = true →
  assoc decoration (toString (jvalue obj "textDecoration")) = None →
  ∃ styles, toQMLTextStyles this obj = ("", JBool true) :: styles.
Proof.
  intros Hdecoration Hnone. unfold toQMLTextStyles. cbv zeta. rewrite Hdecoration, Hnone.
  destruct (jcontains obj "textCase"), (jcontains obj "paragraphSpacing"),
    (jcontains obj "paragraphIndent"); cbn; by eexists.
Qed.

Lemma toQMLTextStyles_basic (this : FigmaParser) (obj : QJsonObject) :
  Forall (λ k, jcontains (toQMLTextStyles this obj) k = true)
    ["font.family"; "font.italic"; "font.letterSpacing"; "font.pixelSize"; "font.weight";
     "horizontalAlignment"; "verticalAlignment"].
Proof.
  unfold toQMLTextStyles, decoration. cbv zeta. cbn [assoc].
  destruct (jcontains obj "textCase"), (jcontains obj "textDecoration"),
    (jcontains obj "paragraphSpacing"), (jcontains obj "paragraphIndent");
    try destruct (String.eqb "STRIKETHROUGH" _); try destruct (String.eqb "UNDERLINE" _);
    cbn; by repeat constructor.
Qed.

(** X27: the text styles are an object with its keys in order, so
    [parseStyle] writes them in the order of the keys; the seven basic
    styles are always among them; and a text decoration that is neither
    STRIKETHROUGH nor UNDERLINE becomes a first line with an empty property
    name. *)
Theorem text_styles_in_key_order (this : FigmaParser) (obj : QJsonObject) (intendents : Z)
    (out : string) :
  parseStyle this obj intendents = Ok out →
  sorted_keys (toQMLTextStyles this obj)
  ∧ Forall (λ k, jcontains (toQMLTextStyles this obj) k = true)
      ["font.family"; "font.italic"; "font.letterSpacing"; "font.pixelSize"; "font.weight";
       "horizontalAlignment"; "verticalAlignment"]
  ∧ (∃ fill,
       out = cat ((λ k, tabs intendents +:+ k +:+ ": "
                        +:+ variantString number (jvalue (toQMLTextStyles this obj) k) +:+ nl)
                    <$> jkeys (toQMLTextStyles this obj)) +:+ fill)
  ∧ (jcontains obj "textDecoration" = true →
     toString (jvalue obj "textDecoration") ∉ ["STRIKETHROUGH"; "UNDERLINE"] →
     ∃ rest, out = tabs intendents +:+ ": true" +:+ nl +:+ rest).
Proof.
  intros Hout. split; [apply toQMLTextStyles_sorted|]. split; [apply toQMLTextStyles_basic|].
  assert (∃ fill,
            out = cat ((λ k, tabs intendents +:+ k +:+ ": "
                             +:+ variantString number (jvalue (toQMLTextStyles this obj) k)
                             +:+ nl)
                         <$> jkeys (toQMLTextStyles this obj)) +:+ fill) as [fill Hfill].
  { revert Hout. unfold parseStyle. cbv zeta. destruct (0 <? _).
    - munfold. destruct (makeFill _ _ _) as [fill| |]; [|done..]. intros [= <-]. by exists fill.
    - intros [= <-]. exists "". by rewrite append_nil_r. }
  split; [by exists fill|]. intros Hdecoration Hnot.
  destruct (toQMLTextStyles_decoration this obj Hdecoration) as [styles Hstyles].
  { by apply assoc_None. }
  rewrite Hfill, Hstyles. cbn [jkeys fmap list_fmap fst jvalue String.eqb variantString].
  rewrite cat_cons. eexists. rewrite !append_assoc. reflexivity.
Qed.

End FigmaParser.

(** * Examples on concrete documents *)

Example validFileName_samples :
  validFileName true "my button/2" = Ok "My_button_2_figma" ∧
  validFileName true "42" = Ok "C42_figma" ∧
  validFileName true "" = Ok "" ∧
  qmlId "I12:3;4:5" = "figma_i12_3_4_5" ∧
  delegateName "12:3" = "delegate_12_3".
Proof. vm_compute. repeat split. Qed.

(** Two components named Button: the second one gets the counter. *)
Example components_same_names :
  listing (components true no_json sample_locale project_same_names no_nodes)
  = Some ([("1:1", "Button_figma"); ("2:2", "Button_1_figma")], []).
Proof. vm_compute. reflexivity. Qed.

(** A raw name with a place marker of the number 2: the count is written
    in the place of the marker as well. *)
Example numbered_samples :
  numbered sample_locale "Button" 1 = "Button_1"
  ∧ numbered sample_locale "a%2b" 1 = "a1b_1"
  ∧ validFileName true (numbered sample_locale "a%2b" 1) = Ok "A1b_1_figma"
  ∧ numbered sample_locale "a%1b" 1 = "a1b_%2"
  ∧ numbered sample_locale "50%" 3 = "50%_3".
Proof. vm_compute. repeat split. Qed.

(** C9, as stated, fails for a raw name that holds a place marker: of two
    components named a%1b the second one gets the count in the place of
    the marker of its raw name, and the second marker of the template
    stays; its name is not the raw name with a counter appended, for any
    count. *)
Lemma numbered_name_without_suffix :
  listing (components true no_json sample_locale project_percent_names no_nodes)
  = Some ([("1:1", "A_1b_figma"); ("2:2", "A1b__2_figma")], [])
  ∧ validFileName true ("a%1b" +:+ "_" +:+ number_int 1) = Ok "A_1b_1_figma"
  ∧ ∀ count, validFileName true ("a%1b" +:+ "_" +:+ number_int count) ≠ Ok "A1b__2_figma".
Proof.
  split; [vm_compute; reflexivity|]. split; [vm_compute; reflexivity|].
  intros count. unfold validFileName. rewrite !append_cons. cbn [isEmpty].
  destruct (Q_ASSERT _ _); [|done..]. cbn [mbind outcome_bind obind].
  rewrite !replace_class_cons. cbn [re_reserved re_nonword code N_of_ascii N_of_digits].
  by cbn.
Qed.

Lemma components_names_unique_witness :
  ∃ map,
    components true no_json sample_locale project_same_names no_nodes = Some (map, [])
    ∧ names_distinct map
    ∧ dom map = list_to_set ["1:1"; "2:2"]
    ∧ (∀ key c, map !! key = Some c →
         named_from true sample_locale (toObject (jvalue project_same_names "components"))
           key c)
    ∧ (∀ c1 c2, map !! "1:1" = Some c1 → map !! "2:2" = Some c2 →
         ∃ count, 1 ≤ count
           ∧ (validFileName true (numbered sample_locale "Button" count)
              = Ok (Component.m_name c1)
              ∨ validFileName true (numbered sample_locale "Button" count)
                = Ok (Component.m_name c2)))
    ∧ (∀ componentName count,
         without "%" componentName = true →
         numbered sample_locale componentName count
         = componentName +:+ "_" +:+ number_int count).
Proof.
  set (r := components true no_json sample_locale project_same_names no_nodes).
  assert (r = Some ((default (∅, []) r).1, [])) as E by (vm_compute; reflexivity).
  destruct (components_names_unique true no_json sample_locale project_same_names no_nodes
              _ _ E)
    as (Hdistinct & (pre & post & Hkeys & Hdom & Hpost) & Hnamed & Hsame & Hplain).
  exists (default (∅, []) r).1. split; [exact E|]. split; [exact Hdistinct|].
  split; [|split; [exact Hnamed|split; [|exact Hplain]]].
  - rewrite (Hpost eq_refl), app_nil_r in Hkeys. rewrite Hdom, <- Hkeys. reflexivity.
  - intros c1 c2 H1 H2. apply (Hsame "1:1" "2:2" c1 c2 H1 H2); [discriminate|reflexivity].
Defined.

(** C7, as stated, fails: the second component cannot be registered, a fatal
    issue is reported, and the result still holds the first component. *)
Lemma components_failure_keeps_registered :
  listing (components true no_json sample_locale project_missing_body no_nodes)
  = Some ([("1:1", "Button_figma")],
          [("FigmaParser exception: Component not found 2:2 for", true)]).
Proof. vm_compute. reflexivity. Qed.

Lemma components_failure_witness :
  ∃ st what,
    registerAll true no_json sample_locale no_nodes
      (toObject (jvalue project_missing_body "components")) ["1:1"]
      (getObjectsByType (toObject (jvalue project_missing_body "document")) "COMPONENT", ∅)
    = (st, Ok ())
    ∧ components true no_json sample_locale project_missing_body no_nodes
      = Some (st.2, [(what, true)])
    ∧ dom st.2 = {["1:1"]}
    ∧ (∀ k c, st.2 !! k = Some c →
         registered_from (toObject (jvalue project_missing_body "components")) k c)
    ∧ st.2 ≠ ∅.
Proof.
  set (r := registerAll true no_json sample_locale no_nodes
              (toObject (jvalue project_missing_body "components")) ["1:1"]
              (getObjectsByType (toObject (jvalue project_missing_body "document"))
                 "COMPONENT", ∅)).
  assert (r = (r.1, Ok ())) as E by (vm_compute; reflexivity).
  assert (r.1.1 !! "2:2" = None) as Hkey by (vm_compute; reflexivity).
  destruct (components_failure true no_json sample_locale project_missing_body no_nodes
              ["1:1"] [] "2:2" r.1 eq_refl E Hkey (or_introl eq_refl))
    as (what & Hc & _ & Hdom & Hreg & Hempty).
  exists r.1, what. split; [exact E|]. split; [exact Hc|].
  split; [rewrite Hdom; set_solver|]. split; [exact Hreg|].
  intros H. by apply Hempty in H.
Defined.

(** C8, as stated, fails: sanitizing a sanitized name gives another name,
    and in a debug build it fails the assertion of the sanitizer. *)
Lemma validFileName_not_idempotent :
  validFileName false "a" = Ok "A_figma"
  ∧ validFileName false "A_figma" = Ok "A_figma_figma"
  ∧ validFileName true "a" = Ok "A_figma"
  ∧ validFileName true "A_figma" = Crash.
Proof. vm_compute. auto. Qed.

Lemma validFileName_twice_witness :
  "a" ≠ "" ∧ validFileName true "a" = Ok "A_figma"
  ∧ startsWithLetter "A_figma" = true
  ∧ endsWith "A_figma" FIGMA_SUFFIX = true
  ∧ validFileName true "A_figma" = Crash
  ∧ validFileName true "A_figma" ≠ Ok "A_figma".
Proof.
  split; [discriminate|]. split; [reflexivity|].
  apply (validFileName_twice true "a" "A_figma"); [discriminate|reflexivity].
Defined.

Lemma not_elem_of_by_computation (x : string) (l : list string) :
  bool_decide (x ∈ l) = false → x ∉ l.
Proof. by intros H%bool_decide_eq_false. Qed.

(** The example of the specification: a red rectangle of 100 by 50. *)
Example red_rectangle_markup :
  ∃ out, (Element.data <$> (fst <$> element true sample_number red_rectangle 0 no_image
                                      same_font ∅)) = Some out
         ∧ occurrences "width:100" out = 1%nat
         ∧ occurrences "height:50" out = 1%nat
         ∧ occurrences "#ffff0000" out = 1%nat.
Proof. eexists. split; [vm_compute; reflexivity|]. vm_compute. auto. Qed.

Lemma unknown_type_is_fatal_witness :
  (toString (jvalue unknown_node "type") ∉ supported_types)
  ∧ parse true sample_number (sample_parser 0 ∅) unknown_node 1 no_members
    = Throw (unsupported_type "UNKNOWN_TYPE")
  ∧ element true sample_number unknown_node 0 no_image same_font ∅
    = Some (Element.empty, [(unsupported_type "UNKNOWN_TYPE", true)])
  ∧ Element.data Element.empty = "".
Proof.
  assert (toString (jvalue unknown_node "type") ∉ supported_types) as H
    by (apply not_elem_of_by_computation; reflexivity).
  split; [exact H|].
  exact (unknown_type_is_fatal true sample_number (sample_parser 0 ∅) unknown_node 1
           no_members 0 no_image same_font ∅ H).
Defined.




(** C3, as stated, fails.  For a rectangle filled with an image the normal
    strategy is selected, and it emits two shape-path blocks and an opacity
    mask.  A rectangle without a stroke weight gets one shape-path block
    without any stroke width.  A line gets its stroke colour as the fill
    colour and a transparent stroke colour.  A rectangle whose strokes and
    fills are strings gets neither a stroke colour nor a fill colour. *)
Lemma normal_strategy_with_image_fill :
  (strokeStrategy image_rectangle = StrokeNormal
   ∧ blocks (parseVector true sample_number (sample_parser 0 ∅) image_rectangle 1 no_members)
     = Some (2%nat, 1%nat))
  ∧ (strokeStrategy red_rectangle = StrokeNormal
     ∧ blocks (parseVector true sample_number (sample_parser 0 ∅) red_rectangle 1 no_members)
       = Some (1%nat, 0%nat)
     ∧ occurrences "strokeWidth"
         (output (parseVector true sample_number (sample_parser 0 ∅) red_rectangle 1
                    no_members) "") = 0%nat)
  ∧ (strokeStrategy black_line = StrokeNormal
     ∧ in_order ["ShapePath {"; "fillColor: " +:+ dq +:+ "#ff000000"; "strokeWidth:1";
                 "strokeColor: " +:+ dq +:+ "transparent"]
         (output (parseVector true sample_number (sample_parser 0 ∅) black_line 1
                    no_members) "") = true)
  ∧ (strokeStrategy styled_rectangle = StrokeNormal
     ∧ blocks (parseVector true sample_number (sample_parser 0 ∅) styled_rectangle 1
                 no_members) = Some (1%nat, 0%nat)
     ∧ occurrences "Color"
         (output (parseVector true sample_number (sample_parser 0 ∅) styled_rectangle 1
                    no_members) "") = 0%nat).
Proof. vm_compute. repeat split. Qed.

(** The examples of the specification: a centred stroke of weight 2 gives one
    shape-path block, an inside stroke two of them and an opacity mask. *)
Example stroke_alignment_blocks :
  blocks (parseVector true sample_number (sample_parser 0 ∅) (stroked_rectangle "CENTER") 1
            no_members) = Some (1%nat, 0%nat)
  ∧ blocks (parseVector true sample_number (sample_parser 0 ∅) (stroked_rectangle "INSIDE") 1
              no_members) = Some (2%nat, 1%nat).
Proof. vm_compute. auto. Qed.

Lemma stroke_strategy_witness :
  strokeStrategy (stroked_rectangle "INSIDE") = StrokeInside
  ∧ strokeStrategy (stroked_rectangle "OUTSIDE") = StrokeOutside
  ∧ strokeStrategy (stroked_rectangle "CENTER") = StrokeNormal
  ∧ ∃ out, parseVector true sample_number (sample_parser 0 ∅) (stroked_rectangle "INSIDE") 1
             no_members = Ok (out, no_members)
           ∧ holds_in_order
               ["Shape {"; "ShapePath {"; "Shape {"; "ShapePath {"; "OpacityMask {"] out.
Proof.
  destruct (stroke_strategy true sample_number (sample_parser 0 ∅)
              (stroked_rectangle "INSIDE") 1 no_members)
    as (Hin & _ & Hdispatch & _ & _ & _ & _ & _ & _ & Hholds & Hplain).
  destruct (stroke_strategy true sample_number (sample_parser 0 ∅)
              (stroked_rectangle "OUTSIDE") 1 no_members) as (_ & Hout & _).
  split; [apply Hin; split; [split|]; [discriminate|reflexivity..]|].
  split; [apply Hout; split; [split|]; [discriminate|reflexivity..]|].
  split; [reflexivity|].
  rewrite Hdispatch.
  replace (strokeStrategy (stroked_rectangle "INSIDE")) with StrokeInside by reflexivity.
  destruct (Hplain _ _ no_members eq_refl eq_refl eq_refl) as [out Hout'].
  exists out. split; [exact Hout'|]. exact (Hholds out no_members Hout').
Defined.



(** C4: in a frame whose second child is a mask, the first child is not
    emitted outside the composite: the only item is the composite, and the
    markup of the first child lies in its masked source, before that of the
    third child. *)
Lemma sibling_before_mask_is_masked :
  isMask <$> toArray (jvalue masked_frame "children") = [false; true; false]
  ∧ ∃ text,
      parseChildrenItems (parse true sample_number (sample_parser 0 ∅)) masked_frame 1
        no_members
      = Ok (OrderedMap.insert "maskedItem" text OrderedMap.empty, no_members)
      ∧ in_order ["OpacityMask {"; "id: mask_figma_2_2"; "id: figma_2_2";
                  "id: source_figma_2_2"; "id: figma_2_1"; "id: figma_2_3"] text = true
      ∧ occurrences "id: figma_2_1" text = 1%nat.
Proof.
  split; [reflexivity|].
  eexists. split; [vm_compute; reflexivity|]. vm_compute. auto.
Qed.

Lemma mask_captures_all_siblings_witness :
  ∃ items,
    parseChildrenItems (parse true sample_number (sample_parser 0 ∅)) masked_frame 1
      no_members
    = Ok (items, no_members)
    ∧ OrderedMap.keys items = ["maskedItem"].
Proof.
  set (rec := parse true sample_number (sample_parser 0 ∅)).
  set (r := parseChildrenItems rec masked_frame 1 no_members).
  set (items := default OrderedMap.empty (fst <$> match r with Ok r => Some r | _ => None end)).
  assert (r = Ok (items, no_members)) as E by (vm_compute; reflexivity).
  exists items. split; [exact E|].
  exact (proj1 (mask_captures_all_siblings rec masked_frame 1 no_members no_members items
                  eq_refl eq_refl E)).
Defined.

(** * Further examples on concrete documents *)

Lemma delta_keys_witness :
  "size" ∈ jkeys (toObject (tile "I6:0;1:2" 20 20 false)) ∧ "size" ∉ child_ignored.
Proof.
  apply (delta_keys (toObject (tile "I6:0;1:2" 20 20 false))
           (toObject (tile "1:2" 10 10 false)) child_ignored ∅
           [("size", JObject [("x", num 20); ("y", num 20)])] "size").
  - vm_compute. reflexivity.
  - left.
Defined.

Lemma delta_unchanged_witness :
  defined (toObject (tile "1:2" 10 10 false))
  ∧ (delta (toObject (tile "1:2" 10 10 false)) (toObject (tile "1:2" 10 10 false)) ∅ ∅ = Ok []
     ↔ ∀ k, k ∈ jkeys (toObject (tile "1:2" 10 10 false)) → k ∉ (∅ : gset string) →
         jcontains (toObject (tile "1:2" 10 10 false)) k = true
         ∧ json_eqb (jvalue (toObject (tile "1:2" 10 10 false)) k)
             (jvalue (toObject (tile "1:2" 10 10 false)) k) = true).
Proof.
  assert (defined (toObject (tile "1:2" 10 10 false))) as Hdefined.
  { unfold defined. cbn. repeat first [apply Forall_nil_2 | apply Forall_cons_2; [discriminate|]]. }
  split; [exact Hdefined|]. exact (delta_unchanged _ _ ∅ Hdefined).
Defined.

Lemma split_last_spec_witness :
  split_last ";" "1:2" = "1:2" ∧ split_last ";" ("I6:0" +:+ String ";" "1:2") = "1:2".
Proof. apply (split_last_spec ";" "I6:0" "1:2"). reflexivity. Defined.

Lemma validFileName_type_name_witness :
  isUpper (at0 "My_button_2_figma") = true
  ∧ sall isWord "My_button_2_figma" = true
  ∧ (String.length "my button/2" + 6 ≤ String.length "My_button_2_figma"
     ≤ String.length "my button/2" + 7)%nat.
Proof.
  apply (validFileName_type_name true "my button/2" "My_button_2_figma");
    [discriminate|reflexivity].
Defined.

Lemma makeImageSource_keeps_data_witness :
  ∃ chunks,
    cat chunks = "data:img1"
    ∧ Forall (λ chunk, (String.length chunk ≤ 1024)%nat) chunks
    ∧ makeImageSource (sample_parser 0 ∅) "img1" false 1 ""
      = Ok (tabs 1 +:+ "source: " +:+ dq +:+ joined chunks +:+ dq +:+ nl).
Proof.
  apply (makeImageSource_keeps_data (sample_parser 0 ∅) "img1" false 1 ""). discriminate.
Defined.

Lemma makeImageSource_fails_witness :
  makeImageSource blind_parser "img1" false 1 ""
  = Throw (Exception "Cannot read imageRef img1")
  ∧ makeImageSource blind_parser "img1" true 1 PlaceHolder
    = Throw (Exception "Cannot load placeholder").
Proof.
  destruct (makeImageSource_fails blind_parser "img1" false 1 "" eq_refl) as [Hnone _].
  destruct (makeImageSource_fails blind_parser "img1" true 1 PlaceHolder eq_refl)
    as (_ & Hholder & _).
  split; [exact (Hnone eq_refl)|]. apply Hholder; [discriminate|reflexivity].
Defined.

Lemma components_complete_witness :
  ∃ map,
    components true no_json sample_locale project_same_names no_nodes = Some (map, [])
    ∧ dom map = list_to_set (jkeys (toObject (jvalue project_same_names "components")))
    ∧ ∀ key c, map !! key = Some c →
        registered_from (toObject (jvalue project_same_names "components")) key c.
Proof.
  set (r := components true no_json sample_locale project_same_names no_nodes).
  assert (r = Some ((default (∅, []) r).1, [])) as E by (vm_compute; reflexivity).
  eexists. split; [exact E|].
  exact (components_complete true no_json sample_locale project_same_names no_nodes _ E).
Defined.

Lemma components_returns_witness :
  ∃ map issues,
    components true no_json sample_locale project_percent_names no_nodes
    = Some (map, issues) ∧ (length issues ≤ 1)%nat.
Proof.
  apply (components_returns true no_json sample_locale project_percent_names no_nodes).
  intros key Hkey.
  assert (key = "1:1" ∨ key = "2:2") as [-> | ->].
  { apply list_elem_of_In in Hkey. cbn in Hkey. intuition. }
  - split; [reflexivity|]. intros _. reflexivity.
  - split; [reflexivity|]. intros _. reflexivity.
Defined.

Lemma components_without_lookup_witness :
  components true no_json sample_locale project_same_names no_nodes
  = components true no_json sample_locale project_same_names (λ _, "{}").
Proof.
  apply (components_without_lookup true no_json sample_locale project_same_names no_nodes (λ _, "{}")).
  intros key Hkey.
  repeat (apply elem_of_cons in Hkey as [->|Hkey]); [..|by apply elem_of_nil in Hkey];
    vm_compute; eexists; reflexivity.
Defined.

Lemma parse_keeps_members_witness :
  ∃ out st',
    parse true sample_number (sample_parser 0 card_catalogue) (card_instance false) 1
      no_members = Ok (out, st')
    ∧ m_parent st' = m_parent no_members
    ∧ m_componentIds no_members ⊆ m_componentIds st'
    ∧ m_componentIds st' ⊆ m_componentIds no_members ∪ dom card_catalogue.
Proof.
  set (r := parse true sample_number (sample_parser 0 card_catalogue) (card_instance false) 1
              no_members).
  assert (r = Ok (output r "", members_of r)) as E by (vm_compute; reflexivity).
  eexists _, _. split; [exact E|].
  exact (parse_keeps_members true sample_number (sample_parser 0 card_catalogue)
           (card_instance false) 1 no_members _ _ E).
Defined.

Lemma element_components_known_witness :
  ∃ e,
    element true sample_number (card_instance false) 0 some_image same_font card_catalogue
    = Some (e, [])
    ∧ Element.components e = ["5:0"]
    ∧ ∀ id, id ∈ Element.components e → is_Some (card_catalogue !! id).
Proof.
  set (r := element true sample_number (card_instance false) 0 some_image same_font
              card_catalogue).
  assert (r = Some ((default (Element.empty, []) r).1, [])) as E by (vm_compute; reflexivity).
  eexists. split; [exact E|]. split; [vm_compute; reflexivity|].
  exact (element_components_known true sample_number (card_instance false) 0 some_image
           same_font card_catalogue _ (or_introl E)).
Defined.

Lemma instance_registers_component_witness :
  ∃ out st',
    parse true sample_number (sample_parser 0 card_catalogue) (card_instance false) 1
      no_members = Ok (out, st')
    ∧ "5:0" ∈ m_componentIds st'
    ∧ is_Some (card_catalogue !! "5:0").
Proof.
  set (r := parse true sample_number (sample_parser 0 card_catalogue) (card_instance false) 1
              no_members).
  assert (r = Ok (output r "", members_of r)) as E by (vm_compute; reflexivity).
  eexists _, _. split; [exact E|].
  exact (instance_registers_component true sample_number (sample_parser 0 card_catalogue)
           (card_instance false) 1 no_members _ _ eq_refl eq_refl E).
Defined.

Lemma unknown_component_is_fatal_witness :
  parse true sample_number (sample_parser 0 ∅) (card_instance false) 1 no_members
  = Throw (Exception "Unexpected component dependency from 6:0 to 5:0")
  ∧ element true sample_number (card_instance false) 0 some_image same_font ∅
    = Some (Element.empty,
            [(Exception "Unexpected component dependency from 6:0 to 5:0", true)]).
Proof.
  assert (m_components (sample_parser 0 ∅)
          !! toString (jvalue (card_instance false) "componentId") = None) as Hnone
    by (vm_compute; reflexivity).
  destruct (unknown_component_is_fatal true sample_number (sample_parser 0 ∅)
              (card_instance false) 1 no_members some_image same_font
              eq_refl eq_refl Hnone) as [Hparse Helement].
  split; [exact Hparse|]. exact (Helement eq_refl eq_refl).
Defined.

Lemma children_items_without_mask_witness :
  ∃ items st' texts,
    parseChildrenItems (parse true sample_number (sample_parser 0 ∅)) (card_instance false) 1
      no_members = Ok (items, st')
    ∧ m_parent st' = m_parent no_members
    ∧ OrderedMap.m_data items = zip ["I6:0;1:1"; "I6:0;1:2"] texts
    ∧ children_parsed (parse true sample_number (sample_parser 0 ∅)) (card_instance false) 2
        ∅ [tile "I6:0;1:1" 100 50 false; tile "I6:0;1:2" 20 20 false] texts
        (m_componentIds st').
Proof.
  set (rec := parse true sample_number (sample_parser 0 ∅)).
  set (r := parseChildrenItems rec (card_instance false) 1 no_members).
  assert (r = Ok (output r OrderedMap.empty, members_of r)) as E by (vm_compute; reflexivity).
  destruct (children_items_without_mask rec (card_instance false) 1 no_members _ _ eq_refl E)
    as (Hparent & texts & Hdata & Hchain).
  eexists _, _, texts. split; [exact E|]. split; [exact Hparent|].
  split; [exact Hdata|exact Hchain].
Defined.

Lemma prerendered_node_witness :
  parse true sample_number (sample_parser PrerenderShapes ∅) red_rectangle 1 no_members
  = parseRendered true sample_number (sample_parser PrerenderShapes ∅) red_rectangle 1
      no_members
  ∧ parse true sample_number (sample_parser PrerenderShapes ∅) red_rectangle 1 no_members
    = Crash.
Proof.
  assert (toString (jvalue red_rectangle "type") ∈ supported_types) as Htype by left.
  destruct (prerendered_node true sample_number (sample_parser PrerenderShapes ∅)
              red_rectangle 1 no_members Htype eq_refl) as [Hparse Hcrash].
  split; [exact Hparse|]. exact (Hcrash eq_refl eq_refl eq_refl).
Defined.


Lemma toColor_format_witness :
  toColor 1 0 0 1 = dq +:+ "#ffff0000" +:+ dq ∧ String.length (toColor 1 0 0 1) = 11%nat.
Proof.
  assert (Forall (λ c, 0 ≤ channel c < 256) [1; 1; 0; 0]%float) as Hall.
  { repeat first [apply Forall_nil_2 | apply Forall_cons_2; [by vm_compute|]]. }
  destruct (toColor_format 1 0 0 1 Hall) as (Htext & Hlength & _).
  split; [|exact Hlength]. rewrite Htext. vm_compute. reflexivity.
Defined.

Lemma text_styles_in_key_order_witness :
  ∃ out rest,
    parseStyle sample_number (sample_parser 0 ∅) label_style 1 = Ok out
    ∧ sorted_keys (toQMLTextStyles sample_number (sample_parser 0 ∅) label_style)
    ∧ out = tabs 1 +:+ ": true" +:+ nl +:+ rest.
Proof.
  set (r := parseStyle sample_number (sample_parser 0 ∅) label_style 1).
  assert (r = Ok (match r with Ok out => out | _ => "" end)) as E by (vm_compute; reflexivity).
  destruct (text_styles_in_key_order sample_number (sample_parser 0 ∅) label_style 1 _ E)
    as (Hsorted & _ & _ & Hfirst).
  destruct Hfirst as [rest Hrest]; [reflexivity|apply not_elem_of_by_computation; reflexivity|].
  eexists _, rest. split; [exact E|]. split; [exact Hsorted|exact Hrest].
Defined.
